(** * node-pnglib: the layout, palette, addressing and checksum engine

    A shallow embedding of [src/pnglib.js] (class [PNGlib]) and of the few
    helpers it calls, followed by the properties of the design document that
    were checked against it.

    Conventions.
    - JavaScript numbers that the class computes with are integers here
      ([Z]); wherever the source applies a 32-bit operator ([<<], [|], [~])
      the wrap-around to Int32 is written out.  A number that may be [NaN]
      (the Adler-32 accumulators) is an [option Z] with [None] for [NaN].
    - [this.raw] and [this.buffer] are two views of one [ArrayBuffer]; the
      record keeps the shared byte store once and the two views address it.
      A typed-array store outside the view is ignored, a load outside the
      view yields [undefined] ([None]).
    - [this.palette] is a JavaScript [Map] from packed colour keys to
      palette indices: a [gmap Z Z].
    - What [color] returns is a number or, from the full palette, one of
      the byte-sequence constants of [./buf]: a [JS.value]; a store into
      the buffer converts it as the language does. *)

From Stdlib Require Import ZArith Lia QArith Qround.
From stdpp Require Import base numbers list gmap strings.

Close Scope Q_scope.
Open Scope Z_scope.

(** ** JavaScript integer operators *)

Module JS.

Definition ToInt32 (z : Z) : Z := (z + 2 ^ 31) mod 2 ^ 32 - 2 ^ 31.

(** [a << n] for a constant shift count [0 <= n < 32]. *)
Definition shl (a n : Z) : Z := ToInt32 (Z.shiftl (ToInt32 a) n).

(** [a | b] *)
Definition bor (a b : Z) : Z := Z.lor (ToInt32 a) (ToInt32 b).

(** [~a] *)
Definition bnot (a : Z) : Z := Z.lnot (ToInt32 a).

(** [ToUint8], applied by every store into a [Uint8Array]. *)
Definition ToUint8 (z : Z) : Z := z mod 256.

(** Numbers that may be [NaN]. *)
Definition num := option Z.

(** [a + b] where [b] was loaded from a typed array ([undefined] when the
    index is outside it, and [ToNumber undefined = NaN]). *)
Definition add (a b : num) : num :=
  match a, b with
  | Some x, Some y => Some (x + y)
  | _, _ => None
  end.

(** [a % b] for a constant non-zero [b]; the sign follows the dividend. *)
Definition rem (a : num) (b : Z) : num :=
  match a with
  | Some x => Some (Z.rem x b)
  | None => None
  end.

(** [ToInt32] on a number that may be [NaN]: [NaN] converts to [0]. *)
Definition ToInt32_num (a : num) : Z :=
  match a with
  | Some x => ToInt32 x
  | None => 0
  end.

(** What a method can return or store besides a number: a byte sequence
    (a [Buffer]), which is an object. *)
Inductive value :=
| Number (n : Z)
| Bytes (b : list Z).

(** [ToNumber] of a byte sequence: the number that its text ([toString],
    UTF-8) spells, [NaN] when it spells none.  Exact for the sequences of
    at most one byte: the empty text and a white-space character read as
    0, a digit as itself, every other character (a control character, a
    letter, a sign, the replacement character of a byte from 128 on) as
    [NaN].  Longer texts are outside this model, which has no fractions
    and no infinities; the class converts none, and they read as [NaN]
    here. *)
Definition ToNumber_bytes (b : list Z) : num :=
  match b with
  | [] => Some 0
  | [c] =>
      if (48 <=? c) && (c <=? 57) then Some (c - 48)
      else if ((9 <=? c) && (c <=? 13)) || (c =? 32) then Some 0
      else None
  | _ => None
  end.

(** [ToNumber], applied by a store into a typed array. *)
Definition ToNumber (v : value) : num :=
  match v with
  | Number n => Some n
  | Bytes b => ToNumber_bytes b
  end.

(** The number that a store into a [Uint8Array] takes from a value:
    [ToNumber] of it, with [NaN] counted as 0, as [ToUint8] does. *)
Definition ToElement (v : value) : Z := default 0 (ToNumber v).

(** Truthiness of the values the constructor tests. *)
Definition truthy_string (s : string) : bool :=
  match s with EmptyString => false | _ => true end.

Definition truthy_number (n : Z) : bool := negb (n =? 0).

End JS.

(** ** Byte buffers: one store, several views *)

Record view := { byteOffset : Z; byteLength : Z }.

(** [buf[i]] *)
Definition view_get (v : view) (m : list Z) (i : Z) : option Z :=
  if (0 <=? i) && (i <? byteLength v)
  then m !! Z.to_nat (byteOffset v + i)
  else None.

(** [buf[i] = x] *)
Definition view_set (v : view) (m : list Z) (i x : Z) : list Z :=
  if (0 <=? i) && (i <? byteLength v)
  then <[Z.to_nat (byteOffset v + i) := JS.ToUint8 x]> m
  else m.

(** ** The modules required by pnglib.js that are not part of the sources *)

Inductive error := InvalidColor | RangeError.

Inductive result (A : Type) :=
| Ok (a : A)
| Throw (e : error).
Arguments Ok {A} a.
Arguments Throw {A} e.

Module BUF.

(** Modelled from the spec: [BUF.PNG_HEAD], the fixed 8-byte PNG
    signature ([./buf] is not among the sources). *)
Definition PNG_HEAD : list Z := [137; 80; 78; 71; 13; 10; 26; 10].

(** Modelled from the spec: the five 4-byte chunk type tags of [./buf]. *)
Definition PNG_IHDR : list Z := [73; 72; 68; 82].
Definition PNG_PLTE : list Z := [80; 76; 84; 69].
Definition PNG_tRNS : list Z := [116; 82; 78; 83].
Definition PNG_IDAT : list Z := [73; 68; 65; 84].
Definition PNG_IEND : list Z := [73; 69; 78; 68].

(** Modelled from the spec: [BUF.CODE_X08X03], the fixed bit-depth /
    colour-type byte pair (8-bit, indexed colour). *)
Definition CODE_X08X03 : list Z := [8; 3].

(** Modelled from the spec: [BUF.PNG_DEFLATE_HEADER], the 2-byte zlib
    stream header, written as one big-endian 16-bit number. *)
Definition PNG_DEFLATE_HEADER : Z := 0x78da.

(** Modelled from the spec: [BUF.CODE_NUL] and [BUF.CODE_SOH], the flag
    byte of a stored block (0 = more follow, 1 = final block).  Line 74
    hands them to [utils.writeb], the writer of byte sequences, as it
    stands: each is a sequence of one byte, like the other constants of
    [./buf].  [CODE_NUL] is also the object that [color] returns when the
    palette is full. *)
Definition CODE_NUL : list Z := [0].
Definition CODE_SOH : list Z := [1].

(** Modelled from the spec: [BUF.alloc], a pre-zeroed byte region of the
    requested size.  A negative size is a [RangeError]; the allocation
    limit of the runtime is not modelled. *)
Definition alloc (n : Z) : result (list Z) :=
  if n <? 0 then Throw RangeError else Ok (replicate (Z.to_nat n) 0).

End BUF.

Module utils.

(** Modelled from the spec: [utils.writeb], the raw byte-sequence write at
    an offset; like the other writers it returns the offset after the
    last byte written ([./utils] is not among the sources). *)
Fixpoint writeb (v : view) (m : list Z) (offs : Z) (bytes : list Z) : list Z * Z :=
  match bytes with
  | [] => (m, offs)
  | b :: bytes' => writeb v (view_set v m offs b) (offs + 1) bytes'
  end.

(** The four bytes of a 32-bit value, most significant first. *)
Definition be32 (value : Z) : list Z :=
  [Z.land (Z.shiftr value 24) 255; Z.land (Z.shiftr value 16) 255;
   Z.land (Z.shiftr value 8) 255; Z.land value 255].

(** Modelled from the spec: [utils.write4], the big-endian 32-bit write. *)
Definition write4 (v : view) (m : list Z) (offs value : Z) : list Z * Z :=
  writeb v m offs (be32 value).

(** Modelled from the spec: [utils.write2], the big-endian 16-bit write. *)
Definition write2 (v : view) (m : list Z) (offs value : Z) : list Z * Z :=
  writeb v m offs [Z.land (Z.shiftr value 8) 255; Z.land value 255].

(** Modelled from the spec: [utils.write2lsb], the little-endian 16-bit
    write. *)
Definition write2lsb (v : view) (m : list Z) (offs value : Z) : list Z * Z :=
  writeb v m offs [Z.land value 255; Z.land (Z.shiftr value 8) 255].

(** The bytes [buf[from], ..., buf[from + n - 1]]; a byte outside the view
    is [undefined], which the checksum's [^] reads as 0. *)
Definition region (v : view) (m : list Z) (from : Z) (n : nat) : list Z :=
  map (fun k => default 0 (view_get v m (from + Z.of_nat k))) (seq 0 n).

(** One byte of the CRC-32 of the standard (reflected) polynomial. *)
Definition crc32_bit (c : Z) : Z :=
  if Z.odd c then Z.lxor (Z.shiftr c 1) 0xedb88320 else Z.shiftr c 1.

Definition crc32_byte (c b : Z) : Z :=
  Nat.iter 8 crc32_bit (Z.lxor c (Z.land b 255)).

Definition crc32_sum (bytes : list Z) : Z :=
  Z.lxor (fold_left crc32_byte bytes 0xffffffff) 0xffffffff.

(** Modelled from the spec: [utils.crc32 buffer offs size], for the chunk
    of [size] bytes at [offs]: the CRC-32 of the chunk's type tag and
    payload (the bytes after the 4-byte length and before the last 4
    bytes), appended as the chunk's last 4 bytes. *)
Definition crc32 (v : view) (m : list Z) (offs size : Z) : list Z :=
  (write4 v m (offs + size - 4)
     (crc32_sum (region v m (offs + 4) (Z.to_nat (size - 8))))).1.

End utils.

(** ** The PNGlib object *)

(** The first argument of [color]: a colour name or a number. *)
Inductive red_arg :=
| Name (s : string)
| Num (n : Z).

Record PNGlib := {
  width : Z;
  height : Z;
  depth : Z;
  bg : option red_arg;
  pix_size : Z;
  data_size : Z;
  ihdr_offs : Z;
  ihdr_size : Z;
  plte_offs : Z;
  plte_size : Z;
  trns_offs : Z;
  trns_size : Z;
  idat_offs : Z;
  idat_size : Z;
  iend_offs : Z;
  iend_size : Z;
  buffer_size : Z;
  raw : list Z;           (* the bytes shared by [this.raw] and [this.buffer] *)
  palette : gmap Z Z;
  pindex : Z
}.

(** [this.raw]: the whole allocation. *)
Definition this_raw (st : PNGlib) : view :=
  {| byteOffset := 0; byteLength := Z.of_nat (length BUF.PNG_HEAD) + buffer_size st |}.

(** [this.buffer = Buffer.from(this.raw.buffer, BUF.PNG_HEAD.length,
    this.buffer_size)]: the same bytes, past the signature. *)
Definition this_buffer (st : PNGlib) : view :=
  {| byteOffset := Z.of_nat (length BUF.PNG_HEAD); byteLength := buffer_size st |}.

Definition set_raw (st : PNGlib) (m : list Z) : PNGlib :=
  {| width := width st; height := height st; depth := depth st; bg := bg st;
     pix_size := pix_size st; data_size := data_size st;
     ihdr_offs := ihdr_offs st; ihdr_size := ihdr_size st;
     plte_offs := plte_offs st; plte_size := plte_size st;
     trns_offs := trns_offs st; trns_size := trns_size st;
     idat_offs := idat_offs st; idat_size := idat_size st;
     iend_offs := iend_offs st; iend_size := iend_size st;
     buffer_size := buffer_size st;
     raw := m; palette := palette st; pindex := pindex st |}.

Definition set_palette (st : PNGlib) (p : gmap Z Z) (next : Z) : PNGlib :=
  {| width := width st; height := height st; depth := depth st; bg := bg st;
     pix_size := pix_size st; data_size := data_size st;
     ihdr_offs := ihdr_offs st; ihdr_size := ihdr_size st;
     plte_offs := plte_offs st; plte_size := plte_size st;
     trns_offs := trns_offs st; trns_size := trns_size st;
     idat_offs := idat_offs st; idat_size := idat_size st;
     iend_offs := iend_offs st; iend_size := iend_size st;
     buffer_size := buffer_size st;
     raw := raw st; palette := p; pindex := next |}.

(** Lines 9-31 of the constructor: the fields computed from the arguments,
    before anything is allocated. *)
Definition fields (w h : Z) (d : option Z) (bg : option red_arg) : PNGlib :=
  let depth := match d with Some 0 | None => 8 | Some d => d end in
  let pix_size := h * (w + 1) in
  let data_size := 2 + pix_size + 5 * ((0xfffe + pix_size) / 0xffff) + 4 in
  let ihdr_offs := 0 in
  let ihdr_size := 4 + 4 + 13 + 4 in
  let plte_offs := ihdr_offs + ihdr_size in
  let plte_size := 4 + 4 + 3 * depth + 4 in
  let trns_offs := plte_offs + plte_size in
  let trns_size := 4 + 4 + depth + 4 in
  let idat_offs := trns_offs + trns_size in
  let idat_size := 4 + 4 + data_size + 4 in
  let iend_offs := idat_offs + idat_size in
  let iend_size := 4 + 4 + 4 in
  let buffer_size := iend_offs + iend_size in
  {| width := w; height := h; depth := depth; bg := bg;
     pix_size := pix_size; data_size := data_size;
     ihdr_offs := ihdr_offs; ihdr_size := ihdr_size;
     plte_offs := plte_offs; plte_size := plte_size;
     trns_offs := trns_offs; trns_size := trns_size;
     idat_offs := idat_offs; idat_size := idat_size;
     iend_offs := iend_offs; iend_size := iend_size;
     buffer_size := buffer_size;
     raw := []; palette := ∅; pindex := 0 |}.

(** Lines 39-61: the chunk lengths and type tags, the IHDR body, the PNG
    signature and the zlib header. *)
Definition init_chunks (st : PNGlib) (m : list Z) : list Z :=
  let buffer := this_buffer st in
  let m := (utils.write4 buffer m (ihdr_offs st) (ihdr_size st - 12)).1 in
  let m := (utils.writeb buffer m (ihdr_offs st + 4) BUF.PNG_IHDR).1 in
  let m := (utils.write4 buffer m (ihdr_offs st + 4 * 2) (width st)).1 in
  let m := (utils.write4 buffer m (ihdr_offs st + 4 * 3) (height st)).1 in
  let m := (utils.writeb buffer m (ihdr_offs st + 4 * 4) BUF.CODE_X08X03).1 in
  let m := (utils.write4 buffer m (plte_offs st) (plte_size st - 12)).1 in
  let m := (utils.writeb buffer m (plte_offs st + 4) BUF.PNG_PLTE).1 in
  let m := (utils.write4 buffer m (trns_offs st) (trns_size st - 12)).1 in
  let m := (utils.writeb buffer m (trns_offs st + 4) BUF.PNG_tRNS).1 in
  let m := (utils.write4 buffer m (idat_offs st) (idat_size st - 12)).1 in
  let m := (utils.writeb buffer m (idat_offs st + 4) BUF.PNG_IDAT).1 in
  let m := (utils.write4 buffer m (iend_offs st) (iend_size st - 12)).1 in
  let m := (utils.writeb buffer m (iend_offs st + 4) BUF.PNG_IEND).1 in
  let m := (utils.writeb (this_raw st) m 0 BUF.PNG_HEAD).1 in
  (utils.write2 buffer m (idat_offs st + 8) BUF.PNG_DEFLATE_HEADER).1.

(** The offset of the [i]-th stored-block header (line 73). *)
Definition block_header_offs (st : PNGlib) (i : Z) : Z :=
  idat_offs st + 8 + 2 + JS.shl i 16 + JS.shl i 2.

(** The body of the block-header loop (lines 65-76). *)
Definition block_header (st : PNGlib) (m : list Z) (i : Z) : list Z :=
  let '(size, bits) :=
    if i + 0xffff <? pix_size st
    then (0xffff, BUF.CODE_NUL)
    else (pix_size st - JS.shl i 16 - i, BUF.CODE_SOH) in
  let offs := block_header_offs st i in
  let '(m, offs) := utils.writeb (this_buffer st) m offs bits in
  let '(m, offs) := utils.write2lsb (this_buffer st) m offs size in
  (utils.write2lsb (this_buffer st) m offs (JS.bnot size)).1.

(** The loop of line 64, [for (let i = 0; (i << 16) - 1 < this.pix_size;
    i++)].  Its guard is an Int32 comparison and need not become false, so
    the loop runs on fuel; it returns the store and the final [i], which is
    the number of headers written. *)
Fixpoint block_headers (fuel : nat) (st : PNGlib) (m : list Z) (i : Z)
  : option (list Z * Z) :=
  match fuel with
  | O => None
  | S fuel' =>
      if JS.shl i 16 - 1 <? pix_size st
      then block_headers fuel' st (block_header st m i) (i + 1)
      else Some (m, i)
  end.

(** Lines 9-77 of the constructor: the fields, the zeroed allocation, the
    chunk skeleton and the block headers.  Returns the object as it stands
    before the background colour is registered, and the final [i] of the
    header loop. *)
Definition prime (fuel : nat) (w h : Z) (d : option Z) (bg : option red_arg)
  : option (result (PNGlib * Z)) :=
  let st := fields w h d bg in
  match BUF.alloc (Z.of_nat (length BUF.PNG_HEAD) + buffer_size st) with
  | Throw e => Some (Throw e)
  | Ok m =>
      (* [Buffer.from(arrayBuffer, byteOffset, length)] with a negative length *)
      if buffer_size st <? 0 then Some (Throw RangeError)
      else
        match block_headers fuel st (init_chunks st m) 0 with
        | None => None
        | Some (m, n) => Some (Ok (set_raw st m, n))
        end
  end.

(** The number of block headers the constructor writes. *)
Definition header_count (fuel : nat) (w h : Z) (d : option Z) (bg : option red_arg)
  : option Z :=
  match prime fuel w h d bg with
  | Some (Ok (_, n)) => Some n
  | _ => None
  end.

(** [index(x, y)] (lines 84-88). *)
Definition index (st : PNGlib) (x y : Z) : Z :=
  let i := y * (width st + 1) + x + 1 in
  let j := idat_offs st + 8 + 2 + 5 * (i / 0xffff + 1) + i in
  j.

(** The colour key of line 106. *)
Definition color_key (red green blue alpha : Z) : Z :=
  JS.bor (JS.shl (JS.bor (JS.shl (JS.bor (JS.shl alpha 8) red) 8) green) 8) blue.

Definition depth_warning : string :=
  "node-pnglib: depth is not enough, set up it for more".

(** What a method call leaves behind: its result or the error it throws,
    the object, and the lines it sent to [console.warn]. *)
Definition outcome (A : Type) : Type := result A * PNGlib * list string.

Section WithParser.

(** The colour-name parser [./rgba]: the four components, or nothing for
    a name it does not know. *)
Variable RGBA : string → option (Z * Z * Z * Z).

(** Lines 92-104: the components [color] works with.  An argument left
    out is [undefined]: it counts as 0 under [|] and stores 0 in a byte,
    and [undefined >= 0] is false. *)
Definition components (red : red_arg) (green blue alpha : option Z)
  : result (Z * Z * Z * Z) :=
  match red with
  | Name s =>
      match RGBA s with
      | None => Throw InvalidColor
      | Some rgba => Ok rgba
      end
  | Num r =>
      let alpha :=
        match alpha with
        | Some a => if 0 <=? a then a else 255
        | None => 255
        end in
      Ok (r, default 0 green, default 0 blue, alpha)
  end.

(** Lines 114-121: a new palette entry at [this.pindex]. *)
Definition register (st : PNGlib) (color red green blue alpha : Z) : PNGlib :=
  let ndx := plte_offs st + 8 + 3 * pindex st in
  let buffer := this_buffer st in
  let m := view_set buffer (raw st) (ndx + 0) red in
  let m := view_set buffer m (ndx + 1) green in
  let m := view_set buffer m (ndx + 2) blue in
  let m := view_set buffer m (trns_offs st + 8 + pindex st) alpha in
  set_palette (set_raw st m) (<[color := pindex st]> (palette st)) (pindex st + 1).

(** [color(red, green, blue, alpha)] (lines 91-124).  It returns the
    number that the palette holds for the colour (line 123), or, when the
    palette is full, the constant [BUF.CODE_NUL] itself (line 111), which
    is a byte sequence and no number. *)
Definition color (st : PNGlib) (red : red_arg) (green blue alpha : option Z)
  : outcome JS.value :=
  match components red green blue alpha with
  | Throw e => (Throw e, st, [])
  | Ok (red, green, blue, alpha) =>
      let color := color_key red green blue alpha in
      match palette st !! color with
      | Some ndx => (Ok (JS.Number ndx), st, [])
      | None =>
          if pindex st =? depth st
          then (Ok (JS.Bytes BUF.CODE_NUL), st, [depth_warning])
          else
            let st' := register st color red green blue alpha in
            (Ok (JS.Number (default 0 (palette st' !! color))), st', [])
      end
  end.

Definition Qltb (a b : Q) : bool := negb (Qle_bool b a).

(** [setPixel(x, y, rgba)] (lines 126-129); the coordinates are any
    finite numbers, [Math.floor] makes them integers.  The store of line
    128 takes whatever [color] returned, a number or not. *)
Definition setPixel (st : PNGlib) (x y : Q) (rgba : red_arg) : outcome unit :=
  if Qltb x 0 || Qltb y 0
     || Qle_bool (inject_Z (width st)) x || Qle_bool (inject_Z (height st)) y
  then (Ok tt, st, [])
  else
    let j := index st (Qfloor x) (Qfloor y) in
    match color st rgba None None None with
    | (Throw e, st', log) => (Throw e, st', log)
    | (Ok ndx, st', log) =>
        (Ok tt,
         set_raw st' (view_set (this_buffer st') (raw st') j (JS.ToElement ndx)),
         log)
    end.

(** Lines 79-80: [if (this.bg) this.color(this.bg); else this.color(0, 0,
    0, 0)], the arguments of the call. *)
Definition bg_call (bg : option red_arg)
  : red_arg * option Z * option Z * option Z :=
  let transparent := (Num 0, Some 0, Some 0, Some 0) in
  match bg with
  | Some (Name s) =>
      if JS.truthy_string s then (Name s, None, None, None) else transparent
  | Some (Num n) =>
      if JS.truthy_number n then (Num n, None, None, None) else transparent
  | None => transparent
  end.

(** The constructor (lines 8-81): the primed object, then the background
    colour.  [None]: the block-header loop did not finish within the
    fuel. *)
Definition constructor (fuel : nat) (w h : Z) (d : option Z) (bg : option red_arg)
  : option (result PNGlib * list string) :=
  match prime fuel w h d bg with
  | None => None
  | Some (Throw e) => Some (Throw e, [])
  | Some (Ok (st, _)) =>
      let '(red, green, blue, alpha) := bg_call bg in
      let '(r, st, log) := color st red green blue alpha in
      match r with
      | Ok _ => Some (Ok st, log)
      | Throw e => Some (Throw e, log)
      end
  end.

End WithParser.

(** ** The finalizer *)

Definition BASE : Z := 65521.
Definition NMAX : Z := 5552.

(** The Adler-32 accumulators [s1], [s2] and the countdown [n]. *)
Definition adler := (JS.num * JS.num * Z)%type.

(** The address the Adler-32 walk loads from (lines 151, 154-155). *)
Definition deflate_addr (st : PNGlib) (x y : Z) : Z :=
  let baseOffset := idat_offs st + 8 + 2 + 5 in
  let _i3 := y * (width st + 1) + x + 1 in
  baseOffset * (_i3 / 0xffff + 1) + _i3.

(** The body of the inner loop (lines 154-161). *)
Definition adler_step (st : PNGlib) (k : adler) (x y : Z) : adler :=
  let '(s1, s2, n) := k in
  let s1 := JS.add s1 (view_get (this_buffer st) (raw st) (deflate_addr st x y)) in
  let s2 := JS.add s2 s1 in
  if n - 1 =? 0
  then (JS.rem s1 BASE, JS.rem s2 BASE, NMAX)
  else (s1, s2, n - 1).

(** [for (var x = -1; x < this.width; x++)]: [count] more columns from [x]. *)
Fixpoint adler_row (st : PNGlib) (count : nat) (x y : Z) (k : adler) : adler :=
  match count with
  | O => k
  | S count' => adler_row st count' (x + 1) y (adler_step st k x y)
  end.

(** [for (var y = 0; y < this.height; y++)]: [count] more rows from [y]. *)
Fixpoint adler_rows (st : PNGlib) (count : nat) (y : Z) (k : adler) : adler :=
  match count with
  | O => k
  | S count' =>
      adler_rows st count' (y + 1)
        (adler_row st (Z.to_nat (width st + 1)) (-1) y k)
  end.

(** The packed checksum of lines 147-167. *)
Definition adler32 (st : PNGlib) : Z :=
  let '(s1, s2, _) := adler_rows st (Z.to_nat (height st)) 0 (Some 1, Some 0, NMAX) in
  let s1 := JS.rem s1 BASE in
  let s2 := JS.rem s2 BASE in
  JS.bor (JS.shl (JS.ToInt32_num s2) 16) (JS.ToInt32_num s1).

(** [deflate()] (lines 142-177): returns [this.raw] and leaves the object
    with the checksums written. *)
Definition deflate (st : PNGlib) : list Z * PNGlib :=
  let buffer := this_buffer st in
  let offset := idat_offs st + idat_size st - 8 in
  let m := (utils.write4 buffer (raw st) offset (adler32 st)).1 in
  let m := utils.crc32 buffer m (ihdr_offs st) (ihdr_size st) in
  let m := utils.crc32 buffer m (plte_offs st) (plte_size st) in
  let m := utils.crc32 buffer m (trns_offs st) (trns_size st) in
  let m := utils.crc32 buffer m (idat_offs st) (idat_size st) in
  let m := utils.crc32 buffer m (iend_offs st) (iend_size st) in
  (m, set_raw st m).

(** [getBuffer()] *)
Definition getBuffer (st : PNGlib) : list Z * PNGlib := deflate st.

Section WithBase64.

(** [Buffer.prototype.toString('base64')], a pure function of the bytes. *)
Variable base64 : list Z → string.

(** [getBase64()] *)
Definition getBase64 (st : PNGlib) : string * PNGlib :=
  let '(b, st') := deflate st in (base64 b, st').

End WithBase64.

(** ** Reachable objects *)

(** The fields fixed at construction: the object with its store, palette
    and counter blanked. *)
Definition lay (st : PNGlib) : PNGlib := set_palette (set_raw st []) ∅ 0.

(** The chunk geometry of lines 15-31, as a property of the fields. *)
Definition well_laid (st : PNGlib) : Prop :=
  pix_size st = height st * (width st + 1) ∧
  data_size st = 2 + pix_size st + 5 * ((65534 + pix_size st) / 65535) + 4 ∧
  ihdr_offs st = 0 ∧ ihdr_size st = 25 ∧
  plte_offs st = 25 ∧ plte_size st = 12 + 3 * depth st ∧
  trns_offs st = plte_offs st + plte_size st ∧ trns_size st = 12 + depth st ∧
  idat_offs st = trns_offs st + trns_size st ∧ idat_size st = 12 + data_size st ∧
  iend_offs st = idat_offs st + idat_size st ∧ iend_size st = 12 ∧
  buffer_size st = iend_offs st + iend_size st ∧
  depth st ≠ 0.

Section Reachable.

Variable RGBA : string → option (Z * Z * Z * Z).

(** The objects a caller can hold: a constructed image after any number
    of [color], [setPixel] and [getBuffer] / [getBase64] calls (a call
    that throws leaves the object as it stood when it threw). *)
Inductive reachable : PNGlib → Prop :=
| reach_new fuel w h d bg st log :
    constructor RGBA fuel w h d bg = Some (Ok st, log) → reachable st
| reach_color st red green blue alpha r st' log :
    reachable st →
    color RGBA st red green blue alpha = (r, st', log) → reachable st'
| reach_setPixel st x y rgba r st' log :
    reachable st →
    setPixel RGBA st x y rgba = (r, st', log) → reachable st'
| reach_deflate st b st' :
    reachable st → deflate st = (b, st') → reachable st'.

(** The background colour as the constructor registers it. *)
Definition bg_components (bgc : option red_arg) : result (Z * Z * Z * Z) :=
  let '(red, green, blue, alpha) := bg_call bgc in
  components RGBA red green blue alpha.

Definition background (st : PNGlib) : result (Z * Z * Z * Z) :=
  bg_components (bg st).

(** What every reachable object satisfies. *)
Definition inv (st : PNGlib) : Prop :=
  well_laid st ∧
  Z.of_nat (length (raw st)) = 8 + buffer_size st ∧
  0 <= buffer_size st ∧
  pindex st = Z.of_nat (size (palette st)) ∧
  (∀ k v, palette st !! k = Some v → 0 <= v < pindex st) ∧
  (1 <= depth st → pindex st <= depth st) ∧
  ∃ r g b a,
    background st = Ok (r, g, b, a) ∧
    palette st !! color_key r g b a = Some 0 ∧
    (∀ k, palette st !! k = Some 0 → k = color_key r g b a) ∧
    (1 <= depth st → 0 <= pix_size st →
     view_get (this_buffer st) (raw st) (plte_offs st + 8) = Some (JS.ToUint8 r) ∧
     view_get (this_buffer st) (raw st) (plte_offs st + 9) = Some (JS.ToUint8 g) ∧
     view_get (this_buffer st) (raw st) (plte_offs st + 10) = Some (JS.ToUint8 b) ∧
     view_get (this_buffer st) (raw st) (trns_offs st + 8) = Some (JS.ToUint8 a)).

End Reachable.

(** ** The finalizer's fields *)

(** The 4-byte field at [offs]. *)
Definition in_field (offs j : Z) : Prop := offs <= j < offs + 4.

(** The six fields the finalizer writes: the Adler-32 trailer of the zlib
    stream and the CRC-32 of each chunk. *)
Definition adler_field (st : PNGlib) : Z := idat_offs st + idat_size st - 8.

Definition crc_field (offs size : Z) : Z := offs + size - 4.

Definition checksum_field (st : PNGlib) (j : Z) : Prop :=
  in_field (adler_field st) j ∨
  in_field (crc_field (ihdr_offs st) (ihdr_size st)) j ∨
  in_field (crc_field (plte_offs st) (plte_size st)) j ∨
  in_field (crc_field (trns_offs st) (trns_size st)) j ∨
  in_field (crc_field (idat_offs st) (idat_size st)) j ∨
  in_field (crc_field (iend_offs st) (iend_size st)) j.

(** The six stores of [deflate] (lines 166-174) for a given checksum [a]
    of the pixel stream. *)
Definition finalize (st : PNGlib) (a : Z) (m : list Z) : list Z :=
  let buffer := this_buffer st in
  let m := (utils.write4 buffer m (idat_offs st + idat_size st - 8) a).1 in
  let m := utils.crc32 buffer m (ihdr_offs st) (ihdr_size st) in
  let m := utils.crc32 buffer m (plte_offs st) (plte_size st) in
  let m := utils.crc32 buffer m (trns_offs st) (trns_size st) in
  let m := utils.crc32 buffer m (idat_offs st) (idat_size st) in
  utils.crc32 buffer m (iend_offs st) (iend_size st).

(** The store [m] holds the big-endian bytes of [x] at [offs]. *)
Definition holds4 (v : view) (m : list Z) (offs x : Z) : Prop :=
  ∀ k b, utils.be32 x !! k = Some b →
         view_get v m (offs + Z.of_nat k) = Some (JS.ToUint8 b).

(** ** Reading the block headers back *)

(** The five bytes at the place of the [i]-th block header. *)
Definition read_block_header (st : PNGlib) (i : Z) : list (option Z) :=
  map (fun k => view_get (this_buffer st) (raw st) (block_header_offs st i + k))
    [0; 1; 2; 3; 4].

(** ** The design document's formulas, in its own words *)

Definition ceil_div (a b : Z) : Z := - ((- a) / b).

(** "framed_size = 2 + pixel_region_size + 5 * ceil((65534 +
    pixel_region_size) / 65535) + 4" *)
Definition spec_framed_size (p : Z) : Z :=
  2 + p + 5 * ceil_div (65534 + p) 65535 + 4.

(** "one stored-block header per 65535-byte segment of the pixel region" *)
Definition spec_block_count (p : Z) : Z := ceil_div p 65535.

(** "1 flag byte (1 = final block, 0 = more follow) + little-endian 16-bit
    length + little-endian 16-bit one's-complement of length", the length
    being 65535 for every block but the last. *)
Definition spec_block_header (p i : Z) : list Z :=
  let final := i =? spec_block_count p - 1 in
  let len := if final then p - 65535 * i else 65535 in
  [if final then 1 else 0;
   Z.land len 255; Z.land (Z.shiftr len 8) 255;
   Z.land (Z.lnot len) 255; Z.land (Z.shiftr (Z.lnot len) 8) 255].

(** ** A parser, an encoder and a few images to run the model on *)

Definition demo_RGBA (s : string) : option (Z * Z * Z * Z) :=
  if String.eqb s "black" then Some (0, 0, 0, 255)
  else if String.eqb s "white" then Some (255, 255, 255, 255)
  else if String.eqb s "red" then Some (255, 0, 0, 255)
  else None.

(** A Base64 encoder (RFC 4648, padded) to run [getBase64] with. *)
Definition base64_alphabet : string :=
  "ABCDEFGHIJKLMNOPQRSTUVWXYZabcdefghijklmnopqrstuvwxyz0123456789+/".

Definition base64_char (k : Z) : Ascii.ascii :=
  match String.get (Z.to_nat k) base64_alphabet with
  | Some c => c
  | None => Ascii.ascii_of_nat 61
  end.

Fixpoint base64_encode (bytes : list Z) : string :=
  match bytes with
  | [] => EmptyString
  | [a] =>
      String (base64_char (a / 4))
        (String (base64_char (a mod 4 * 16)) "==")
  | [a; b] =>
      String (base64_char (a / 4))
        (String (base64_char (a mod 4 * 16 + b / 16))
           (String (base64_char (b mod 16 * 4)) "="))
  | a :: b :: c :: rest =>
      String (base64_char (a / 4))
        (String (base64_char (a mod 4 * 16 + b / 16))
           (String (base64_char (b mod 16 * 4 + c / 64))
              (String (base64_char (c mod 64)) (base64_encode rest))))
  end.

(** The object a successful construction returns ([dflt] otherwise). *)
Definition constructed (o : option (result PNGlib * list string)) (dflt : PNGlib)
  : PNGlib :=
  match o with
  | Some (Ok st, _) => st
  | _ => dflt
  end.

(** A 1x1 image with a palette of one colour, on black. *)
Definition tiny : PNGlib :=
  constructed (constructor demo_RGBA 2 1 1 (Some 1) (Some (Name "black")))
    (fields 1 1 (Some 1) None).

(** The 2x2 image of the design document: two colours, on black. *)
Definition two_by_two : PNGlib :=
  constructed (constructor demo_RGBA 2 2 2 (Some 2) (Some (Name "black")))
    (fields 2 2 (Some 2) None).

(** The 2x2 image with its first pixel painted white. *)
Definition painted : PNGlib :=
  (setPixel demo_RGBA two_by_two 0 0 (Name "white")).1.2.

(** ** Pixel data, palette slots, the skeleton and the reference checksums *)

(** The logical position of column [x] of row [y] in the pixel stream
    (the [i] of [index], the [_i3] of [deflate]); column -1 is the row's
    filter byte. *)
Definition position (st : PNGlib) (x y : Z) : Z := y * (width st + 1) + x + 1.

(** The byte of the pixel stream that [index] addresses. *)
Definition pixel_byte (st : PNGlib) (x y : Z) : option Z :=
  view_get (this_buffer st) (raw st) (index st x y).

(** Palette slot [v] of the PLTE and tRNS chunks holds the colour
    [(r, g, b, a)]. *)
Definition palette_entry (st : PNGlib) (v r g b a : Z) : Prop :=
  view_get (this_buffer st) (raw st) (plte_offs st + 8 + 3 * v) = Some (JS.ToUint8 r) ∧
  view_get (this_buffer st) (raw st) (plte_offs st + 8 + 3 * v + 1) = Some (JS.ToUint8 g) ∧
  view_get (this_buffer st) (raw st) (plte_offs st + 8 + 3 * v + 2) = Some (JS.ToUint8 b) ∧
  view_get (this_buffer st) (raw st) (trns_offs st + 8 + v) = Some (JS.ToUint8 a).

(** The palette numbers its colours without gaps or repetitions, and each
    colour stands in the slot of its number. *)
Definition pal_inv (st : PNGlib) : Prop :=
  (∀ k k' v, palette st !! k = Some v → palette st !! k' = Some v → k = k') ∧
  (∀ v, 0 <= v < pindex st → ∃ k, palette st !! k = Some v) ∧
  (1 <= depth st → 0 <= pix_size st →
   ∀ k v, palette st !! k = Some v →
          ∃ r g b a, k = color_key r g b a ∧ palette_entry st v r g b a).

(** The places the methods store to once the constructor has returned:
    the palette and transparency entries (lines 115-119), the pixels
    (line 128) and the six checksum fields (lines 166-174). *)
Definition palette_place (st : PNGlib) (j : Z) : Prop :=
  plte_offs st + 8 <= j < plte_offs st + 8 + 3 * depth st ∨
  trns_offs st + 8 <= j < trns_offs st + 8 + depth st.

Definition pixel_place (st : PNGlib) (j : Z) : Prop :=
  ∃ x y, 0 <= x < width st ∧ 0 <= y < height st ∧ j = index st x y.

Definition fixed_place (st : PNGlib) (j : Z) : Prop :=
  ¬ palette_place st j ∧ ¬ pixel_place st j ∧ ¬ checksum_field st j.

(** The buffer holds [bytes] from [offs] on. *)
Definition holds (st : PNGlib) (offs : Z) (bytes : list Z) : Prop :=
  ∀ k b, bytes !! k = Some b →
         view_get (this_buffer st) (raw st) (offs + Z.of_nat k) = Some b.

(** What lines 39-61 lay down: the signature; for each chunk the
    big-endian length of its body and its type tag; the IHDR body (width,
    height, bit depth 8, colour type 3, and the zeros of the allocation
    for compression, filter and interlace); the zlib header. *)
Definition skeleton (st : PNGlib) : Prop :=
  take 8 (raw st) = BUF.PNG_HEAD ∧
  holds st (ihdr_offs st)
    (utils.be32 (ihdr_size st - 12) ++ BUF.PNG_IHDR ++
     utils.be32 (width st) ++ utils.be32 (height st) ++ [8; 3; 0; 0; 0]) ∧
  holds st (plte_offs st) (utils.be32 (plte_size st - 12) ++ BUF.PNG_PLTE) ∧
  holds st (trns_offs st) (utils.be32 (trns_size st - 12) ++ BUF.PNG_tRNS) ∧
  holds st (idat_offs st)
    (utils.be32 (idat_size st - 12) ++ BUF.PNG_IDAT ++ [0x78; 0xda]) ∧
  holds st (iend_offs st) (utils.be32 (iend_size st - 12) ++ BUF.PNG_IEND).

(** The CRC-32 field of the chunk at [offs] holds the CRC-32 of the
    chunk's type tag and body as they stand in the buffer. *)
Definition crc_valid (st : PNGlib) (offs size : Z) : Prop :=
  holds4 (this_buffer st) (raw st) (crc_field offs size)
    (utils.crc32_sum
       (utils.region (this_buffer st) (raw st) (offs + 4) (Z.to_nat (size - 8)))).

(** The pixel stream: row by row the filter byte and the pixels, read at
    their places. *)
Definition pixel_row (st : PNGlib) (y : Z) : list Z :=
  (fun x => default 0 (pixel_byte st x y)) <$> seqZ (-1) (width st + 1).

Definition pixel_stream (st : PNGlib) : list Z :=
  concat (pixel_row st <$> seqZ 0 (height st)).

(** Adler-32 as RFC 1950 defines it: [a] is 1 plus the sum of the bytes,
    [b] the sum of the successive values of [a], both modulo 65521; the
    checksum is [b * 65536 + a]. *)
Definition adler_next (ab : Z * Z) (x : Z) : Z * Z :=
  let a := (ab.1 + x) mod 65521 in (a, (ab.2 + a) mod 65521).

Definition adler32_rfc (bytes : list Z) : Z :=
  let ab := fold_left adler_next bytes (1, 0) in
  ab.2 * 65536 + ab.1.

(** Unfolds the geometry of [st] into linear facts for [lia]. *)
Ltac geometry H :=
  let Hp := fresh "Hpix" in
  let Hd := fresh "Hdata" in
  destruct H as (Hp & Hd & ? & ? & ? & ? & ? & ? & ? & ? & ? & ? & ? & ?).

(** ** Int32 arithmetic *)

Lemma ToInt32_small z : - 2 ^ 31 <= z < 2 ^ 31 → JS.ToInt32 z = z.
Proof.
  intros Hz. unfold JS.ToInt32.
  rewrite Z.mod_small; lia.
Qed.

Lemma ToInt32_range z : - 2 ^ 31 <= JS.ToInt32 z < 2 ^ 31.
Proof.
  unfold JS.ToInt32.
  pose proof (Z.mod_pos_bound (z + 2 ^ 31) (2 ^ 32)). lia.
Qed.

Lemma shl_16_small i : 0 <= i <= 32767 → JS.shl i 16 = i * 65536.
Proof.
  intros Hi. unfold JS.shl.
  rewrite (ToInt32_small i) by lia.
  rewrite Z.shiftl_mul_pow2 by lia.
  change (2 ^ 16) with 65536.
  apply ToInt32_small. lia.
Qed.

Lemma shl_2_small i : 0 <= i <= 32767 → JS.shl i 2 = i * 4.
Proof.
  intros Hi. unfold JS.shl.
  rewrite (ToInt32_small i) by lia.
  rewrite Z.shiftl_mul_pow2 by lia.
  change (2 ^ 2) with 4.
  apply ToInt32_small. lia.
Qed.

Lemma shl_upper a n : JS.shl a n <= 2 ^ 31 - 1.
Proof. unfold JS.shl. pose proof (ToInt32_range (Z.shiftl (JS.ToInt32 a) n)). lia. Qed.

(** ** Stores keep their length *)

Lemma view_set_length v m i x : length (view_set v m i x) = length m.
Proof.
  unfold view_set. destruct (_ && _); [apply length_insert | reflexivity].
Qed.

Lemma writeb_length v bytes : ∀ m offs, length (utils.writeb v m offs bytes).1 = length m.
Proof.
  induction bytes as [|b bytes IH]; intros m offs; simpl; [reflexivity|].
  rewrite IH. apply view_set_length.
Qed.

Lemma write4_length v m offs x : length (utils.write4 v m offs x).1 = length m.
Proof. apply writeb_length. Qed.

Lemma write2_length v m offs x : length (utils.write2 v m offs x).1 = length m.
Proof. apply writeb_length. Qed.

Lemma write2lsb_length v m offs x : length (utils.write2lsb v m offs x).1 = length m.
Proof. apply writeb_length. Qed.

Lemma crc32_length v m offs size : length (utils.crc32 v m offs size) = length m.
Proof. apply write4_length. Qed.

Create Rewrite HintDb store_length.
#[global] Hint Rewrite view_set_length writeb_length write4_length
  write2_length write2lsb_length crc32_length : store_length.

Lemma init_chunks_length st m : length (init_chunks st m) = length m.
Proof. unfold init_chunks. cbv zeta. now autorewrite with store_length. Qed.

Lemma block_header_length st m i : length (block_header st m i) = length m.
Proof.
  unfold block_header.
  destruct (if i + 65535 <? pix_size st then _ else _) as [size bits].
  pose proof (writeb_length (this_buffer st) bits m (block_header_offs st i)) as E1.
  destruct (utils.writeb _ m _ _) as [m1 o1].
  pose proof (write2lsb_length (this_buffer st) m1 o1 size) as E2.
  destruct (utils.write2lsb _ m1 _ _) as [m2 o2].
  rewrite write2lsb_length. simpl in E1, E2. congruence.
Qed.

Lemma block_headers_length fuel st : ∀ m i m' n,
  block_headers fuel st m i = Some (m', n) → length m' = length m.
Proof.
  induction fuel as [|fuel IH]; intros m i m' n; simpl; [discriminate|].
  destruct (_ <? _).
  - intros H. apply IH in H. rewrite H. apply block_header_length.
  - intros [= <- _]. reflexivity.
Qed.

(** The header loop ends when the pixel region is below [2^31 - 2^16]
    bytes: it writes [pix_size / 65536 + 1] headers. *)
Lemma block_headers_terminates st fuel : ∀ m i,
  0 <= pix_size st < 2 ^ 31 - 2 ^ 16 →
  0 <= i <= pix_size st / 65536 + 1 →
  pix_size st / 65536 + 1 - i < Z.of_nat fuel →
  ∃ m', block_headers fuel st m i = Some (m', pix_size st / 65536 + 1).
Proof.
  induction fuel as [|fuel IH]; intros m i Hp Hi Hf; [lia|].
  assert (Hq : pix_size st / 65536 < 32767) by (apply Z.div_lt_upper_bound; lia).
  pose proof (Z.mul_div_le (pix_size st) 65536 ltac:(lia)) as Hlo.
  pose proof (Z.mul_succ_div_gt (pix_size st) 65536 ltac:(lia)) as Hhi.
  simpl. rewrite shl_16_small by lia.
  destruct (Z.ltb_spec (i * 65536 - 1) (pix_size st)) as [Hlt|Hge].
  - apply IH; [done| lia | lia].
  - exists m. do 2 f_equal. lia.
Qed.

(** Beyond the Int32 range the guard of the header loop is always true. *)
Lemma block_headers_diverges st fuel : ∀ m i,
  2 ^ 31 - 1 <= pix_size st → block_headers fuel st m i = None.
Proof.
  induction fuel as [|fuel IH]; intros m i Hp; simpl; [reflexivity|].
  pose proof (shl_upper i 16).
  destruct (Z.ltb_spec (JS.shl i 16 - 1) (pix_size st)); [auto | lia].
Qed.

(** ** Loads after stores *)

Lemma view_get_set_ne v m i x j :
  0 <= byteOffset v → i ≠ j → view_get v (view_set v m i x) j = view_get v m j.
Proof.
  intros Hv Hij. unfold view_get, view_set.
  destruct ((0 <=? j) && (j <? byteLength v)) eqn:Hj; [|reflexivity].
  destruct ((0 <=? i) && (i <? byteLength v)) eqn:Hi; [|reflexivity].
  apply andb_true_iff in Hi as [Hi _], Hj as [Hj _].
  apply list_lookup_insert_ne. lia.
Qed.

Lemma view_get_set_eq v m i x :
  0 <= i < byteLength v → 0 <= byteOffset v →
  byteOffset v + i < Z.of_nat (length m) →
  view_get v (view_set v m i x) i = Some (JS.ToUint8 x).
Proof.
  intros Hi Hv Hm. unfold view_get, view_set.
  replace ((0 <=? i) && (i <? byteLength v)) with true
    by (symmetry; apply andb_true_iff; lia).
  apply list_lookup_insert_eq. lia.
Qed.

Lemma view_set_same v m i x :
  view_get v m i = Some (JS.ToUint8 x) → view_set v m i x = m.
Proof.
  unfold view_get, view_set.
  destruct (_ && _); [apply list_insert_id | reflexivity].
Qed.

Lemma view_get_Some v m i x :
  view_get v m i = Some x → 0 <= i < byteLength v.
Proof.
  unfold view_get. destruct (_ && _) eqn:Hi; [|discriminate].
  apply andb_true_iff in Hi. lia.
Qed.

Lemma view_get_outside v m i : byteLength v <= i → view_get v m i = None.
Proof.
  intros Hi. unfold view_get.
  replace (i <? byteLength v) with false by (symmetry; apply Z.ltb_ge; lia).
  now rewrite andb_false_r.
Qed.

Lemma view_get_inside v m i :
  0 <= i < byteLength v → 0 <= byteOffset v →
  byteOffset v + i < Z.of_nat (length m) → is_Some (view_get v m i).
Proof.
  intros Hi Hv Hm. unfold view_get.
  replace ((0 <=? i) && (i <? byteLength v)) with true
    by (symmetry; apply andb_true_iff; lia).
  apply lookup_lt_is_Some. lia.
Qed.

Lemma writeb_get_other v bytes : ∀ m offs j,
  0 <= byteOffset v →
  j < offs ∨ offs + Z.of_nat (length bytes) <= j →
  view_get v (utils.writeb v m offs bytes).1 j = view_get v m j.
Proof.
  induction bytes as [|b bytes IH]; intros m offs j Hv Hj; simpl; [reflexivity|].
  simpl length in Hj.
  rewrite IH by lia. apply view_get_set_ne; lia.
Qed.

Lemma writeb_get_in v bytes : ∀ m offs k b,
  0 <= byteOffset v → 0 <= offs →
  offs + Z.of_nat (length bytes) <= byteLength v →
  byteOffset v + byteLength v <= Z.of_nat (length m) →
  bytes !! k = Some b →
  view_get v (utils.writeb v m offs bytes).1 (offs + Z.of_nat k) = Some (JS.ToUint8 b).
Proof.
  induction bytes as [|b0 bytes IH]; intros m offs k b Hv Ho Hlen Hm Hk;
    [discriminate|].
  simpl length in Hlen. simpl.
  destruct k as [|k]; simpl in Hk.
  - injection Hk as ->.
    rewrite writeb_get_other by lia.
    replace (offs + Z.of_nat 0) with offs by lia.
    apply view_get_set_eq; lia.
  - replace (offs + Z.of_nat (S k)) with (offs + 1 + Z.of_nat k) by lia.
    apply IH; try lia; [rewrite view_set_length; lia | exact Hk].
Qed.

Lemma writeb_same v bytes : ∀ m offs,
  (∀ k b, bytes !! k = Some b →
          view_get v m (offs + Z.of_nat k) = Some (JS.ToUint8 b)) →
  (utils.writeb v m offs bytes).1 = m.
Proof.
  induction bytes as [|b0 bytes IH]; intros m offs H; simpl; [reflexivity|].
  assert (H0 : view_set v m offs b0 = m).
  { apply view_set_same. specialize (H 0%nat b0 eq_refl).
    now replace (offs + Z.of_nat 0) with offs in H by lia. }
  rewrite H0. apply IH. intros k b Hk.
  specialize (H (S k) b Hk).
  now replace (offs + 1 + Z.of_nat k) with (offs + Z.of_nat (S k)) by lia.
Qed.

Lemma region_ext v m m' from n :
  (∀ j, from <= j < from + Z.of_nat n → view_get v m' j = view_get v m j) →
  utils.region v m' from n = utils.region v m from n.
Proof.
  intros H. unfold utils.region. apply map_ext_in.
  intros k Hk. apply in_seq in Hk. rewrite H by lia. reflexivity.
Qed.

(** ** The fixed fields *)

Lemma lay_set_raw st m : lay (set_raw st m) = lay st.
Proof. reflexivity. Qed.

Lemma lay_set_palette st p n : lay (set_palette st p n) = lay st.
Proof. reflexivity. Qed.

Lemma lay_fields w h d bg : lay (fields w h d bg) = fields w h d bg.
Proof. reflexivity. Qed.

Lemma lay_view st st' : lay st' = lay st → this_buffer st' = this_buffer st.
Proof.
  intros H. unfold this_buffer.
  pose proof (f_equal buffer_size H) as E. simpl in E. now rewrite E.
Qed.

Lemma well_laid_lay st st' : lay st' = lay st → well_laid st → well_laid st'.
Proof.
  intros H. destruct st, st'. unfold lay, well_laid in *. simpl in *.
  injection H as -> -> -> -> -> -> -> -> -> -> -> -> -> -> -> -> ->.
  exact id.
Qed.

Lemma well_laid_fields w h d bg : well_laid (fields w h d bg).
Proof.
  unfold well_laid, fields. simpl.
  repeat split; try lia.
  destruct d as [[| |]|]; lia.
Qed.

Section Color.

Variable RGBA : string → option (Z * Z * Z * Z).

Lemma palette_register st c r g b a :
  palette (register st c r g b a) = <[c := pindex st]> (palette st).
Proof. reflexivity. Qed.

Lemma pindex_register st c r g b a :
  pindex (register st c r g b a) = pindex st + 1.
Proof. reflexivity. Qed.

Lemma color_throw st red green blue alpha e :
  components RGBA red green blue alpha = Throw e →
  color RGBA st red green blue alpha = (Throw e, st, []).
Proof. intros H. unfold color. now rewrite H. Qed.

Lemma color_known st red green blue alpha r g b a ndx :
  components RGBA red green blue alpha = Ok (r, g, b, a) →
  palette st !! color_key r g b a = Some ndx →
  color RGBA st red green blue alpha = (Ok (JS.Number ndx), st, []).
Proof. intros H Hp. unfold color. rewrite H. cbv zeta. now rewrite Hp. Qed.

Lemma color_full st red green blue alpha r g b a :
  components RGBA red green blue alpha = Ok (r, g, b, a) →
  palette st !! color_key r g b a = None →
  pindex st = depth st →
  color RGBA st red green blue alpha
  = (Ok (JS.Bytes BUF.CODE_NUL), st, [depth_warning]).
Proof.
  intros H Hp Hd. unfold color. rewrite H. cbv zeta. rewrite Hp.
  now rewrite (proj2 (Z.eqb_eq _ _) Hd).
Qed.

Lemma color_fresh st red green blue alpha r g b a :
  components RGBA red green blue alpha = Ok (r, g, b, a) →
  palette st !! color_key r g b a = None →
  pindex st ≠ depth st →
  color RGBA st red green blue alpha
  = (Ok (JS.Number (pindex st)), register st (color_key r g b a) r g b a, []).
Proof.
  intros H Hp Hd. unfold color. rewrite H. cbv zeta. rewrite Hp.
  rewrite (proj2 (Z.eqb_neq _ _) Hd).
  rewrite palette_register, lookup_insert_eq. reflexivity.
Qed.

(** The four ways a call of [color] can go. *)
Lemma color_cases st red green blue alpha :
  (∃ e, components RGBA red green blue alpha = Throw e ∧
        color RGBA st red green blue alpha = (Throw e, st, [])) ∨
  (∃ r g b a, components RGBA red green blue alpha = Ok (r, g, b, a) ∧
     ((∃ ndx, palette st !! color_key r g b a = Some ndx ∧
              color RGBA st red green blue alpha = (Ok (JS.Number ndx), st, [])) ∨
      (palette st !! color_key r g b a = None ∧ pindex st = depth st ∧
       color RGBA st red green blue alpha
       = (Ok (JS.Bytes BUF.CODE_NUL), st, [depth_warning])) ∨
      (palette st !! color_key r g b a = None ∧ pindex st ≠ depth st ∧
       color RGBA st red green blue alpha
       = (Ok (JS.Number (pindex st)), register st (color_key r g b a) r g b a, [])))).
Proof.
  destruct (components RGBA red green blue alpha) as [[[[r g] b] a]|e] eqn:H.
  - right. exists r, g, b, a. split; [reflexivity|].
    destruct (palette st !! color_key r g b a) as [ndx|] eqn:Hp.
    + left. exists ndx. eauto using color_known.
    + destruct (Z.eq_dec (pindex st) (depth st)).
      * right; left. eauto using color_full.
      * right; right. eauto using color_fresh.
  - left. exists e. eauto using color_throw.
Qed.

Lemma lay_register st c r g b a : lay (register st c r g b a) = lay st.
Proof. reflexivity. Qed.

Lemma color_lay st red green blue alpha res st' log :
  color RGBA st red green blue alpha = (res, st', log) → lay st' = lay st.
Proof.
  destruct (color_cases st red green blue alpha)
    as [(e & _ & ->)|(r & g & b & a & _ & [(ndx & _ & ->)|[(_ & _ & ->)|(_ & _ & ->)]])];
    intros [= _ <- _]; reflexivity.
Qed.

Lemma setPixel_lay st x y rgba res st' log :
  setPixel RGBA st x y rgba = (res, st', log) → lay st' = lay st.
Proof.
  unfold setPixel. destruct (_ || _).
  - intros [= _ <- _]. reflexivity.
  - destruct (color RGBA st rgba None None None) as [[[ndx|e] st1] log1] eqn:Hc;
      apply color_lay in Hc; intros [= _ <- _]; [rewrite lay_set_raw|]; exact Hc.
Qed.

End Color.

Lemma deflate_lay st b st' : deflate st = (b, st') → lay st' = lay st.
Proof. unfold deflate. intros [= _ <-]. reflexivity. Qed.

Lemma deflate_length st : length (deflate st).1 = length (raw st).
Proof. unfold deflate. cbn [fst]. now autorewrite with store_length. Qed.

(** ** Geometry of a well laid out image *)

Lemma blocks_nonneg p : 0 <= p → 0 <= (65534 + p) / 65535.
Proof. intros Hp. apply Z.div_pos; lia. Qed.

Lemma register_length st c r g b a :
  length (raw (register st c r g b a)) = length (raw st).
Proof. unfold register. simpl raw. now rewrite !view_set_length. Qed.

Lemma register_get_other st c r g b a j :
  j ≠ plte_offs st + 8 + 3 * pindex st + 0 →
  j ≠ plte_offs st + 8 + 3 * pindex st + 1 →
  j ≠ plte_offs st + 8 + 3 * pindex st + 2 →
  j ≠ trns_offs st + 8 + pindex st →
  view_get (this_buffer st) (raw (register st c r g b a)) j
  = view_get (this_buffer st) (raw st) j.
Proof.
  intros H0 H1 H2 H3. unfold register. simpl raw.
  rewrite !view_get_set_ne; simpl; auto; lia.
Qed.

Lemma register_get_entry st c r g b a :
  well_laid st → 1 <= depth st → 0 <= pix_size st →
  0 <= pindex st < depth st →
  Z.of_nat (length (raw st)) = 8 + buffer_size st →
  let m := raw (register st c r g b a) in
  view_get (this_buffer st) m (plte_offs st + 8 + 3 * pindex st) = Some (JS.ToUint8 r) ∧
  view_get (this_buffer st) m (plte_offs st + 8 + 3 * pindex st + 1) = Some (JS.ToUint8 g) ∧
  view_get (this_buffer st) m (plte_offs st + 8 + 3 * pindex st + 2) = Some (JS.ToUint8 b) ∧
  view_get (this_buffer st) m (trns_offs st + 8 + pindex st) = Some (JS.ToUint8 a).
Proof.
  intros Hw Hd Hp Hi Hlen m. subst m.
  pose proof (blocks_nonneg _ Hp) as Hb. geometry Hw.
  unfold register. simpl raw.
  replace (plte_offs st + 8 + 3 * pindex st + 0)
    with (plte_offs st + 8 + 3 * pindex st) by lia.
  repeat split.
  - rewrite !view_get_set_ne by (simpl; lia).
    apply view_get_set_eq; simpl; lia.
  - rewrite !view_get_set_ne by (simpl; lia).
    apply view_get_set_eq; rewrite ?view_set_length; simpl; lia.
  - rewrite !view_get_set_ne by (simpl; lia).
    apply view_get_set_eq; rewrite ?view_set_length; simpl; lia.
  - apply view_get_set_eq; rewrite ?view_set_length; simpl; lia.
Qed.

(** ** What the finalizer leaves alone *)

Lemma write4_get_other v m offs x j :
  0 <= byteOffset v → ¬ in_field offs j →
  view_get v (utils.write4 v m offs x).1 j = view_get v m j.
Proof.
  intros Hv Hj. unfold in_field in Hj.
  apply writeb_get_other; [exact Hv | simpl; lia].
Qed.

Lemma crc32_get_other v m offs size j :
  0 <= byteOffset v → ¬ in_field (crc_field offs size) j →
  view_get v (utils.crc32 v m offs size) j = view_get v m j.
Proof. intros Hv Hj. now apply write4_get_other. Qed.

Lemma deflate_get_other st j :
  ¬ checksum_field st j →
  view_get (this_buffer st) (deflate st).1 j = view_get (this_buffer st) (raw st) j.
Proof.
  intros Hj. unfold checksum_field in Hj. unfold deflate. simpl fst.
  rewrite !crc32_get_other by (simpl; tauto || lia).
  apply write4_get_other; [simpl; lia | unfold adler_field in Hj; tauto].
Qed.

(** ** The invariant of reachable objects *)

Lemma setPixel_guard (w h : Z) (x y : Q) :
  Qltb x 0 || Qltb y 0 || Qle_bool (inject_Z w) x || Qle_bool (inject_Z h) y = false →
  0 <= Qfloor x < w ∧ 0 <= Qfloor y < h.
Proof.
  intros H.
  apply orb_false_iff in H as [H Hh]. apply orb_false_iff in H as [H Hw].
  apply orb_false_iff in H as [Hx Hy].
  unfold Qltb in Hx, Hy. apply negb_false_iff in Hx, Hy.
  apply Qle_bool_iff in Hx, Hy.
  assert (Hw' : (x < inject_Z w)%Q).
  { apply Qnot_le_lt. intros Hc. apply Qle_bool_iff in Hc. congruence. }
  assert (Hh' : (y < inject_Z h)%Q).
  { apply Qnot_le_lt. intros Hc. apply Qle_bool_iff in Hc. congruence. }
  pose proof (Qfloor_resp_le _ _ Hx) as Hx0.
  pose proof (Qfloor_resp_le _ _ Hy) as Hy0.
  change (Qfloor 0) with 0 in Hx0, Hy0.
  pose proof (Qle_lt_trans _ _ _ (Qfloor_le x) Hw') as Hxw.
  pose proof (Qle_lt_trans _ _ _ (Qfloor_le y) Hh') as Hyh.
  rewrite <- Zlt_Qlt in Hxw, Hyh. lia.
Qed.

Lemma index_lower st x y :
  0 <= x < width st → 0 <= y → idat_offs st + 16 <= index st x y.
Proof.
  intros Hx Hy. unfold index. cbv zeta.
  assert (Hi : 1 <= y * (width st + 1) + x + 1) by nia.
  pose proof (Z.div_pos (y * (width st + 1) + x + 1) 65535 ltac:(lia) ltac:(lia)).
  lia.
Qed.

Section Invariant.

Variable RGBA : string → option (Z * Z * Z * Z).

Lemma background_lay st st' : lay st' = lay st → background RGBA st' = background RGBA st.
Proof.
  intros H. unfold background.
  pose proof (f_equal bg H) as E. simpl in E. now rewrite E.
Qed.

(** Any change of the store that keeps its length and the four bytes of
    palette entry 0 keeps the invariant. *)
Lemma inv_set_raw st m :
  inv RGBA st → length m = length (raw st) →
  (1 <= depth st → 0 <= pix_size st →
   ∀ j, j = plte_offs st + 8 ∨ j = plte_offs st + 9 ∨ j = plte_offs st + 10 ∨
        j = trns_offs st + 8 →
        view_get (this_buffer st) m j = view_get (this_buffer st) (raw st) j) →
  inv RGBA (set_raw st m).
Proof.
  intros (Hw & Hlen & Hb & Hsz & Hv & Hle & r & g & b & a & Hbg & H0 & Huniq & Hbytes) Hm Hkeep.
  split; [exact Hw|]. split; [simpl; lia|]. split; [exact Hb|].
  split; [exact Hsz|]. split; [exact Hv|]. split; [exact Hle|].
  exists r, g, b, a. split; [exact Hbg|]. split; [exact H0|]. split; [exact Huniq|].
  intros Hd Hp. specialize (Hbytes Hd Hp). specialize (Hkeep Hd Hp).
  change (this_buffer (set_raw st m)) with (this_buffer st).
  change (raw (set_raw st m)) with m.
  change (plte_offs (set_raw st m)) with (plte_offs st).
  change (trns_offs (set_raw st m)) with (trns_offs st).
  rewrite !Hkeep by tauto. exact Hbytes.
Qed.

Lemma inv_register st r g b a :
  inv RGBA st → palette st !! color_key r g b a = None → pindex st ≠ depth st →
  inv RGBA (register st (color_key r g b a) r g b a).
Proof.
  intros (Hw & Hlen & Hb & Hsz & Hv & Hle & r0 & g0 & b0 & a0 & Hbg & H0 & Huniq & Hbytes)
    Hnew Hne.
  pose proof (Hv _ _ H0) as Hpos.
  assert (Hkey : color_key r g b a ≠ color_key r0 g0 b0 a0) by congruence.
  split; [exact (well_laid_lay _ _ (lay_register _ _ _ _ _ _) Hw)|].
  split; [rewrite register_length; exact Hlen|].
  split; [exact Hb|].
  split.
  { rewrite pindex_register, palette_register.
    rewrite map_size_insert_None by exact Hnew. lia. }
  split.
  { intros k v. rewrite pindex_register, palette_register.
    destruct (decide (color_key r g b a = k)) as [->|Hk].
    - rewrite lookup_insert_eq. intros [= <-]. lia.
    - rewrite lookup_insert_ne by exact Hk. intros Hkv.
      specialize (Hv _ _ Hkv). lia. }
  split.
  { intros Hd. rewrite pindex_register.
    change (depth (register st (color_key r g b a) r g b a)) with (depth st) in *.
    specialize (Hle Hd). lia. }
  exists r0, g0, b0, a0.
  split; [exact Hbg|].
  split; [rewrite palette_register, lookup_insert_ne by exact Hkey; exact H0|].
  split.
  { intros k. rewrite palette_register.
    destruct (decide (color_key r g b a = k)) as [->|Hk].
    - rewrite lookup_insert_eq. intros [= E]. lia.
    - rewrite lookup_insert_ne by exact Hk. apply Huniq. }
  intros Hd Hp.
  change (depth (register st (color_key r g b a) r g b a)) with (depth st) in Hd.
  change (pix_size (register st (color_key r g b a) r g b a)) with (pix_size st) in Hp.
  specialize (Hbytes Hd Hp). specialize (Hle Hd).
  change (this_buffer (register st (color_key r g b a) r g b a)) with (this_buffer st).
  change (plte_offs (register st (color_key r g b a) r g b a)) with (plte_offs st).
  change (trns_offs (register st (color_key r g b a) r g b a)) with (trns_offs st).
  geometry Hw.
  rewrite !register_get_other by lia. exact Hbytes.
Qed.

Lemma inv_color st red green blue alpha res st' log :
  inv RGBA st → color RGBA st red green blue alpha = (res, st', log) → inv RGBA st'.
Proof.
  intros Hinv.
  destruct (color_cases RGBA st red green blue alpha)
    as [(e & _ & ->)|(r & g & b & a & _ & [(ndx & _ & ->)|[(_ & _ & ->)|(Hn & Hd & ->)]])];
    intros [= _ <- _]; auto using inv_register.
Qed.

Lemma inv_setPixel st x y rgba res st' log :
  inv RGBA st → setPixel RGBA st x y rgba = (res, st', log) → inv RGBA st'.
Proof.
  intros Hinv. unfold setPixel.
  destruct (_ || _) eqn:Hguard.
  - intros [= _ <- _]. exact Hinv.
  - apply setPixel_guard in Hguard as [Hx Hy].
    destruct (color RGBA st rgba None None None) as [[[ndx|e] st1] log1] eqn:Hc;
      pose proof (color_lay _ _ _ _ _ _ _ _ _ Hc) as Hlay;
      apply (inv_color _ _ _ _ _ _ _ _ Hinv) in Hc;
      intros [= _ <- _]; [|exact Hc].
    apply inv_set_raw; [exact Hc | apply view_set_length |].
    intros Hd Hp j Hj.
    pose proof (index_lower st _ _ Hx (proj1 Hy)) as Hlow.
    destruct Hc as (Hw & _). 
    pose proof (f_equal idat_offs Hlay) as E1. simpl in E1.
    geometry Hw.
    apply view_get_set_ne; [simpl; lia | lia].
Qed.

Lemma inv_deflate st b st' :
  inv RGBA st → deflate st = (b, st') → inv RGBA st'.
Proof.
  intros Hinv Hdef.
  assert (Hst' : st' = set_raw st (deflate st).1)
    by (rewrite Hdef; unfold deflate in Hdef; now injection Hdef as <- <-).
  subst st'. apply inv_set_raw; [exact Hinv | apply deflate_length |].
  intros Hd Hp j Hj. apply deflate_get_other.
  destruct Hinv as (Hw & _).
  pose proof (blocks_nonneg _ Hp). geometry Hw.
  unfold checksum_field, in_field, adler_field, crc_field. lia.
Qed.

End Invariant.

(** ** The constructor *)

(** What the first part of the constructor returns, when it returns. *)
Lemma prime_shape fuel w h d bgc st1 n :
  prime fuel w h d bgc = Some (Ok (st1, n)) →
  let st0 := fields w h d bgc in
  ∃ m,
    block_headers fuel st0
      (init_chunks st0
         (replicate (Z.to_nat (Z.of_nat (length BUF.PNG_HEAD) + buffer_size st0)) 0)) 0
    = Some (m, n) ∧
    st1 = set_raw st0 m ∧
    Z.of_nat (length m) = 8 + buffer_size st0 ∧
    0 <= buffer_size st0.
Proof.
  intros Hp st0. revert Hp. unfold prime, BUF.alloc. fold st0.
  destruct (_ + buffer_size st0 <? 0) eqn:Ha; [discriminate|].
  destruct (buffer_size st0 <? 0) eqn:Hb; [discriminate|].
  apply Z.ltb_ge in Hb.
  destruct (block_headers _ _ _ _) as [[m n']|] eqn:Hbh; [|discriminate].
  intros [= <- <-]. exists m.
  split; [reflexivity|]. split; [reflexivity|]. split; [|exact Hb].
  apply block_headers_length in Hbh.
  rewrite init_chunks_length, length_replicate in Hbh.
  change (length BUF.PNG_HEAD) with 8%nat in Hbh. lia.
Qed.

(** It returns whenever the buffer size is not negative, the pixel region
    stays below [2^31 - 2^16] bytes and the fuel covers the header loop,
    which then has written [floor(p / 65536) + 1] headers. *)
Lemma prime_returns fuel w h d bgc :
  0 <= buffer_size (fields w h d bgc) →
  0 <= h * (w + 1) < 2 ^ 31 - 2 ^ 16 →
  h * (w + 1) / 65536 + 1 < Z.of_nat fuel →
  ∃ m, prime fuel w h d bgc
       = Some (Ok (set_raw (fields w h d bgc) m, h * (w + 1) / 65536 + 1)).
Proof.
  intros Hbs Hp Hfuel. unfold prime, BUF.alloc.
  set (st0 := fields w h d bgc) in *.
  assert (Hpix : pix_size st0 = h * (w + 1)) by reflexivity.
  replace (_ + buffer_size st0 <? 0) with false
    by (symmetry; apply Z.ltb_ge; change (length BUF.PNG_HEAD) with 8%nat; lia).
  replace (buffer_size st0 <? 0) with false by (symmetry; apply Z.ltb_ge; lia).
  destruct (block_headers_terminates st0 fuel
              (init_chunks st0
                 (replicate (Z.to_nat (Z.of_nat (length BUF.PNG_HEAD)
                                       + buffer_size st0)) 0)) 0)
    as [m Hm].
  - rewrite Hpix. exact Hp.
  - rewrite Hpix. pose proof (Z.div_pos (h * (w + 1)) 65536 ltac:(lia) ltac:(lia)). lia.
  - rewrite Hpix. lia.
  - rewrite Hm, Hpix. eauto.
Qed.

(** With a pixel region of [2^31 - 1] bytes or more it does not return:
    the guard [(i << 16) - 1 < this.pix_size] holds for every Int32 value
    of [i << 16]. *)
Lemma prime_diverges fuel w h d bgc :
  0 <= buffer_size (fields w h d bgc) → 2 ^ 31 - 1 <= h * (w + 1) →
  prime fuel w h d bgc = None.
Proof.
  intros Hbs Hp. unfold prime, BUF.alloc.
  set (st0 := fields w h d bgc) in *.
  replace (_ + buffer_size st0 <? 0) with false
    by (symmetry; apply Z.ltb_ge; change (length BUF.PNG_HEAD) with 8%nat; lia).
  replace (buffer_size st0 <? 0) with false by (symmetry; apply Z.ltb_ge; lia).
  now rewrite block_headers_diverges.
Qed.

Section Construction.

Variable RGBA : string → option (Z * Z * Z * Z).

(** The object the constructor returns: the primed object with the
    background registered as palette entry 0. *)
Lemma constructor_shape fuel w h d bgc st log :
  constructor RGBA fuel w h d bgc = Some (Ok st, log) →
  ∃ st1 n r g b a,
    prime fuel w h d bgc = Some (Ok (st1, n)) ∧
    bg_components RGBA bgc = Ok (r, g, b, a) ∧
    st = register st1 (color_key r g b a) r g b a ∧
    log = [].
Proof.
  unfold constructor, bg_components.
  destruct (prime fuel w h d bgc) as [[[st1 n]|e]|] eqn:Hprime; [|discriminate..].
  destruct (prime_shape _ _ _ _ _ _ _ Hprime) as (m & _ & -> & _ & _).
  destruct (bg_call bgc) as [[[red green] blue] alpha].
  pose proof (well_laid_fields w h d bgc) as Hw.
  set (st1 := set_raw (fields w h d bgc) m) in *.
  destruct (color_cases RGBA st1 red green blue alpha)
    as [(e & _ & ->)|(r & g & b & a & Hc & [(ndx & Hp & _)|[(_ & Hp & _)|(_ & _ & ->)]])].
  - discriminate.
  - discriminate.
  - exfalso. geometry Hw. change (pindex st1) with 0 in Hp.
    change (depth st1) with (depth (fields w h d bgc)) in Hp. congruence.
  - intros [= <- <-]. exists st1, n, r, g, b, a. auto.
Qed.

(** What the constructor returns, when it returns an object. *)
Lemma constructor_inv fuel w h d bgc st log :
  constructor RGBA fuel w h d bgc = Some (Ok st, log) →
  lay st = fields w h d bgc ∧ pindex st = 1 ∧ inv RGBA st.
Proof.
  intros Hc.
  destruct (constructor_shape _ _ _ _ _ _ _ Hc)
    as (st1 & n & r & g & b & a & Hprime & Hbg & -> & _).
  destruct (prime_shape _ _ _ _ _ _ _ Hprime) as (m & _ & -> & Hlen & Hb).
  pose proof (well_laid_fields w h d bgc) as Hw.
  set (st0 := fields w h d bgc) in *.
  set (st1 := set_raw st0 m) in *.
  assert (Hw1 : well_laid st1) by exact Hw.
  split; [reflexivity|]. split; [reflexivity|].
  split; [exact Hw1|].
  split; [rewrite register_length; exact Hlen|].
  split; [exact Hb|].
  rewrite pindex_register, palette_register.
  change (palette st1) with (∅ : gmap Z Z). change (pindex st1) with 0.
  split; [rewrite map_size_insert_None, map_size_empty by apply lookup_empty; lia|].
  split.
  { intros k v Hkv. apply lookup_insert_Some in Hkv as [[_ <-]|[_ Hkv]]; [lia|].
    now rewrite lookup_empty in Hkv. }
  split; [change (depth (register st1 (color_key r g b a) r g b a)) with (depth st1); lia|].
  exists r, g, b, a.
  split; [exact Hbg|].
  split; [apply lookup_insert_eq|].
  split.
  { intros k Hk. apply lookup_insert_Some in Hk as [[<- _]|[_ Hk]]; [reflexivity|].
    now rewrite lookup_empty in Hk. }
  intros Hd1 Hp1.
  pose proof (register_get_entry st1 (color_key r g b a) r g b a Hw1 Hd1 Hp1) as He.
  change (pindex st1) with 0 in He.
  specialize (He ltac:(change (depth st1) with
                         (depth (register st1 (color_key r g b a) r g b a)); lia) Hlen).
  cbv zeta in He.
  change (this_buffer (register st1 (color_key r g b a) r g b a)) with (this_buffer st1).
  change (plte_offs (register st1 (color_key r g b a) r g b a)) with (plte_offs st1).
  change (trns_offs (register st1 (color_key r g b a) r g b a)) with (trns_offs st1).
  replace (plte_offs st1 + 8 + 3 * 0) with (plte_offs st1 + 8) in He by lia.
  replace (plte_offs st1 + 8 + 1) with (plte_offs st1 + 9) in He by lia.
  replace (plte_offs st1 + 8 + 2) with (plte_offs st1 + 10) in He by lia.
  replace (trns_offs st1 + 8 + 0) with (trns_offs st1 + 8) in He by lia.
  exact He.
Qed.

(** The constructor returns an object whenever the dimensions are not
    negative, the pixel region stays below [2^31 - 2^16] bytes, the fuel
    covers the header loop and the background colour parses. *)
Lemma constructor_returns fuel w h d bgc r g b a :
  0 <= w → 0 <= h → 1 <= depth (fields w h d bgc) →
  h * (w + 1) < 2 ^ 31 - 2 ^ 16 →
  h * (w + 1) / 65536 + 1 < Z.of_nat fuel →
  bg_components RGBA bgc = Ok (r, g, b, a) →
  ∃ st, constructor RGBA fuel w h d bgc = Some (Ok st, []).
Proof.
  intros Hw0 Hh0 Hd0 Hp Hfuel Hc.
  pose proof (well_laid_fields w h d bgc) as Hw.
  assert (Hpix : pix_size (fields w h d bgc) = h * (w + 1)) by reflexivity.
  assert (Hp0 : 0 <= h * (w + 1)) by nia.
  assert (Hnb : 0 <= (65534 + pix_size (fields w h d bgc)) / 65535)
    by (apply blocks_nonneg; rewrite Hpix; exact Hp0).
  assert (Hbs : 0 <= buffer_size (fields w h d bgc)) by (geometry Hw; lia).
  destruct (prime_returns fuel w h d bgc Hbs ltac:(lia) Hfuel) as [m Hm].
  unfold constructor. rewrite Hm.
  unfold bg_components in Hc.
  destruct (bg_call bgc) as [[[red green] blue] alpha].
  rewrite (color_fresh RGBA _ _ _ _ _ _ _ _ _ Hc).
  - eauto.
  - apply lookup_empty.
  - change (pindex (set_raw (fields w h d bgc) m)) with 0.
    change (depth (set_raw (fields w h d bgc) m)) with (depth (fields w h d bgc)). lia.
Qed.

(** And it does not return with a pixel region of [2^31 - 1] bytes or
    more. *)
Lemma constructor_diverges fuel w h d bgc :
  0 <= buffer_size (fields w h d bgc) → 2 ^ 31 - 1 <= h * (w + 1) →
  constructor RGBA fuel w h d bgc = None.
Proof.
  intros Hbs Hp. unfold constructor. now rewrite prime_diverges.
Qed.

Lemma reachable_inv st : reachable RGBA st → inv RGBA st.
Proof.
  induction 1 as [fuel w h d bg st log Hc|st red green blue alpha r st' log _ IH Hc
                 |st x y rgba r st' log _ IH Hs|st b st' _ IH Hd].
  - apply constructor_inv in Hc. tauto.
  - eapply inv_color; eauto.
  - eapply inv_setPixel; eauto.
  - eapply inv_deflate; eauto.
Qed.

End Construction.

(** ** The sample images *)

Lemma tiny_reachable : reachable demo_RGBA tiny.
Proof.
  apply (reach_new demo_RGBA 2 1 1 (Some 1) (Some (Name "black")) tiny []).
  vm_compute. reflexivity.
Defined.

Lemma two_by_two_reachable : reachable demo_RGBA two_by_two.
Proof.
  apply (reach_new demo_RGBA 2 2 2 (Some 2) (Some (Name "black")) two_by_two []).
  vm_compute. reflexivity.
Defined.

(** The checksum model reproduces the CRC-32 of the (empty) IEND chunk,
    [ae 42 60 82]. *)
Example crc32_of_IEND : utils.crc32_sum BUF.PNG_IEND = 0xae426082.
Proof. vm_compute. reflexivity. Qed.

(** ** C1: the layout planner *)

Lemma floor_is_ceil p : (65534 + p) / 65535 = ceil_div p 65535.
Proof.
  unfold ceil_div.
  pose proof (Z.div_mod (65534 + p) 65535 ltac:(lia)) as Hdm.
  pose proof (Z.mod_pos_bound (65534 + p) 65535 ltac:(lia)) as Hr.
  rewrite <- (Z.div_unique (- p) 65535 (- ((65534 + p) / 65535))
                (65534 - (65534 + p) mod 65535)); lia.
Qed.

(** C1 as stated fails: for the 1x1 image with one palette slot the pixel
    region has 2 bytes and the constructor's framed size is 13, while the
    formula with [ceil((65534 + p) / 65535)] gives 18.  And for width
    65535 and height 32768, a pixel region of [2^31] bytes, the constructor
    returns no object at all, whatever the fuel. *)
Lemma framed_size_is_not_ceil :
  match constructor demo_RGBA 2 1 1 (Some 1) None with
  | Some (Ok st, _) =>
      pix_size st = 2 ∧ data_size st = 13 ∧ spec_framed_size (pix_size st) = 18
  | _ => False
  end ∧
  ∀ fuel, constructor demo_RGBA fuel 65535 32768 (Some 1) None = None.
Proof.
  split; [vm_compute; repeat split|].
  intros fuel. apply constructor_diverges; [vm_compute; discriminate | lia].
Qed.

Section Claims.

Variable RGBA : string → option (Z * Z * Z * Z).

(** C1 (amended): for every width [w >= 1], height [h >= 1] and palette
    capacity [c >= 1] whose pixel region [p = h * (w + 1)] is below
    [2^31 - 2^16] bytes, and a background colour that parses, the
    constructor returns an object with [pix_size = p], [data_size = 2 + p
    + 5 * floor((65534 + p) / 65535) + 4] (that is [5 * ceil(p / 65535)]
    for the block headers), chunk sizes IHDR = 25, PLTE = 12 + 3c, tRNS =
    12 + c, IDAT = 12 + data_size, IEND = 12, offsets that are the
    running sums of the sizes, and a buffer whose length, also as
    returned by [getBuffer()], is the 8-byte signature plus the five
    chunk sizes. *)
Theorem layout_planner_sizes fuel w h c bgc rgba :
  1 <= w → 1 <= h → 1 <= c →
  h * (w + 1) < 2 ^ 31 - 2 ^ 16 →
  h * (w + 1) / 65536 + 1 < Z.of_nat fuel →
  bg_components RGBA bgc = Ok rgba →
  ∃ st,
    constructor RGBA fuel w h (Some c) bgc = Some (Ok st, []) ∧
    pix_size st = h * (w + 1) ∧
    data_size st
    = 2 + pix_size st + 5 * ((65534 + pix_size st) / 65535) + 4 ∧
    (65534 + pix_size st) / 65535 = ceil_div (pix_size st) 65535 ∧
    ihdr_size st = 25 ∧ plte_size st = 12 + 3 * c ∧ trns_size st = 12 + c ∧
    idat_size st = 12 + data_size st ∧ iend_size st = 12 ∧
    ihdr_offs st = 0 ∧
    plte_offs st = ihdr_offs st + ihdr_size st ∧
    trns_offs st = plte_offs st + plte_size st ∧
    idat_offs st = trns_offs st + trns_size st ∧
    iend_offs st = idat_offs st + idat_size st ∧
    buffer_size st = iend_offs st + iend_size st ∧
    byteLength (this_raw st)
    = 8 + (ihdr_size st + plte_size st + trns_size st + idat_size st
           + iend_size st) ∧
    Z.of_nat (length (getBuffer st).1) = byteLength (this_raw st).
Proof.
  intros Hw Hh Hc Hp Hfuel Hbg.
  destruct rgba as [[[r g] b] a].
  assert (Hdepth : depth (fields w h (Some c) bgc) = c)
    by (destruct c; [lia | reflexivity | reflexivity]).
  destruct (constructor_returns RGBA fuel w h (Some c) bgc r g b a)
    as [st Hst]; try assumption; try lia.
  exists st. split; [exact Hst|].
  apply constructor_inv in Hst as (Hlay & _ & Hwl & Hlen & _).
  pose proof (f_equal width Hlay) as Ewidth.
  pose proof (f_equal height Hlay) as Eheight.
  pose proof (f_equal depth Hlay) as Edepth.
  simpl width in Ewidth. simpl height in Eheight.
  change (depth (lay st)) with (depth st) in Edepth. rewrite Hdepth in Edepth.
  unfold getBuffer. rewrite deflate_length.
  geometry Hwl. rewrite Ewidth, Eheight in Hpix.
  split; [exact Hpix|]. split; [exact Hdata|].
  split; [apply floor_is_ceil|].
  unfold this_raw. simpl byteLength.
  repeat split; lia.
Qed.

(** ** C5, C6, C8, C9: the palette and the guard of [setPixel] *)

(** When the palette already holds [depth] colours, [color] for one more
    colour throws nothing, warns once on the console and leaves the
    object - the palette, the counter and every byte of the buffer - as
    it was; what it returns is the constant [BUF.CODE_NUL]. *)
Lemma color_at_capacity st red green blue alpha r g b a :
  reachable RGBA st →
  Z.of_nat (size (palette st)) = depth st →
  components RGBA red green blue alpha = Ok (r, g, b, a) →
  palette st !! color_key r g b a = None →
  color RGBA st red green blue alpha
  = (Ok (JS.Bytes BUF.CODE_NUL), st, [depth_warning]).
Proof.
  intros Hr Hfull Hc Hnew.
  apply reachable_inv in Hr as (_ & _ & _ & Hsz & _).
  apply (color_full RGBA st red green blue alpha r g b a Hc Hnew). lia.
Qed.

(** C5 fails on the code in what [color] returns.  The image of width
    1 and height 1 with a palette of one colour has that one slot taken
    by its background, transparent black; [color(255, 255, 255, 255)]
    throws nothing, warns once and leaves the object as it was, as the
    claim says, but it returns the constant [BUF.CODE_NUL], the sequence
    of one byte that line 74 hands to [utils.writeb]: an object, which is
    not the number 0 and converts to no number. *)
Theorem color_returns_code_nul :
  match constructor demo_RGBA 2 1 1 (Some 1) None with
  | Some (Ok st, _) =>
      Z.of_nat (size (palette st)) = depth st ∧
      palette st !! color_key 255 255 255 255 = None ∧
      color demo_RGBA st (Num 255) (Some 255) (Some 255) (Some 255)
      = (Ok (JS.Bytes [0]), st, [depth_warning]) ∧
      JS.Bytes [0] ≠ JS.Number 0 ∧
      JS.ToNumber (JS.Bytes [0]) = None
  | _ => False
  end.
Proof. vm_compute. repeat split. discriminate. Qed.

(** C6: [setPixel] with a coordinate outside the image throws nothing and
    returns the object unchanged, whatever the colour argument. *)
Theorem setPixel_outside st (x y : Q) rgba :
  (x < 0 ∨ y < 0 ∨ inject_Z (width st) <= x ∨ inject_Z (height st) <= y)%Q →
  setPixel RGBA st x y rgba = (Ok tt, st, []).
Proof.
  intros H. unfold setPixel.
  replace (_ || _) with true; [reflexivity|].
  symmetry. rewrite !orb_true_iff. unfold Qltb. rewrite !negb_true_iff.
  rewrite !Qle_bool_iff.
  destruct H as [H|[H|[H|H]]]; [| |tauto|tauto].
  - left; left; left. apply not_true_is_false. intros Hc.
    apply Qle_bool_iff in Hc. exact (Qlt_not_le _ _ H Hc).
  - left; left; right. apply not_true_is_false. intros Hc.
    apply Qle_bool_iff in Hc. exact (Qlt_not_le _ _ H Hc).
Qed.

(** C8: a colour that is in the palette keeps its index: [color] returns
    it and changes nothing; and whenever a call of [color] leaves its
    colour registered, calling it again returns the same index and
    leaves the palette, the counter and the buffer unchanged. *)
Theorem color_registered_idempotent st red green blue alpha r g b a :
  components RGBA red green blue alpha = Ok (r, g, b, a) →
  (∀ ndx, palette st !! color_key r g b a = Some ndx →
          color RGBA st red green blue alpha = (Ok (JS.Number ndx), st, [])) ∧
  (∀ res st1 log,
     color RGBA st red green blue alpha = (res, st1, log) →
     is_Some (palette st1 !! color_key r g b a) →
     ∃ ndx, res = Ok (JS.Number ndx) ∧
            palette st1 !! color_key r g b a = Some ndx ∧
            color RGBA st1 red green blue alpha = (Ok (JS.Number ndx), st1, [])).
Proof.
  intros Hc. split.
  - intros ndx Hp. exact (color_known RGBA st _ _ _ _ _ _ _ _ _ Hc Hp).
  - intros res st1 log Hcall Hreg.
    destruct (color_cases RGBA st red green blue alpha)
      as [(e & He & _)|(r' & g' & b' & a' & Hc' & Hcases)]; [congruence|].
    rewrite Hc in Hc'. injection Hc' as <- <- <- <-.
    destruct Hcases as [(ndx & Hp & E)|[(Hn & _ & E)|(Hn & Hd & E)]];
      rewrite E in Hcall; injection Hcall as <- <- <-.
    + exists ndx. eauto using color_known.
    + rewrite Hn in Hreg. destruct Hreg as [ndx Hreg]. discriminate Hreg.
    + exists (pindex st).
      assert (Hp : palette (register st (color_key r g b a) r g b a)
                   !! color_key r g b a = Some (pindex st))
        by (rewrite palette_register; apply lookup_insert_eq).
      eauto using color_known.
Qed.

(** C9: for a name the parser does not know, [color] throws the
    invalid-colour error at once and leaves the object unchanged, and so
    does [setPixel] at a coordinate inside the image. *)
Theorem color_invalid_name st s green blue alpha (x y : Q) :
  RGBA s = None →
  color RGBA st (Name s) green blue alpha = (Throw InvalidColor, st, []) ∧
  ((0 <= x ∧ x < inject_Z (width st) ∧ 0 <= y ∧ y < inject_Z (height st))%Q →
   setPixel RGBA st x y (Name s) = (Throw InvalidColor, st, [])).
Proof.
  intros Hs.
  assert (Hc : ∀ g b a, color RGBA st (Name s) g b a = (Throw InvalidColor, st, [])).
  { intros g b a. apply color_throw. simpl. now rewrite Hs. }
  split; [apply Hc|].
  intros (Hx0 & Hxw & Hy0 & Hyh). unfold setPixel.
  replace (_ || _) with false; [now rewrite Hc|].
  symmetry. rewrite !orb_false_iff. unfold Qltb. rewrite !negb_false_iff.
  repeat split.
  - now apply Qle_bool_iff.
  - now apply Qle_bool_iff.
  - apply not_true_is_false. intros H. apply Qle_bool_iff in H.
    exact (Qlt_not_le _ _ Hxw H).
  - apply not_true_is_false. intros H. apply Qle_bool_iff in H.
    exact (Qlt_not_le _ _ Hyh H).
Qed.

(** ** C10: palette entry 0 *)

(** In every reachable object palette index 0 belongs to the background
    colour the constructor registered - the one supplied, or transparent
    black (0, 0, 0, 0) without one - and to no other colour; in an image
    with at least one palette slot the first PLTE entry and the first
    tRNS byte hold its components; no call of [color] or [setPixel]
    changes any of this.  What [color] returns when it warns is the
    constant [BUF.CODE_NUL]. *)
Lemma index_0_is_background st :
  reachable RGBA st →
  ∃ r g b a,
    background RGBA st = Ok (r, g, b, a) ∧
    (bg st = None → (r, g, b, a) = (0, 0, 0, 0)) ∧
    (∀ s, bg st = Some (Name s) → s ≠ EmptyString → RGBA s = Some (r, g, b, a)) ∧
    palette st !! color_key r g b a = Some 0 ∧
    (∀ k, palette st !! k = Some 0 → k = color_key r g b a) ∧
    (1 <= depth st → 0 <= pix_size st →
     view_get (this_buffer st) (raw st) (plte_offs st + 8) = Some (JS.ToUint8 r) ∧
     view_get (this_buffer st) (raw st) (plte_offs st + 9) = Some (JS.ToUint8 g) ∧
     view_get (this_buffer st) (raw st) (plte_offs st + 10) = Some (JS.ToUint8 b) ∧
     view_get (this_buffer st) (raw st) (trns_offs st + 8) = Some (JS.ToUint8 a)) ∧
    (∀ red green blue alpha res st' log,
       color RGBA st red green blue alpha = (res, st', log) →
       background RGBA st' = Ok (r, g, b, a) ∧
       palette st' !! color_key r g b a = Some 0 ∧
       (∀ k, palette st' !! k = Some 0 → k = color_key r g b a) ∧
       (log = [depth_warning] → res = Ok (JS.Bytes BUF.CODE_NUL))) ∧
    (∀ x y rgba res st' log,
       setPixel RGBA st x y rgba = (res, st', log) →
       background RGBA st' = Ok (r, g, b, a) ∧
       palette st' !! color_key r g b a = Some 0 ∧
       (∀ k, palette st' !! k = Some 0 → k = color_key r g b a)).
Proof.
  intros Hr.
  destruct (reachable_inv RGBA st Hr)
    as (_ & _ & _ & _ & _ & _ & r & g & b & a & Hbg & H0 & Huniq & Hbytes).
  exists r, g, b, a.
  split; [exact Hbg|].
  split.
  { intros Hnone. unfold background, bg_components in Hbg.
    rewrite Hnone in Hbg. simpl in Hbg. congruence. }
  split.
  { intros s Hs Hne. unfold background, bg_components in Hbg.
    rewrite Hs in Hbg. destruct s as [|c s]; [congruence|].
    simpl in Hbg. destruct (RGBA (String c s)); congruence. }
  split; [exact H0|]. split; [exact Huniq|]. split; [exact Hbytes|].
  split.
  - intros red green blue alpha res st' log Hcall.
    pose proof (background_lay RGBA _ _ (color_lay RGBA _ _ _ _ _ _ _ _ Hcall)) as Ebg.
    destruct (reachable_inv RGBA st' (reach_color RGBA _ _ _ _ _ _ _ _ Hr Hcall))
      as (_ & _ & _ & _ & _ & _ & r' & g' & b' & a' & Hbg' & H0' & Huniq' & _).
    rewrite Ebg, Hbg in Hbg'. injection Hbg' as <- <- <- <-.
    split; [congruence|]. split; [exact H0'|]. split; [exact Huniq'|].
    intros ->.
    destruct (color_cases RGBA st red green blue alpha)
      as [(e & _ & E)|(r1 & g1 & b1 & a1 & _ & [(ndx & _ & E)|[(_ & _ & E)|(_ & _ & E)]])];
      rewrite E in Hcall; congruence.
  - intros x y rgba res st' log Hcall.
    pose proof (background_lay RGBA _ _ (setPixel_lay RGBA _ _ _ _ _ _ _ Hcall)) as Ebg.
    destruct (reachable_inv RGBA st' (reach_setPixel RGBA _ _ _ _ _ _ _ Hr Hcall))
      as (_ & _ & _ & _ & _ & _ & r' & g' & b' & a' & Hbg' & H0' & Huniq' & _).
    rewrite Ebg, Hbg in Hbg'. injection Hbg' as <- <- <- <-.
    split; [congruence|]. split; [exact H0'|]. exact Huniq'.
Qed.

(** C10 fails on the code in what the fallback returns.  The image of
    width 2 and height 2 with a palette of two colours holds its
    background, transparent black, at index 0 and, once
    [setPixel(0, 0, 255)] has run, the colour (255, 0, 0, 255) at index 1:
    the palette is full.  [color(0, 255, 0, 255)], a third colour, returns
    the constant [BUF.CODE_NUL], a sequence of one byte and not the index
    0.  Only the store of [setPixel], which converts what it is given to a
    byte, makes a 0 of it: the pixel of [setPixel(1, 1, 1)] gets the
    background's index. *)
Theorem fallback_is_no_index :
  match constructor demo_RGBA 2 2 2 (Some 2) None with
  | Some (Ok st0, _) =>
      let st := (setPixel demo_RGBA st0 0 0 (Num 255)).1.2 in
      background demo_RGBA st = Ok (0, 0, 0, 0) ∧
      palette st !! color_key 0 0 0 0 = Some 0 ∧
      palette st !! color_key 255 0 0 255 = Some 1 ∧
      pindex st = depth st ∧
      color demo_RGBA st (Num 0) (Some 255) (Some 0) (Some 255)
      = (Ok (JS.Bytes BUF.CODE_NUL), st, [depth_warning]) ∧
      JS.Bytes BUF.CODE_NUL ≠ JS.Number 0 ∧
      let st' := (setPixel demo_RGBA st 1 1 (Num 1)).1.2 in
      palette st' = palette st ∧
      view_get (this_buffer st') (raw st') (index st' 1 1) = Some 0
  | _ => False
  end.
Proof. vm_compute. repeat split. discriminate. Qed.

End Claims.

(** ** C2: the address of the Adler-32 walk *)

(** The walk multiplies the whole base offset by the block number where
    [index] multiplies the 5 bytes of a block header. *)
Lemma deflate_addr_gap st x y :
  deflate_addr st x y
  = index st x y + (idat_offs st + 10) * ((y * (width st + 1) + x + 1) / 0xffff).
Proof. unfold deflate_addr, index. cbv zeta. ring. Qed.

(** The two agree in the first block, and only there. *)
Lemma deflate_addr_first_block st x y :
  0 <= y * (width st + 1) + x + 1 < 0xffff →
  deflate_addr st x y = index st x y.
Proof.
  intros Hi. rewrite deflate_addr_gap, Z.div_small by exact Hi. lia.
Qed.

Lemma deflate_addr_later_blocks st x y :
  0 < idat_offs st + 10 → 0xffff <= y * (width st + 1) + x + 1 →
  index st x y < deflate_addr st x y.
Proof.
  intros Ho Hi. rewrite deflate_addr_gap.
  assert (1 <= (y * (width st + 1) + x + 1) / 65535)
    by (apply Z.div_le_lower_bound; lia).
  nia.
Qed.

(** C2 fails on the code.  In the image of width 65535 and height 1 (a
    pixel region of 65536 bytes, two stored blocks) the last pixel is the
    logical position 65535: [index] puts it at 65636, behind the second
    block header, while the Adler-32 walk loads from 65727, which is past
    the end of the 65657 bytes of [this.buffer]. *)
Theorem adler_walk_leaves_index :
  match constructor demo_RGBA 3 65535 1 (Some 8) None with
  | Some (Ok st, _) =>
      0 * (width st + 1) + 65534 + 1 = 65535 ∧
      index st 65534 0 = 65636 ∧
      index st 65534 0 = block_header_offs st 1 + 5 ∧
      deflate_addr st 65534 0 = 65727 ∧
      buffer_size st = 65657 ∧
      view_get (this_buffer st) (raw st) (deflate_addr st 65534 0) = None
  | _ => False
  end.
Proof. vm_compute. repeat split. Qed.

(** ** C3: the stored-block headers *)

(** A single-block image gets the header the design document describes. *)
Example two_by_two_block_header :
  pix_size two_by_two = 6 ∧
  header_count 2 2 2 (Some 2) (Some (Name "black")) = Some 1 ∧
  spec_block_count 6 = 1 ∧
  read_block_header two_by_two 0 = Some <$> spec_block_header 6 0 ∧
  spec_block_header 6 0 = [1; 6; 0; 249; 255].
Proof. vm_compute. repeat split. Qed.

Lemma ToUint8_byte x : JS.ToUint8 (Z.land x 255) = Z.land x 255.
Proof.
  unfold JS.ToUint8. change 255 with (Z.ones 8).
  rewrite Z.land_ones by lia. apply Z.mod_mod. lia.
Qed.

(** The five stores of the loop body for the only block of a small image. *)
Lemma block_header_single st m :
  pix_size st <= 65535 →
  block_header st m 0
  = let v := this_buffer st in
    let o := idat_offs st + 8 + 2 in
    let p := pix_size st in
    view_set v
      (view_set v
         (view_set v
            (view_set v (view_set v m o 1) (o + 1) (Z.land p 255))
            (o + 1 + 1) (Z.land (Z.shiftr p 8) 255))
         (o + 1 + 1 + 1) (Z.land (JS.bnot p) 255))
      (o + 1 + 1 + 1 + 1) (Z.land (Z.shiftr (JS.bnot p) 8) 255).
Proof.
  intros Hp. unfold block_header.
  replace (0 + 65535 <? pix_size st) with false by (symmetry; apply Z.ltb_ge; lia).
  unfold block_header_offs.
  change (JS.shl 0 16) with 0. change (JS.shl 0 2) with 0.
  replace (idat_offs st + 8 + 2 + 0 + 0) with (idat_offs st + 8 + 2) by lia.
  replace (pix_size st - 0 - 0) with (pix_size st) by lia.
  reflexivity.
Qed.

Lemma block_headers_single fuel st m m' n :
  1 <= pix_size st <= 65535 →
  block_headers fuel st m 0 = Some (m', n) →
  m' = block_header st m 0 ∧ n = 1.
Proof.
  intros Hp. destruct fuel as [|[|fuel]]; simpl.
  - discriminate.
  - change (JS.shl 0 16) with 0.
    replace (0 - 1 <? pix_size st) with true by (symmetry; apply Z.ltb_lt; lia).
    discriminate.
  - change (JS.shl 0 16) with 0. change (JS.shl (0 + 1) 16) with 65536.
    replace (0 - 1 <? pix_size st) with true by (symmetry; apply Z.ltb_lt; lia).
    replace (65536 - 1 <? pix_size st) with false by (symmetry; apply Z.ltb_ge; lia).
    intros [= <- <-]. split; reflexivity.
Qed.

Lemma spec_block_count_single p : 1 <= p <= 65535 → spec_block_count p = 1.
Proof.
  intros Hp. unfold spec_block_count, ceil_div.
  rewrite <- (Z.div_unique (- p) 65535 (-1) (65535 - p)); lia.
Qed.

Section SingleBlock.

Variable RGBA : string → option (Z * Z * Z * Z).

(** Where the design document's header and the constructor agree: an image
    whose pixel region fits one stored block (1 to 65535 bytes) gets
    exactly one header, flagged final, with the length of the pixel region
    and its one's complement. *)
Lemma single_block_header fuel w h d bgc st log :
  constructor RGBA fuel w h d bgc = Some (Ok st, log) →
  1 <= depth st → 1 <= pix_size st <= 65535 →
  header_count fuel w h d bgc = Some 1 ∧
  spec_block_count (pix_size st) = 1 ∧
  read_block_header st 0 = Some <$> spec_block_header (pix_size st) 0.
Proof.
  intros Hc Hd Hp.
  destruct (constructor_shape _ _ _ _ _ _ _ _ Hc)
    as (st1 & n & r & g & b & a & Hprime & _ & -> & _).
  destruct (prime_shape _ _ _ _ _ _ _ Hprime) as (m & Hbh & -> & _ & Hbs).
  set (st0 := fields w h d bgc) in *.
  set (m0 := init_chunks st0 _) in Hbh.
  change (pix_size (register (set_raw st0 m) (color_key r g b a) r g b a))
    with (pix_size st0) in *.
  change (depth (register (set_raw st0 m) (color_key r g b a) r g b a))
    with (depth st0) in Hd.
  destruct (block_headers_single _ _ _ _ _ Hp Hbh) as [-> ->].
  split; [unfold header_count; now rewrite Hprime|].
  split; [now apply spec_block_count_single|].
  assert (Hlen : Z.of_nat (length m0) = 8 + buffer_size st0).
  { unfold m0. rewrite init_chunks_length, length_replicate.
    change (length BUF.PNG_HEAD) with 8%nat. lia. }
  pose proof (well_laid_fields w h d bgc) as Hw. fold st0 in Hw.
  pose proof (blocks_nonneg (pix_size st0) ltac:(lia)) as Hnb.
  unfold spec_block_header, read_block_header.
  rewrite (spec_block_count_single _ Hp).
  change (0 =? 1 - 1) with true. cbv iota zeta.
  replace (pix_size st0 - 65535 * 0) with (pix_size st0) by lia.
  change (this_buffer (register (set_raw st0 (block_header st0 m0 0))
                         (color_key r g b a) r g b a))
    with (this_buffer (set_raw st0 (block_header st0 m0 0))).
  unfold block_header_offs.
  change (JS.shl 0 16) with 0. change (JS.shl 0 2) with 0.
  change (idat_offs (register (set_raw st0 (block_header st0 m0 0))
                       (color_key r g b a) r g b a))
    with (idat_offs st0).
  geometry Hw.
  cbn [map fmap list_fmap].
  rewrite !register_get_other
    by (change (pindex (set_raw st0 (block_header st0 m0 0))) with 0;
        change (plte_offs (set_raw st0 (block_header st0 m0 0))) with (plte_offs st0);
        change (trns_offs (set_raw st0 (block_header st0 m0 0))) with (trns_offs st0);
        lia).
  change (this_buffer (set_raw st0 (block_header st0 m0 0))) with (this_buffer st0).
  change (raw (set_raw st0 (block_header st0 m0 0))) with (block_header st0 m0 0).
  rewrite (block_header_single st0 m0) by lia. cbv zeta.
  assert (Hnot : JS.bnot (pix_size st0) = Z.lnot (pix_size st0))
    by (unfold JS.bnot; rewrite ToInt32_small; [reflexivity | lia]).
  rewrite Hnot.
  replace (idat_offs st0 + 8 + 2 + 0 + 0 + 0) with (idat_offs st0 + 8 + 2) by lia.
  replace (idat_offs st0 + 8 + 2 + 0 + 0 + 1) with (idat_offs st0 + 8 + 2 + 1) by lia.
  replace (idat_offs st0 + 8 + 2 + 0 + 0 + 2) with (idat_offs st0 + 8 + 2 + 1 + 1) by lia.
  replace (idat_offs st0 + 8 + 2 + 0 + 0 + 3) with (idat_offs st0 + 8 + 2 + 1 + 1 + 1) by lia.
  replace (idat_offs st0 + 8 + 2 + 0 + 0 + 4) with (idat_offs st0 + 8 + 2 + 1 + 1 + 1 + 1) by lia.
  clear Hc Hbh Hprime. clearbody m0. clearbody st0.
  repeat match goal with |- _ :: _ = _ :: _ => f_equal end.
  all: rewrite ?view_get_set_ne by (simpl; lia).
  all: rewrite view_get_set_eq by (rewrite ?view_set_length; simpl; lia).
  all: rewrite ?ToUint8_byte; reflexivity.
Qed.

End SingleBlock.

(** In general the loop writes [floor(p / 65536) + 1] headers, where the
    design document and [data_size] count [ceil(p / 65535)] blocks. *)
Lemma header_count_loop fuel w h d bgc :
  0 <= h * (w + 1) < 2 ^ 31 - 2 ^ 16 →
  0 <= buffer_size (fields w h d bgc) →
  h * (w + 1) / 65536 + 1 < Z.of_nat fuel →
  header_count fuel w h d bgc = Some (h * (w + 1) / 65536 + 1).
Proof.
  intros Hp Hbs Hfuel. unfold header_count.
  destruct (prime_returns fuel w h d bgc Hbs Hp Hfuel) as [m ->]. reflexivity.
Qed.

(** C3 fails on the code as soon as there is a second block.  For width
    65535 and height 1 the pixel region has 65536 bytes: the second and
    final block holds 1 byte, so its header should read [1; 1; 0; 254;
    255].  The constructor computes the length as [pix_size - (i << 16) -
    i = -1] and writes [1; 255; 255; 0; 0]. *)
Theorem final_block_header_wrong :
  match constructor demo_RGBA 3 65535 1 (Some 8) None with
  | Some (Ok st, _) =>
      pix_size st = 65536 ∧
      header_count 3 65535 1 (Some 8) None = Some 2 ∧
      spec_block_count (pix_size st) = 2 ∧
      read_block_header st 0 = Some <$> spec_block_header (pix_size st) 0 ∧
      spec_block_header (pix_size st) 1 = [1; 1; 0; 254; 255] ∧
      read_block_header st 1 = [Some 1; Some 255; Some 255; Some 0; Some 0]
  | _ => False
  end.
Proof. vm_compute. repeat split. Qed.

(** The same loop in the image of width 1 and height 65536: three headers,
    none of them marked final, each announcing 65535 bytes. *)
Example no_final_block_header :
  match constructor demo_RGBA 4 1 65536 (Some 8) None with
  | Some (Ok st, _) =>
      read_block_header st 0 = [Some 0; Some 255; Some 255; Some 0; Some 0] ∧
      read_block_header st 1 = [Some 0; Some 255; Some 255; Some 0; Some 0] ∧
      read_block_header st 2 = [Some 0; Some 255; Some 255; Some 0; Some 0] ∧
      spec_block_header (pix_size st) 2 = [1; 2; 0; 253; 255]
  | _ => False
  end.
Proof. vm_compute. repeat split. Qed.

(** And the number of headers: a pixel region of 131071 bytes needs three
    blocks, the loop writes two headers. *)
Example header_count_short :
  pix_size (fields 131070 1 (Some 8) None) = 131071 ∧
  spec_block_count 131071 = 3 ∧
  header_count 4 131070 1 (Some 8) None = Some 2.
Proof. vm_compute. repeat split. Qed.

(** ** C4: width 1, height 65536 *)



(** ** C7: the finalizer, run twice *)

Lemma deflate_finalize st :
  deflate st = (finalize st (adler32 st) (raw st),
                set_raw st (finalize st (adler32 st) (raw st))).
Proof. reflexivity. Qed.

Lemma holds4_write v m offs x :
  0 <= offs → offs + 4 <= byteLength v → 0 <= byteOffset v →
  byteOffset v + byteLength v <= Z.of_nat (length m) →
  holds4 v (utils.write4 v m offs x).1 offs x.
Proof.
  intros Ho Hl Hv Hm k b Hk.
  apply writeb_get_in; try assumption; simpl; lia.
Qed.

Lemma holds4_other v m offs x offs' y :
  0 <= byteOffset v → offs + 4 <= offs' ∨ offs' + 4 <= offs →
  holds4 v m offs x → holds4 v (utils.write4 v m offs' y).1 offs x.
Proof.
  intros Hv Hd H k b Hk.
  assert (Z.of_nat k < 4).
  { apply lookup_lt_Some in Hk. simpl in Hk. lia. }
  unfold utils.write4. rewrite writeb_get_other; [now apply H | exact Hv |].
  simpl. lia.
Qed.

Lemma holds4_id v m offs x : holds4 v m offs x → (utils.write4 v m offs x).1 = m.
Proof. intros H. now apply writeb_same. Qed.

Lemma region_write4 v m offs y from n :
  0 <= byteOffset v → offs + 4 <= from ∨ from + Z.of_nat n <= offs →
  utils.region v (utils.write4 v m offs y).1 from n = utils.region v m from n.
Proof.
  intros Hv Hd. apply region_ext. intros j Hj.
  apply writeb_get_other; [exact Hv | simpl; lia].
Qed.

(** Writing a chunk's CRC-32 where it already stands changes nothing. *)
Lemma crc32_id v m offs size :
  holds4 v m (offs + size - 4)
    (utils.crc32_sum (utils.region v m (offs + 4) (Z.to_nat (size - 8)))) →
  utils.crc32 v m offs size = m.
Proof. apply holds4_id. Qed.

(** Nothing written through [this.buffer] reaches the signature. *)
Lemma view_set_signature st m i x :
  take 8 (view_set (this_buffer st) m i x) = take 8 m.
Proof.
  unfold view_set. destruct (_ && _) eqn:Hi; [|reflexivity].
  apply andb_true_iff in Hi as [Hi _]. apply Z.leb_le in Hi.
  apply take_insert_ge. simpl. lia.
Qed.

Lemma writeb_signature st bytes : ∀ m offs,
  take 8 (utils.writeb (this_buffer st) m offs bytes).1 = take 8 m.
Proof.
  induction bytes as [|b bytes IH]; intros m offs; simpl; [reflexivity|].
  rewrite IH. apply view_set_signature.
Qed.

Lemma finalize_signature st a m : take 8 (finalize st a m) = take 8 m.
Proof.
  unfold finalize, utils.crc32, utils.write4. cbv zeta.
  now rewrite !writeb_signature.
Qed.

Lemma finalize_set_raw st m a m' : finalize (set_raw st m) a m' = finalize st a m'.
Proof. reflexivity. Qed.

Lemma finalize_length st a m : length (finalize st a m) = length m.
Proof. unfold finalize. cbv zeta. now autorewrite with store_length. Qed.

(** The six writes are idempotent: the fields are disjoint, and no chunk's
    checksummed bytes contain a CRC field. *)
Lemma finalize_idem st a m :
  well_laid st → 1 <= depth st → 0 <= pix_size st →
  Z.of_nat (length m) = 8 + buffer_size st →
  finalize st a (finalize st a m) = finalize st a m.
Proof.
  intros Hw Hd Hp Hlen.
  pose proof (blocks_nonneg _ Hp) as Hnb.
  destruct Hw as (Hpix & Hdata & G1 & G2 & G3 & G4 & G5 & G6 & G7 & G8 & G9 & G10 & G11 & _).
  set (v := this_buffer st).
  assert (Hv : 0 <= byteOffset v) by (simpl; lia).
  assert (Hbl : byteLength v = buffer_size st) by reflexivity.
  assert (Hbo : byteOffset v = 8) by reflexivity.
  pose (m1 := (utils.write4 v m (idat_offs st + idat_size st - 8) a).1).
  pose (c1 := utils.crc32_sum (utils.region v m1 (ihdr_offs st + 4) (Z.to_nat (ihdr_size st - 8)))).
  pose (m2 := (utils.write4 v m1 (ihdr_offs st + ihdr_size st - 4) c1).1).
  pose (c2 := utils.crc32_sum (utils.region v m2 (plte_offs st + 4) (Z.to_nat (plte_size st - 8)))).
  pose (m3 := (utils.write4 v m2 (plte_offs st + plte_size st - 4) c2).1).
  pose (c3 := utils.crc32_sum (utils.region v m3 (trns_offs st + 4) (Z.to_nat (trns_size st - 8)))).
  pose (m4 := (utils.write4 v m3 (trns_offs st + trns_size st - 4) c3).1).
  pose (c4 := utils.crc32_sum (utils.region v m4 (idat_offs st + 4) (Z.to_nat (idat_size st - 8)))).
  pose (m5 := (utils.write4 v m4 (idat_offs st + idat_size st - 4) c4).1).
  pose (c5 := utils.crc32_sum (utils.region v m5 (iend_offs st + 4) (Z.to_nat (iend_size st - 8)))).
  pose (m6 := (utils.write4 v m5 (iend_offs st + iend_size st - 4) c5).1).
  assert (L1 : length m1 = length m) by apply write4_length.
  assert (L2 : length m2 = length m) by (unfold m2; now rewrite write4_length).
  assert (L3 : length m3 = length m) by (unfold m3; now rewrite write4_length).
  assert (L4 : length m4 = length m) by (unfold m4; now rewrite write4_length).
  assert (L5 : length m5 = length m) by (unfold m5; now rewrite write4_length).
  change (finalize st a m) with m6.
  assert (Ha : holds4 v m6 (idat_offs st + idat_size st - 8) a).
  { unfold m6, m5, m4, m3, m2.
    do 5 (apply holds4_other; [exact Hv | lia |]).
    apply holds4_write; lia. }
  assert (H1 : holds4 v m6 (ihdr_offs st + ihdr_size st - 4) c1).
  { unfold m6, m5, m4, m3.
    do 4 (apply holds4_other; [exact Hv | lia |]).
    apply holds4_write; lia. }
  assert (H2 : holds4 v m6 (plte_offs st + plte_size st - 4) c2).
  { unfold m6, m5, m4.
    do 3 (apply holds4_other; [exact Hv | lia |]).
    apply holds4_write; lia. }
  assert (H3 : holds4 v m6 (trns_offs st + trns_size st - 4) c3).
  { unfold m6, m5.
    do 2 (apply holds4_other; [exact Hv | lia |]).
    apply holds4_write; lia. }
  assert (H4 : holds4 v m6 (idat_offs st + idat_size st - 4) c4).
  { unfold m6.
    apply holds4_other; [exact Hv | lia |].
    apply holds4_write; lia. }
  assert (H5 : holds4 v m6 (iend_offs st + iend_size st - 4) c5).
  { apply holds4_write; lia. }
  assert (R1 : utils.region v m6 (ihdr_offs st + 4) (Z.to_nat (ihdr_size st - 8))
               = utils.region v m1 (ihdr_offs st + 4) (Z.to_nat (ihdr_size st - 8))).
  { unfold m6, m5, m4, m3, m2. rewrite !region_write4 by (try exact Hv; lia). reflexivity. }
  assert (R2 : utils.region v m6 (plte_offs st + 4) (Z.to_nat (plte_size st - 8))
               = utils.region v m2 (plte_offs st + 4) (Z.to_nat (plte_size st - 8))).
  { unfold m6, m5, m4, m3. rewrite !region_write4 by (try exact Hv; lia). reflexivity. }
  assert (R3 : utils.region v m6 (trns_offs st + 4) (Z.to_nat (trns_size st - 8))
               = utils.region v m3 (trns_offs st + 4) (Z.to_nat (trns_size st - 8))).
  { unfold m6, m5, m4. rewrite !region_write4 by (try exact Hv; lia). reflexivity. }
  assert (R4 : utils.region v m6 (idat_offs st + 4) (Z.to_nat (idat_size st - 8))
               = utils.region v m4 (idat_offs st + 4) (Z.to_nat (idat_size st - 8))).
  { unfold m6, m5. rewrite !region_write4 by (try exact Hv; lia). reflexivity. }
  assert (R5 : utils.region v m6 (iend_offs st + 4) (Z.to_nat (iend_size st - 8))
               = utils.region v m5 (iend_offs st + 4) (Z.to_nat (iend_size st - 8))).
  { unfold m6. rewrite !region_write4 by (try exact Hv; lia). reflexivity. }
  unfold finalize. cbv zeta. fold v.
  rewrite (holds4_id _ _ _ _ Ha).
  rewrite (crc32_id v m6 (ihdr_offs st)) by (rewrite R1; exact H1).
  rewrite (crc32_id v m6 (plte_offs st)) by (rewrite R2; exact H2).
  rewrite (crc32_id v m6 (trns_offs st)) by (rewrite R3; exact H3).
  rewrite (crc32_id v m6 (idat_offs st)) by (rewrite R4; exact H4).
  rewrite (crc32_id v m6 (iend_offs st)) by (rewrite R5; exact H5).
  reflexivity.
Qed.

(** The Adler-32 walk depends on the store only through the bytes it
    loads. *)
Lemma adler_step_ext st m k x y :
  view_get (this_buffer st) m (deflate_addr st x y)
  = view_get (this_buffer st) (raw st) (deflate_addr st x y) →
  adler_step (set_raw st m) k x y = adler_step st k x y.
Proof.
  intros H. unfold adler_step. destruct k as [[s1 s2] n].
  change (view_get (this_buffer (set_raw st m)) (raw (set_raw st m))
            (deflate_addr (set_raw st m) x y))
    with (view_get (this_buffer st) m (deflate_addr st x y)).
  now rewrite H.
Qed.

Lemma adler_row_ext st m y count : ∀ x k,
  (∀ x', x <= x' < x + Z.of_nat count →
         view_get (this_buffer st) m (deflate_addr st x' y)
         = view_get (this_buffer st) (raw st) (deflate_addr st x' y)) →
  adler_row (set_raw st m) count x y k = adler_row st count x y k.
Proof.
  induction count as [|count IH]; intros x k H; simpl; [reflexivity|].
  rewrite adler_step_ext by (apply H; lia).
  apply IH. intros x' Hx'. apply H. lia.
Qed.

Lemma adler_rows_ext st m count : ∀ y k,
  (∀ x' y', y <= y' < y + Z.of_nat count → -1 <= x' < width st →
            view_get (this_buffer st) m (deflate_addr st x' y')
            = view_get (this_buffer st) (raw st) (deflate_addr st x' y')) →
  adler_rows (set_raw st m) count y k = adler_rows st count y k.
Proof.
  induction count as [|count IH]; intros y k H; simpl; [reflexivity|].
  change (width (set_raw st m)) with (width st).
  rewrite adler_row_ext by (intros x' Hx'; apply H; lia).
  apply IH. intros x' y' Hy' Hx'. apply H; lia.
Qed.

(** The last step of a row and the last row of the walk. *)
Lemma adler_row_last st y count : ∀ x k,
  adler_row st (S count) x y k
  = adler_step st (adler_row st count x y k) (x + Z.of_nat count) y.
Proof.
  induction count as [|count IH]; intros x k.
  - simpl. change (Z.of_nat 0) with 0. now rewrite Z.add_0_r.
  - change (adler_row st (S (S count)) x y k)
      with (adler_row st (S count) (x + 1) y (adler_step st k x y)).
    rewrite IH. simpl adler_row.
    now replace (x + 1 + Z.of_nat count) with (x + Z.of_nat (S count)) by lia.
Qed.

Lemma adler_rows_last st count : ∀ y k,
  adler_rows st (S count) y k
  = adler_row st (Z.to_nat (width st + 1)) (-1) (y + Z.of_nat count)
      (adler_rows st count y k).
Proof.
  induction count as [|count IH]; intros y k.
  - simpl. change (Z.of_nat 0) with 0. now rewrite Z.add_0_r.
  - change (adler_rows st (S (S count)) y k)
      with (adler_rows st (S count) (y + 1)
              (adler_row st (Z.to_nat (width st + 1)) (-1) y k)).
    rewrite IH. simpl adler_rows.
    now replace (y + 1 + Z.of_nat count) with (y + Z.of_nat (S count)) by lia.
Qed.

(** A load outside the buffer turns both sums into [NaN]. *)
Lemma adler_step_NaN st k x y :
  view_get (this_buffer st) (raw st) (deflate_addr st x y) = None →
  ∃ n, adler_step st k x y = (None, None, n).
Proof.
  intros H. unfold adler_step. destruct k as [[s1 s2] n]. rewrite H.
  replace (JS.add s1 None) with (@None Z) by (now destruct s1).
  replace (JS.add s2 None) with (@None Z) by (now destruct s2).
  destruct (n - 1 =? 0); eauto.
Qed.

(** When the last pixel is loaded from outside the buffer, the checksum
    written is 0. *)
Lemma adler32_NaN st :
  0 <= width st → 1 <= height st →
  view_get (this_buffer st) (raw st)
    (deflate_addr st (width st - 1) (height st - 1)) = None →
  adler32 st = 0.
Proof.
  intros Hw Hh Hlast. unfold adler32.
  replace (Z.to_nat (height st)) with (S (Z.to_nat (height st - 1))) by lia.
  rewrite adler_rows_last.
  replace (Z.to_nat (width st + 1)) with (S (Z.to_nat (width st))) by lia.
  rewrite adler_row_last.
  replace (-1 + Z.of_nat (Z.to_nat (width st))) with (width st - 1) by lia.
  replace (0 + Z.of_nat (Z.to_nat (height st - 1))) with (height st - 1) by lia.
  destruct (adler_step_NaN st
              (adler_row st (Z.to_nat (width st)) (-1) (height st - 1)
                 (adler_rows st (Z.to_nat (height st - 1)) 0 (Some 1, Some 0, NMAX)))
              _ _ Hlast) as [n ->].
  reflexivity.
Qed.

(** In an image of two or more stored blocks the walk's address of the
    last pixel lies behind the end of [this.buffer]. *)
Lemma last_pixel_outside st :
  well_laid st → 1 <= depth st → 65535 < pix_size st →
  buffer_size st <= deflate_addr st (width st - 1) (height st - 1).
Proof.
  intros Hwl Hd Hmany. assert (Hpix := proj1 Hwl).
  unfold deflate_addr. cbv zeta.
  replace ((height st - 1) * (width st + 1) + (width st - 1) + 1)
    with (pix_size st - 1) by (rewrite Hpix; ring).
  assert (Hq : 1 <= (pix_size st - 1) / 65535)
    by (apply Z.div_le_lower_bound; lia).
  assert (Hnb : (65534 + pix_size st) / 65535 = (pix_size st - 1) / 65535 + 1).
  { replace (65534 + pix_size st) with (pix_size st - 1 + 1 * 65535) by ring.
    apply Z.div_add. lia. }
  geometry Hwl. nia.
Qed.

(** So the Adler-32 trailer of every such image is written as 0. *)
Lemma adler32_multi_block st :
  well_laid st → 0 <= width st → 1 <= height st → 1 <= depth st →
  65535 < pix_size st → adler32 st = 0.
Proof.
  intros Hwl Hw Hh Hd Hmany. apply (adler32_NaN st Hw Hh).
  apply view_get_outside. now apply last_pixel_outside.
Qed.

Lemma walk_position st x y :
  pix_size st = height st * (width st + 1) →
  0 <= y < height st → -1 <= x < width st →
  0 <= y * (width st + 1) + x + 1 < pix_size st.
Proof. intros -> Hy Hx. nia. Qed.

(** The checksum of the pixel stream is the same before and after the
    finalizer has run. *)
Lemma adler32_deflate st :
  well_laid st → 0 <= width st → 0 <= height st → 1 <= depth st →
  adler32 (set_raw st (deflate st).1) = adler32 st.
Proof.
  intros Hwl Hw Hh0 Hd.
  assert (Hpix := proj1 Hwl).
  destruct (Z.eq_dec (height st) 0) as [Hzero|Hnz].
  { (* no rows: the walk loads nothing *)
    unfold adler32. change (height (set_raw st (deflate st).1)) with (height st).
    rewrite Hzero. reflexivity. }
  assert (Hh : 1 <= height st) by lia.
  assert (Hp : 1 <= pix_size st) by (rewrite Hpix; nia).
  destruct (Z_le_gt_dec (pix_size st) 65535) as [Hone|Hmany].
  - (* one stored block: the walk stays inside the pixel region *)
    unfold adler32.
    change (height (set_raw st (deflate st).1)) with (height st).
    rewrite adler_rows_ext; [reflexivity|].
    intros x y Hy Hx. apply deflate_get_other.
    pose proof (walk_position st x y Hpix ltac:(lia) Hx) as Hi.
    rewrite deflate_addr_first_block by lia.
    unfold index. cbv zeta.
    rewrite (Z.div_small (y * (width st + 1) + x + 1) 65535) by lia.
    assert (Hnb : (65534 + pix_size st) / 65535 = 1)
      by (symmetry; apply (Z.div_unique _ _ 1 (pix_size st - 1)); lia).
    geometry Hwl.
    unfold checksum_field, in_field, adler_field, crc_field. lia.
  - (* several blocks: the last pixel is loaded from outside the buffer *)
    rewrite (adler32_multi_block st) by (assumption || lia).
    apply (adler32_NaN (set_raw st (deflate st).1) Hw Hh).
    apply view_get_outside.
    apply (last_pixel_outside st); assumption || lia.
Qed.

Section Finalizer.

Variable RGBA : string → option (Z * Z * Z * Z).
Variable base64 : list Z → string.

(** C7: for a reachable image (of a width and height that are not
    negative and a palette capacity of at least 1), [getBuffer()] called
    twice in a row returns the same bytes and leaves the same object, and
    so does [getBase64()]; the finalizer changes neither the palette nor
    its counter, and in the buffer only the Adler-32 trailer and the five
    CRC-32 fields. *)
Theorem getBuffer_twice st :
  reachable RGBA st →
  0 <= width st → 0 <= height st → 1 <= depth st →
  ∃ b st1,
    getBuffer st = (b, st1) ∧
    getBuffer st1 = (b, st1) ∧
    getBase64 base64 st = (base64 b, st1) ∧
    getBase64 base64 st1 = (base64 b, st1) ∧
    raw st1 = b ∧ length b = length (raw st) ∧
    palette st1 = palette st ∧ pindex st1 = pindex st ∧
    take 8 b = take 8 (raw st) ∧
    ∀ j, ¬ checksum_field st j →
         view_get (this_buffer st) b j = view_get (this_buffer st) (raw st) j.
Proof.
  intros Hr Hw Hh Hd.
  destruct (reachable_inv RGBA st Hr) as (Hwl & Hlen & _).
  assert (Hp : 0 <= pix_size st) by (rewrite (proj1 Hwl); nia).
  set (m6 := finalize st (adler32 st) (raw st)).
  assert (Efirst : deflate st = (m6, set_raw st m6)) by apply deflate_finalize.
  assert (Ea : adler32 (set_raw st m6) = adler32 st).
  { pose proof (adler32_deflate st Hwl Hw Hh Hd) as Ea.
    now rewrite Efirst in Ea. }
  assert (Ei : finalize st (adler32 st) m6 = m6)
    by exact (finalize_idem st (adler32 st) (raw st) Hwl Hd Hp Hlen).
  assert (Esecond : deflate (set_raw st m6) = (m6, set_raw st m6)).
  { rewrite (deflate_finalize (set_raw st m6)), Ea.
    change (raw (set_raw st m6)) with m6.
    rewrite (finalize_set_raw st m6), Ei. reflexivity. }
  exists m6, (set_raw st m6).
  unfold getBase64, getBuffer. rewrite Esecond, Efirst.
  split; [reflexivity|]. split; [reflexivity|].
  split; [reflexivity|]. split; [reflexivity|].
  split; [reflexivity|]. split; [apply finalize_length|].
  split; [reflexivity|]. split; [reflexivity|].
  split; [apply finalize_signature|].
  intros j Hj.
  pose proof (deflate_get_other st j Hj) as Hget.
  now rewrite Efirst in Hget.
Qed.

End Finalizer.

(** ** The theorems with hypotheses, at concrete images *)

Example base64_of_Man : base64_encode [77; 97; 110; 77; 97] = "TWFuTWE="%string.
Proof. reflexivity. Qed.

Lemma painted_reachable : reachable demo_RGBA painted.
Proof.
  apply (reach_setPixel demo_RGBA two_by_two 0 0 (Name "white")
           (Ok tt) painted []).
  - exact two_by_two_reachable.
  - vm_compute. reflexivity.
Defined.

(** The painted 2x2 image as a PNG file: 106 bytes, the Adler-32 trailer
    [00 0b 00 02] and the last four bytes the CRC-32 of IEND. *)
Example painted_png :
  length (getBuffer painted).1 = 106%nat ∧
  take 8 (getBuffer painted).1 = BUF.PNG_HEAD ∧
  take 4 (drop 86 (getBuffer painted).1) = [0; 11; 0; 2] ∧
  drop 102 (getBuffer painted).1 = [174; 66; 96; 130].
Proof. vm_compute. repeat split. Qed.

(** C1 at the 2x2 image with two palette slots. *)
Lemma layout_planner_sizes_witness :
  ∃ st,
    constructor demo_RGBA 2 2 2 (Some 2) (Some (Name "black")) = Some (Ok st, []) ∧
    pix_size st = 6 ∧ data_size st = 17 ∧ idat_size st = 29 ∧
    byteLength (this_raw st) = 106 ∧
    Z.of_nat (length (getBuffer st).1) = 106.
Proof.
  destruct (layout_planner_sizes demo_RGBA 2 2 2 2 (Some (Name "black")) (0, 0, 0, 255))
    as (st & Hc & Hpix & Hdata & _ & H1 & H2 & H3 & H4 & H5 & _ & _ & _ & _ & _ & _ & Hlen & Hbuf);
    [lia | lia | lia | lia | vm_compute; reflexivity | reflexivity |].
  exists st. rewrite Hbuf, Hlen, H1, H2, H3, H4, H5, Hdata, Hpix.
  split; [exact Hc|]. repeat split.
Defined.

(** C6 at x = -1 in the 2x2 image. *)
Lemma setPixel_outside_witness :
  (inject_Z (-1) < 0 ∨ 0 < 0 ∨ inject_Z (width two_by_two) <= inject_Z (-1)
   ∨ inject_Z (height two_by_two) <= 0)%Q ∧
  setPixel demo_RGBA two_by_two (inject_Z (-1)) 0 (Name "white")
  = (Ok tt, two_by_two, []).
Proof.
  assert (H : (inject_Z (-1) < 0 ∨ 0 < 0 ∨ inject_Z (width two_by_two) <= inject_Z (-1)
               ∨ inject_Z (height two_by_two) <= 0)%Q) by (left; reflexivity).
  split; [exact H|].
  exact (setPixel_outside demo_RGBA two_by_two (inject_Z (-1)) 0 (Name "white") H).
Defined.

(** C7 at the painted 2x2 image. *)
Lemma getBuffer_twice_witness :
  reachable demo_RGBA painted ∧
  0 <= width painted ∧ 0 <= height painted ∧ 1 <= depth painted ∧
  ∃ b st1,
    getBuffer painted = (b, st1) ∧ getBuffer st1 = (b, st1) ∧
    getBase64 base64_encode painted = (base64_encode b, st1) ∧
    getBase64 base64_encode st1 = (base64_encode b, st1).
Proof.
  assert (Hw : 0 <= width painted) by (vm_compute; discriminate).
  assert (Hh : 0 <= height painted) by (vm_compute; discriminate).
  assert (Hd : 1 <= depth painted) by (vm_compute; discriminate).
  split; [exact painted_reachable|]. split; [exact Hw|].
  split; [exact Hh|]. split; [exact Hd|].
  destruct (getBuffer_twice demo_RGBA base64_encode painted painted_reachable Hw Hh Hd)
    as (b & st1 & H1 & H2 & H3 & H4 & _).
  exists b, st1. auto.
Defined.

(** C8 at black, the background of the 2x2 image. *)
Lemma color_registered_idempotent_witness :
  components demo_RGBA (Name "black") None None None = Ok (0, 0, 0, 255) ∧
  color demo_RGBA two_by_two (Name "black") None None None = (Ok (JS.Number 0), two_by_two, []).
Proof.
  assert (Hc : components demo_RGBA (Name "black") None None None = Ok (0, 0, 0, 255))
    by reflexivity.
  split; [exact Hc|].
  apply (proj1 (color_registered_idempotent demo_RGBA two_by_two (Name "black")
                  None None None 0 0 0 255 Hc) 0).
  vm_compute. reflexivity.
Defined.

(** C9 at a name the parser does not know, at pixel (1, 0) of the 2x2
    image. *)
Lemma color_invalid_name_witness :
  demo_RGBA "mauve" = None ∧
  color demo_RGBA two_by_two (Name "mauve") None None None
  = (Throw InvalidColor, two_by_two, []) ∧
  (0 <= 1 ∧ 1 < inject_Z (width two_by_two) ∧ 0 <= 0
   ∧ 0 < inject_Z (height two_by_two))%Q ∧
  setPixel demo_RGBA two_by_two 1 0 (Name "mauve")
  = (Throw InvalidColor, two_by_two, []).
Proof.
  assert (H : demo_RGBA "mauve" = None) by reflexivity.
  assert (Hin : (0 <= 1 ∧ 1 < inject_Z (width two_by_two) ∧ 0 <= 0
                 ∧ 0 < inject_Z (height two_by_two))%Q).
  { split; [vm_compute; discriminate|].
    split; [vm_compute; reflexivity|].
    split; [vm_compute; discriminate | vm_compute; reflexivity]. }
  destruct (color_invalid_name demo_RGBA two_by_two "mauve" None None None 1 0 H)
    as [Hcolor HsetPixel].
  split; [exact H|]. split; [exact Hcolor|]. split; [exact Hin|].
  exact (HsetPixel Hin).
Defined.

(** * Properties of the code beyond the design document *)

(** ** [index]: where pixels live *)

Lemma index_position st x y :
  index st x y
  = idat_offs st + 8 + 2 + 5 * (position st x y / 65535 + 1) + position st x y.
Proof. reflexivity. Qed.

Lemma position_inj st x y x' y' :
  -1 <= x < width st → -1 <= x' < width st →
  position st x y = position st x' y' → x = x' ∧ y = y'.
Proof.
  unfold position. intros Hx Hx' E.
  destruct (Z.lt_trichotomy y y') as [Hlt|[->|Hgt]]; [exfalso; nia | lia | exfalso; nia].
Qed.

Lemma position_range st x y :
  pix_size st = height st * (width st + 1) →
  -1 <= x < width st → 0 <= y < height st →
  0 <= position st x y < pix_size st.
Proof. unfold position. intros -> Hx Hy. nia. Qed.

Lemma index_lt st x y x' y' :
  position st x y < position st x' y' → index st x y < index st x' y'.
Proof.
  intros Hlt. rewrite !index_position.
  pose proof (Z.div_le_mono (position st x y) (position st x' y') 65535
                ltac:(lia) ltac:(lia)).
  lia.
Qed.

Lemma index_position_eq st x y x' y' :
  index st x y = index st x' y' → position st x y = position st x' y'.
Proof.
  intros E.
  destruct (Z.lt_trichotomy (position st x y) (position st x' y')) as [H|[H|H]];
    [|exact H|]; apply index_lt in H; lia.
Qed.

(** X1: two different places of the pixel stream - pixels or filter bytes,
    columns -1 to width - 1 of any rows - never share an address. *)
Theorem index_injective st x y x' y' :
  -1 <= x < width st → -1 <= x' < width st →
  (x, y) ≠ (x', y') → index st x y ≠ index st x' y'.
Proof.
  intros Hx Hx' Hne E. apply Hne.
  apply index_position_eq, position_inj in E; try assumption.
  destruct E as [-> ->]. reflexivity.
Qed.

(** X1 at a pixel and a filter byte of the painted 2x2 image. *)
Lemma index_injective_witness :
  -1 <= 1 < width painted ∧ -1 <= -1 < width painted ∧
  (1, 0) ≠ (-1, 1) ∧ index painted 1 0 ≠ index painted (-1) 1.
Proof.
  assert (H1 : -1 <= 1 < width painted) by (vm_compute; split; discriminate || reflexivity).
  assert (H2 : -1 <= -1 < width painted) by (vm_compute; split; discriminate || reflexivity).
  assert (H3 : (1, 0) ≠ (-1, 1)) by discriminate.
  split; [exact H1|]. split; [exact H2|]. split; [exact H3|].
  exact (index_injective painted 1 0 (-1) 1 H1 H2 H3).
Defined.

Lemma blocks_of_region p : (65534 + p) / 65535 = (p - 1) / 65535 + 1.
Proof.
  replace (65534 + p) with (p - 1 + 1 * 65535) by ring.
  apply Z.div_add. lia.
Qed.

Lemma index_upper st x y :
  well_laid st → -1 <= x < width st → 0 <= y < height st →
  idat_offs st + 15 <= index st x y < adler_field st.
Proof.
  intros Hw Hx Hy.
  pose proof (position_range st x y (proj1 Hw) Hx Hy) as Hi.
  rewrite index_position. unfold adler_field.
  pose proof (Z.div_pos (position st x y) 65535 ltac:(lia) ltac:(lia)).
  pose proof (Z.div_le_mono (position st x y) (pix_size st - 1) 65535
                ltac:(lia) ltac:(lia)).
  pose proof (blocks_of_region (pix_size st)).
  geometry Hw. lia.
Qed.

Lemma index_not_header st x y k :
  0 <= position st x y → 0 <= k <= 32767 →
  ¬ (block_header_offs st k <= index st x y < block_header_offs st k + 5).
Proof.
  intros Hi Hk. rewrite index_position. unfold block_header_offs.
  rewrite shl_16_small, shl_2_small by lia.
  pose proof (Z.div_mod (position st x y) 65535 ltac:(lia)) as Hdm.
  pose proof (Z.mod_pos_bound (position st x y) 65535 ltac:(lia)) as Hr.
  set (q := position st x y / 65535) in *.
  set (r := position st x y mod 65535) in *.
  lia.
Qed.

Lemma index_not_checksum st x y :
  well_laid st → 1 <= depth st →
  -1 <= x < width st → 0 <= y < height st →
  index st x y < buffer_size st ∧ ¬ checksum_field st (index st x y).
Proof.
  intros Hw Hd Hx Hy.
  pose proof (index_upper st x y Hw Hx Hy) as Hrange.
  pose proof (position_range st x y (proj1 Hw) Hx Hy) as Hi.
  assert (Hp : 0 <= pix_size st) by lia.
  pose proof (blocks_nonneg _ Hp) as Hnb.
  unfold checksum_field, in_field, crc_field. unfold adler_field in *.
  geometry Hw. lia.
Qed.

(** X2: every place of the pixel stream of an image lies inside the IDAT
    data: behind the zlib header and the first block header, before the
    Adler-32 trailer (so inside [this.buffer]), on none of the six
    checksum fields and on none of the 5-byte block headers, which stand
    65540 bytes apart. *)
Theorem index_in_pixel_area st x y :
  well_laid st → 1 <= depth st →
  -1 <= x < width st → 0 <= y < height st →
  idat_offs st + 8 + 2 + 5 <= index st x y < adler_field st ∧
  index st x y < buffer_size st ∧
  ¬ checksum_field st (index st x y) ∧
  ∀ k, 0 <= k <= 32767 →
       ¬ (block_header_offs st k <= index st x y < block_header_offs st k + 5).
Proof.
  intros Hw Hd Hx Hy.
  pose proof (index_upper st x y Hw Hx Hy) as Hrange.
  pose proof (position_range st x y (proj1 Hw) Hx Hy) as Hi.
  destruct (index_not_checksum st x y Hw Hd Hx Hy) as [Hbs Hsum].
  split; [lia|]. split; [exact Hbs|]. split; [exact Hsum|].
  intros k Hk. apply index_not_header; lia.
Qed.

(** X2 at the last pixel of the painted 2x2 image. *)
Lemma index_in_pixel_area_witness :
  well_laid painted ∧ 1 <= depth painted ∧
  -1 <= 1 < width painted ∧ 0 <= 1 < height painted ∧
  idat_offs painted + 8 + 2 + 5 <= index painted 1 1 < adler_field painted.
Proof.
  assert (Hw : well_laid painted) by (vm_compute; repeat split; discriminate).
  assert (Hd : 1 <= depth painted) by (vm_compute; discriminate).
  assert (Hx : -1 <= 1 < width painted) by (vm_compute; split; discriminate || reflexivity).
  assert (Hy : 0 <= 1 < height painted) by (vm_compute; split; discriminate || reflexivity).
  split; [exact Hw|]. split; [exact Hd|]. split; [exact Hx|]. split; [exact Hy|].
  exact (proj1 (index_in_pixel_area painted 1 1 Hw Hd Hx Hy)).
Defined.

(** ** The colour key *)

Lemma ToInt32_high z : 2 ^ 31 <= z < 2 ^ 32 → JS.ToInt32 z = z - 2 ^ 32.
Proof.
  intros Hz. unfold JS.ToInt32.
  rewrite <- (Z.mod_unique (z + 2 ^ 31) (2 ^ 32) 1 (z - 2 ^ 31)); lia.
Qed.

Lemma ToInt32_idem z : JS.ToInt32 (JS.ToInt32 z) = JS.ToInt32 z.
Proof. apply ToInt32_small, ToInt32_range. Qed.

Lemma ToInt32_inj x y :
  0 <= x < 2 ^ 32 → 0 <= y < 2 ^ 32 → JS.ToInt32 x = JS.ToInt32 y → x = y.
Proof.
  intros Hx Hy.
  destruct (Z_lt_ge_dec x (2 ^ 31)), (Z_lt_ge_dec y (2 ^ 31));
    rewrite ?(ToInt32_small x), ?(ToInt32_small y),
            ?(ToInt32_high x), ?(ToInt32_high y) by lia; lia.
Qed.

(** [|] on a multiple of [2^k] and a number below [2^k] is their sum. *)
Lemma lor_low x y k :
  0 <= k → 0 <= y < 2 ^ k → Z.lor (x * 2 ^ k) y = x * 2 ^ k + y.
Proof.
  intros Hk Hy. symmetry. apply Z.add_nocarry_lor.
  apply Z.bits_inj'. intros n Hn.
  rewrite Z.land_spec, Z.bits_0.
  destruct (Z_lt_ge_dec n k).
  - rewrite Z.mul_pow2_bits_low by lia. reflexivity.
  - rewrite <- (Z.mod_small y (2 ^ k)) by lia.
    rewrite Z.mod_pow2_bits_high by lia. apply andb_false_r.
Qed.

Lemma shl_8_small x : - 2 ^ 23 <= x < 2 ^ 23 → JS.shl x 8 = x * 2 ^ 8.
Proof.
  intros Hx. unfold JS.shl.
  rewrite (ToInt32_small x) by lia.
  rewrite Z.shiftl_mul_pow2 by lia.
  apply ToInt32_small. lia.
Qed.

Lemma bor_low c y :
  - 2 ^ 31 <= c * 2 ^ 8 < 2 ^ 31 → 0 <= y < 2 ^ 8 →
  JS.bor (c * 2 ^ 8) y = c * 2 ^ 8 + y.
Proof.
  intros Hc Hy. unfold JS.bor.
  rewrite (ToInt32_small (c * 2 ^ 8)), (ToInt32_small y) by lia.
  apply lor_low; lia.
Qed.

(** With byte components the key is the 32-bit number [aarrggbb], read as
    an Int32. *)
Lemma color_key_bytes r g b a :
  0 <= r < 256 → 0 <= g < 256 → 0 <= b < 256 → 0 <= a < 256 →
  color_key r g b a = JS.ToInt32 (a * 2 ^ 24 + r * 2 ^ 16 + g * 2 ^ 8 + b).
Proof.
  intros Hr Hg Hb Ha. unfold color_key.
  rewrite (shl_8_small a) by lia.
  rewrite (bor_low a r) by lia.
  rewrite (shl_8_small (a * 2 ^ 8 + r)) by lia.
  rewrite (bor_low (a * 2 ^ 8 + r) g) by lia.
  set (X := (a * 2 ^ 8 + r) * 2 ^ 8 + g).
  assert (HX : 0 <= X < 2 ^ 24) by (unfold X; lia).
  replace (a * 2 ^ 24 + r * 2 ^ 16 + g * 2 ^ 8 + b) with (X * 2 ^ 8 + b)
    by (unfold X; lia).
  unfold JS.shl, JS.bor.
  rewrite (ToInt32_small X), (ToInt32_small b), ToInt32_idem by lia.
  rewrite Z.shiftl_mul_pow2 by lia.
  destruct (Z_lt_ge_dec (X * 2 ^ 8) (2 ^ 31)).
  - rewrite (ToInt32_small (X * 2 ^ 8)), (ToInt32_small (X * 2 ^ 8 + b)) by lia.
    apply lor_low; lia.
  - rewrite (ToInt32_high (X * 2 ^ 8)), (ToInt32_high (X * 2 ^ 8 + b)) by lia.
    replace (X * 2 ^ 8 - 2 ^ 32) with ((X - 2 ^ 24) * 2 ^ 8) by lia.
    rewrite lor_low by lia. lia.
Qed.

(** X3: colours whose four components are bytes get different keys, so
    the palette never mistakes one of them for another. *)
Theorem color_key_injective r g b a r' g' b' a' :
  0 <= r < 256 → 0 <= g < 256 → 0 <= b < 256 → 0 <= a < 256 →
  0 <= r' < 256 → 0 <= g' < 256 → 0 <= b' < 256 → 0 <= a' < 256 →
  (r, g, b, a) ≠ (r', g', b', a') →
  color_key r g b a ≠ color_key r' g' b' a'.
Proof.
  intros Hr Hg Hb Ha Hr' Hg' Hb' Ha' Hne E. apply Hne.
  rewrite !color_key_bytes in E by assumption.
  apply ToInt32_inj in E; [|lia..].
  assert (r = r' ∧ g = g' ∧ b = b' ∧ a = a') as (-> & -> & -> & ->) by lia.
  reflexivity.
Qed.

(** X3 at white and opaque red. *)
Lemma color_key_injective_witness :
  (255, 255, 255, 255) ≠ (255, 0, 0, 255) ∧
  color_key 255 255 255 255 ≠ color_key 255 0 0 255.
Proof.
  assert (Hne : (255, 255, 255, 255) ≠ (255, 0, 0, 255)) by discriminate.
  split; [exact Hne|].
  apply (color_key_injective 255 255 255 255 255 0 0 255); try lia. exact Hne.
Defined.

(** Outside the byte range the key does alias: [color(256, 0, 0, 254)] is
    taken for the opaque black [color(0, 0, 0, 255)]. *)
Example color_key_alias : color_key 256 0 0 254 = color_key 0 0 0 255.
Proof. reflexivity. Qed.

(** ** [setPixel]: fractional coordinates *)

Lemma Qle_bool_floor_l (x : Q) :
  Qle_bool 0 x = Qle_bool 0 (inject_Z (Qfloor x)).
Proof.
  apply eq_true_iff_eq. rewrite !Qle_bool_iff. split; intros H.
  - apply Qfloor_resp_le in H. change (Qfloor 0) with 0 in H.
    change (inject_Z 0 <= inject_Z (Qfloor x))%Q.
    rewrite <- Zle_Qle. exact H.
  - exact (Qle_trans _ _ _ H (Qfloor_le x)).
Qed.

Lemma Qle_bool_floor_r (w : Z) (x : Q) :
  Qle_bool (inject_Z w) x = Qle_bool (inject_Z w) (inject_Z (Qfloor x)).
Proof.
  apply eq_true_iff_eq. rewrite !Qle_bool_iff. split; intros H.
  - apply Qfloor_resp_le in H. rewrite Qfloor_Z in H.
    now rewrite <- Zle_Qle.
  - exact (Qle_trans _ _ _ H (Qfloor_le x)).
Qed.

Section Fractions.

Variable RGBA : string → option (Z * Z * Z * Z).

(** X4: [setPixel] treats a fractional coordinate as the integer below
    it: the guard of line 127 accepts [x] exactly when it accepts
    [Math.floor(x)], and the pixel written is that of the floors. *)
Theorem setPixel_floor st (x y : Q) rgba :
  setPixel RGBA st x y rgba
  = setPixel RGBA st (inject_Z (Qfloor x)) (inject_Z (Qfloor y)) rgba.
Proof.
  unfold setPixel, Qltb.
  rewrite !Qfloor_Z.
  rewrite (Qle_bool_floor_l x), (Qle_bool_floor_l y).
  rewrite (Qle_bool_floor_r (width st) x), (Qle_bool_floor_r (height st) y).
  reflexivity.
Qed.

End Fractions.

(** ** The palette *)

Section Palette.

Variable RGBA : string → option (Z * Z * Z * Z).

(** A change of the store that spares the bodies of PLTE and tRNS keeps
    the palette in order. *)
Lemma pal_inv_set_raw st m :
  inv RGBA st → pal_inv st →
  (1 <= depth st → 0 <= pix_size st →
   ∀ j, plte_offs st + 8 <= j < plte_offs st + 8 + 3 * depth st ∨
        trns_offs st + 8 <= j < trns_offs st + 8 + depth st →
        view_get (this_buffer st) m j = view_get (this_buffer st) (raw st) j) →
  pal_inv (set_raw st m).
Proof.
  intros (_ & _ & _ & _ & Hv & Hle & _) (Hinj & Honto & Hbytes) Hkeep.
  split; [exact Hinj|]. split; [exact Honto|].
  intros Hd Hp k v Hkv.
  destruct (Hbytes Hd Hp k v Hkv) as (r & g & b & a & -> & E1 & E2 & E3 & E4).
  specialize (Hkeep Hd Hp). specialize (Hle Hd).
  pose proof (Hv _ _ Hkv) as Hrange.
  exists r, g, b, a. split; [reflexivity|].
  unfold palette_entry.
  change (this_buffer (set_raw st m)) with (this_buffer st).
  change (raw (set_raw st m)) with m.
  change (plte_offs (set_raw st m)) with (plte_offs st).
  change (trns_offs (set_raw st m)) with (trns_offs st).
  rewrite !Hkeep by lia. auto.
Qed.

Lemma pal_inv_register st r g b a :
  inv RGBA st → pal_inv st →
  palette st !! color_key r g b a = None → pindex st ≠ depth st →
  pal_inv (register st (color_key r g b a) r g b a).
Proof.
  intros (Hw & Hlen & _ & Hsz & Hv & Hle & _) (Hinj & Honto & Hbytes) Hnew Hne.
  assert (Hpos : 0 <= pindex st) by lia.
  split.
  { intros k k' v. rewrite palette_register.
    intros Hk Hk'.
    apply lookup_insert_Some in Hk as [[<- <-]|[Hk1 Hk]];
      apply lookup_insert_Some in Hk' as [[<- E]|[Hk1' Hk']].
    - reflexivity.
    - specialize (Hv _ _ Hk'). lia.
    - specialize (Hv _ _ Hk). lia.
    - eauto. }
  split.
  { intros v. rewrite pindex_register, palette_register. intros Hrange.
    destruct (Z.eq_dec v (pindex st)) as [->|Hv'].
    - exists (color_key r g b a). apply lookup_insert_eq.
    - destruct (Honto v ltac:(lia)) as [k Hk]. exists k.
      rewrite lookup_insert_ne; [exact Hk | congruence]. }
  intros Hd Hp k v.
  change (depth (register st (color_key r g b a) r g b a)) with (depth st) in Hd.
  change (pix_size (register st (color_key r g b a) r g b a)) with (pix_size st) in Hp.
  specialize (Hle Hd).
  rewrite palette_register. unfold palette_entry.
  change (this_buffer (register st (color_key r g b a) r g b a)) with (this_buffer st).
  change (plte_offs (register st (color_key r g b a) r g b a)) with (plte_offs st).
  change (trns_offs (register st (color_key r g b a) r g b a)) with (trns_offs st).
  intros Hk. apply lookup_insert_Some in Hk as [[<- <-]|[_ Hk]].
  - exists r, g, b, a. split; [reflexivity|].
    exact (register_get_entry st (color_key r g b a) r g b a Hw Hd Hp ltac:(lia) Hlen).
  - destruct (Hbytes Hd Hp k v Hk) as (r0 & g0 & b0 & a0 & -> & E1 & E2 & E3 & E4).
    specialize (Hv _ _ Hk).
    exists r0, g0, b0, a0. split; [reflexivity|].
    geometry Hw.
    rewrite !register_get_other by lia. auto.
Qed.

Lemma pal_inv_color st red green blue alpha res st' log :
  inv RGBA st → pal_inv st →
  color RGBA st red green blue alpha = (res, st', log) → pal_inv st'.
Proof.
  intros Hinv Hpal.
  destruct (color_cases RGBA st red green blue alpha)
    as [(e & _ & ->)|(r & g & b & a & _ & [(ndx & _ & ->)|[(_ & _ & ->)|(Hn & Hd & ->)]])];
    intros [= _ <- _]; auto using pal_inv_register.
Qed.

Lemma pal_inv_setPixel st x y rgba res st' log :
  inv RGBA st → pal_inv st →
  setPixel RGBA st x y rgba = (res, st', log) → pal_inv st'.
Proof.
  intros Hinv Hpal. unfold setPixel.
  destruct (_ || _) eqn:Hguard.
  - intros [= _ <- _]. exact Hpal.
  - apply setPixel_guard in Hguard as [Hx Hy].
    destruct (color RGBA st rgba None None None) as [[[ndx|e] st1] log1] eqn:Hc;
      pose proof (color_lay _ _ _ _ _ _ _ _ _ Hc) as Hlay;
      pose proof (inv_color _ _ _ _ _ _ _ _ _ Hinv Hc) as Hinv1;
      apply (pal_inv_color _ _ _ _ _ _ _ _ Hinv Hpal) in Hc;
      intros [= _ <- _]; [|exact Hc].
    apply pal_inv_set_raw; [exact Hinv1 | exact Hc |].
    intros Hd Hp j Hj.
    pose proof (index_lower st _ _ Hx (proj1 Hy)) as Hlow.
    destruct Hinv1 as (Hw & _).
    pose proof (f_equal idat_offs Hlay) as E1. simpl in E1.
    geometry Hw.
    apply view_get_set_ne; [simpl; lia | lia].
Qed.

Lemma pal_inv_deflate st b st' :
  inv RGBA st → pal_inv st → deflate st = (b, st') → pal_inv st'.
Proof.
  intros Hinv Hpal Hdef.
  assert (Hst' : st' = set_raw st (deflate st).1)
    by (rewrite Hdef; unfold deflate in Hdef; now injection Hdef as <- <-).
  subst st'. apply pal_inv_set_raw; [exact Hinv | exact Hpal |].
  intros Hd Hp j Hj. apply deflate_get_other.
  destruct Hinv as (Hw & _).
  pose proof (blocks_nonneg _ Hp). geometry Hw.
  unfold checksum_field, in_field, adler_field, crc_field. lia.
Qed.

Lemma pal_inv_constructor fuel w h d bgc st log :
  constructor RGBA fuel w h d bgc = Some (Ok st, log) → pal_inv st.
Proof.
  intros Hc.
  destruct (constructor_inv RGBA _ _ _ _ _ _ _ Hc)
    as (_ & _ & Hw & Hlen & _ & _ & _ & _ & r0 & g0 & b0 & a0 & _ & _ & _ & Hbytes).
  destruct (constructor_shape RGBA _ _ _ _ _ _ _ Hc)
    as (st1 & n & r & g & b & a & Hprime & _ & -> & _).
  destruct (prime_shape _ _ _ _ _ _ _ Hprime) as (m & _ & -> & Hlen1 & _).
  set (st1 := set_raw (fields w h d bgc) m) in *.
  split.
  { intros k k' v. rewrite palette_register.
    change (palette st1) with (∅ : gmap Z Z).
    intros Hk Hk'.
    apply lookup_insert_Some in Hk as [[<- _]|[_ Hk]];
      [|rewrite lookup_empty in Hk; discriminate Hk].
    apply lookup_insert_Some in Hk' as [[<- _]|[_ Hk']];
      [reflexivity | rewrite lookup_empty in Hk'; discriminate Hk']. }
  split.
  { intros v. rewrite pindex_register, palette_register.
    change (pindex st1) with 0. intros Hv.
    exists (color_key r g b a). replace v with 0 by lia. apply lookup_insert_eq. }
  intros Hd Hp k v. rewrite palette_register.
  change (palette st1) with (∅ : gmap Z Z). change (pindex st1) with 0.
  intros Hk. apply lookup_insert_Some in Hk as [[<- <-]|[_ Hk]];
    [|rewrite lookup_empty in Hk; discriminate Hk].
  exists r, g, b, a. split; [reflexivity|].
  pose proof (well_laid_fields w h d bgc) as Hw1.
  pose proof (register_get_entry st1 (color_key r g b a) r g b a Hw1 Hd Hp) as He.
  change (pindex st1) with 0 in He.
  exact (He ltac:(change (depth st1) with
                    (depth (register st1 (color_key r g b a) r g b a)); lia) Hlen1).
Qed.

Lemma reachable_pal_inv st : reachable RGBA st → pal_inv st.
Proof.
  induction 1 as [fuel w h d bg st log Hc|st red green blue alpha r st' log Hr IH Hc
                 |st x y rgba r st' log Hr IH Hs|st b st' Hr IH Hd].
  - eapply pal_inv_constructor; eauto.
  - eapply pal_inv_color; eauto using reachable_inv.
  - eapply pal_inv_setPixel; eauto using reachable_inv.
  - eapply pal_inv_deflate; eauto using reachable_inv.
Qed.

(** X5: in every reachable object the palette maps its colour keys one to
    one onto the indices [0 .. pindex - 1]: no two colours share an index,
    no index is skipped, [pindex] counts the colours, and (with a capacity
    of at least 1) there are never more than [depth] of them. *)
Theorem palette_numbering st :
  reachable RGBA st →
  (∀ k k' v, palette st !! k = Some v → palette st !! k' = Some v → k = k') ∧
  (∀ k v, palette st !! k = Some v → 0 <= v < pindex st) ∧
  (∀ v, 0 <= v < pindex st → ∃ k, palette st !! k = Some v) ∧
  pindex st = Z.of_nat (size (palette st)) ∧
  (1 <= depth st → Z.of_nat (size (palette st)) <= depth st).
Proof.
  intros Hr.
  destruct (reachable_inv RGBA st Hr) as (_ & _ & _ & Hsz & Hv & Hle & _).
  destruct (reachable_pal_inv st Hr) as (Hinj & Honto & _).
  split; [exact Hinj|]. split; [exact Hv|]. split; [exact Honto|].
  split; [exact Hsz|]. intros Hd. specialize (Hle Hd). lia.
Qed.

(** X6: in every reachable object (capacity at least 1, pixel region not
    negative) each colour of the palette is the key of components whose
    low bytes stand in its slot: red, green and blue in PLTE at
    [3 * index], alpha in tRNS at [index]. *)
Theorem palette_slots st k v :
  reachable RGBA st → 1 <= depth st → 0 <= pix_size st →
  palette st !! k = Some v →
  ∃ r g b a, k = color_key r g b a ∧ palette_entry st v r g b a.
Proof.
  intros Hr Hd Hp Hk.
  destruct (reachable_pal_inv st Hr) as (_ & _ & Hbytes). eauto.
Qed.

(** X7: with a capacity of at least 1, a number that [color] returns is
    always a palette slot: an index with [0 <= index < depth] under which
    the colour is registered when the call returns, nothing being logged.
    The only other value it returns is the constant [BUF.CODE_NUL], when
    the palette is full and the colour is not in it: then it warns once
    and leaves the object as it was.  Either way the byte that a store
    into the buffer makes of the value is a palette slot. *)
Theorem color_index_in_palette st red green blue alpha v st' log :
  reachable RGBA st → 1 <= depth st →
  color RGBA st red green blue alpha = (Ok v, st', log) →
  ∃ r g b a,
    components RGBA red green blue alpha = Ok (r, g, b, a) ∧
    ((∃ ndx, v = JS.Number ndx ∧ 0 <= ndx < depth st ∧
             palette st' !! color_key r g b a = Some ndx ∧ log = []) ∨
     (v = JS.Bytes BUF.CODE_NUL ∧ palette st' !! color_key r g b a = None ∧
      pindex st = depth st ∧ log = [depth_warning] ∧ st' = st)) ∧
    0 <= JS.ToUint8 (JS.ToElement v) < depth st.
Proof.
  intros Hr Hd Hcall.
  destruct (reachable_inv RGBA st Hr) as (_ & _ & _ & Hsz & Hv & Hle & _).
  specialize (Hle Hd).
  assert (Hbyte : ∀ n, 0 <= n < depth st → 0 <= JS.ToUint8 n < depth st).
  { intros n Hn. unfold JS.ToUint8.
    pose proof (Z.mod_pos_bound n 256 ltac:(lia)).
    pose proof (Z.mod_le n 256 ltac:(lia) ltac:(lia)). lia. }
  destruct (color_cases RGBA st red green blue alpha)
    as [(e & _ & E)|(r & g & b & a & Hc & [(n & Hp & E)|[(Hn & Hfull & E)|(Hn & Hne & E)]])];
    rewrite E in Hcall; [discriminate|..]; injection Hcall as <- <- <-;
    exists r, g, b, a; (split; [exact Hc|]).
  - specialize (Hv _ _ Hp).
    split; [|change (JS.ToElement (JS.Number n)) with n; apply Hbyte; lia].
    left. exists n. split; [reflexivity|]. split; [lia|].
    split; [exact Hp | reflexivity].
  - split; [|change (JS.ToUint8 (JS.ToElement (JS.Bytes BUF.CODE_NUL))) with 0; lia].
    right. auto.
  - split; [|change (JS.ToElement (JS.Number (pindex st))) with (pindex st);
              apply Hbyte; lia].
    left. exists (pindex st). split; [reflexivity|]. split; [lia|].
    split; [|reflexivity]. rewrite palette_register. apply lookup_insert_eq.
Qed.

End Palette.

(** ** Pixels: written where they are read, and nowhere else *)

Lemma this_buffer_offset st : byteOffset (this_buffer st) = 8.
Proof. reflexivity. Qed.

Lemma this_buffer_length st : byteLength (this_buffer st) = buffer_size st.
Proof. reflexivity. Qed.

Lemma index_lay st st' x y : lay st' = lay st → index st' x y = index st x y.
Proof.
  intros H. unfold index.
  pose proof (f_equal width H) as E1. pose proof (f_equal idat_offs H) as E2.
  simpl in E1, E2. now rewrite E1, E2.
Qed.

Lemma index_from_idat st x y :
  -1 <= x < width st → 0 <= y → idat_offs st + 15 <= index st x y.
Proof.
  intros Hx Hy. rewrite index_position.
  assert (Hi : 0 <= position st x y) by (unfold position; nia).
  pose proof (Z.div_pos (position st x y) 65535 Hi ltac:(lia)). lia.
Qed.

Lemma setPixel_inside (w h : Z) (x y : Q) :
  (0 <= x ∧ x < inject_Z w ∧ 0 <= y ∧ y < inject_Z h)%Q →
  Qltb x 0 || Qltb y 0 || Qle_bool (inject_Z w) x || Qle_bool (inject_Z h) y = false.
Proof.
  intros (Hx0 & Hxw & Hy0 & Hyh).
  rewrite !orb_false_iff. unfold Qltb. rewrite !negb_false_iff.
  repeat split.
  - now apply Qle_bool_iff.
  - now apply Qle_bool_iff.
  - apply not_true_is_false. intros H. apply Qle_bool_iff in H.
    exact (Qlt_not_le _ _ Hxw H).
  - apply not_true_is_false. intros H. apply Qle_bool_iff in H.
    exact (Qlt_not_le _ _ Hyh H).
Qed.

Section Pixels.

Variable RGBA : string → option (Z * Z * Z * Z).

(** [color] writes before the IDAT chunk only. *)
Lemma color_get_idat st red green blue alpha res st' log j :
  inv RGBA st → 1 <= depth st →
  color RGBA st red green blue alpha = (res, st', log) →
  idat_offs st <= j →
  view_get (this_buffer st) (raw st') j = view_get (this_buffer st) (raw st) j.
Proof.
  intros (Hw & _ & _ & Hsz & _ & Hle & _) Hd Hcall Hj.
  specialize (Hle Hd).
  destruct (color_cases RGBA st red green blue alpha)
    as [(e & _ & E)|(r & g & b & a & _ & [(n & _ & E)|[(_ & _ & E)|(_ & Hne & E)]])];
    rewrite E in Hcall; injection Hcall as <- <- <-; try reflexivity.
  geometry Hw. apply register_get_other; lia.
Qed.

(** X8: an in-bounds [setPixel] that returns stores at [index(floor x,
    floor y)] the byte of what [color] gave it - the low byte of the index,
    or 0 for the constant [BUF.CODE_NUL] of a full palette -, leaves every
    other place of the pixel stream - the other pixels and all filter
    bytes - as it was, and changes the palette only as that call of
    [color] did. *)
Theorem setPixel_writes_pixel st (x y : Q) rgba st' log :
  reachable RGBA st → 1 <= depth st →
  (0 <= x ∧ x < inject_Z (width st) ∧ 0 <= y ∧ y < inject_Z (height st))%Q →
  setPixel RGBA st x y rgba = (Ok tt, st', log) →
  ∃ v st1,
    color RGBA st rgba None None None = (Ok v, st1, log) ∧
    pixel_byte st' (Qfloor x) (Qfloor y) = Some (JS.ToUint8 (JS.ToElement v)) ∧
    ((∃ ndx, v = JS.Number ndx ∧ JS.ToElement v = ndx) ∨
     (v = JS.Bytes BUF.CODE_NUL ∧ JS.ToElement v = 0)) ∧
    (∀ x' y', -1 <= x' < width st → 0 <= y' →
              (x', y') ≠ (Qfloor x, Qfloor y) →
              pixel_byte st' x' y' = pixel_byte st x' y') ∧
    palette st' = palette st1 ∧ pindex st' = pindex st1.
Proof.
  intros Hr Hd Hin Hset.
  pose proof (reachable_inv RGBA st Hr) as Hinv.
  pose proof (setPixel_inside _ _ _ _ Hin) as Hguard.
  pose proof (setPixel_guard _ _ _ _ Hguard) as [Hx Hy].
  revert Hset. unfold setPixel. rewrite Hguard.
  destruct (color RGBA st rgba None None None) as [[[ndx|e] st1] log1] eqn:Hc;
    [|discriminate].
  intros [= <- <-]. exists ndx, st1. split; [reflexivity|].
  pose proof (color_lay _ _ _ _ _ _ _ _ _ Hc) as Hlay.
  pose proof (inv_color _ _ _ _ _ _ _ _ _ Hinv Hc) as (Hw1 & Hlen1 & _).
  pose proof (lay_view _ _ Hlay) as Hview.
  destruct Hinv as (Hw & _).
  assert (Hin' : -1 <= Qfloor x < width st ∧ 0 <= Qfloor y < height st) by lia.
  pose proof (index_upper st (Qfloor x) (Qfloor y) Hw
                (proj1 Hin') (proj2 Hin')) as Hlo.
  destruct (index_not_checksum st (Qfloor x) (Qfloor y) Hw Hd
              (proj1 Hin') (proj2 Hin')) as (Hhi & _).
  pose proof (f_equal buffer_size Hlay) as Ebs. simpl in Ebs.
  assert (Hidat : 0 <= idat_offs st) by (geometry Hw; lia).
  unfold pixel_byte.
  change (this_buffer (set_raw st1 (view_set (this_buffer st1) (raw st1)
            (index st (Qfloor x) (Qfloor y)) (JS.ToElement ndx))))
    with (this_buffer st1).
  change (raw (set_raw st1 (view_set (this_buffer st1) (raw st1)
            (index st (Qfloor x) (Qfloor y)) (JS.ToElement ndx))))
    with (view_set (this_buffer st1) (raw st1) (index st (Qfloor x) (Qfloor y))
            (JS.ToElement ndx)).
  rewrite Hview.
  split.
  { rewrite (index_lay st (set_raw st1 _)) by (rewrite lay_set_raw; exact Hlay).
    apply view_get_set_eq; rewrite ?this_buffer_offset, ?this_buffer_length; lia. }
  split.
  { destruct (color_cases RGBA st rgba None None None)
      as [(e & _ & E)|(r & g & b & a & _ & [(n & _ & E)|[(_ & _ & E)|(_ & _ & E)]])];
      rewrite E in Hc; [discriminate|..]; injection Hc as <- <- <-.
    - left. exists n. split; reflexivity.
    - right. split; reflexivity.
    - left. exists (pindex st). split; reflexivity. }
  split; [|split; reflexivity].
  intros x' y' Hx' Hy' Hne.
  rewrite (index_lay st (set_raw st1 _)) by (rewrite lay_set_raw; exact Hlay).
  rewrite view_get_set_ne.
  - apply (color_get_idat st _ _ _ _ _ _ _ _ (reachable_inv RGBA st Hr) Hd Hc).
    pose proof (index_from_idat st x' y' Hx' Hy'). lia.
  - rewrite this_buffer_offset. lia.
  - intros E. apply index_position_eq, position_inj in E; [|lia..].
    destruct E as [E1 E2]. congruence.
Qed.

(** X9: a call of [color] never changes pixel data, and neither does
    [getBuffer]: every place of the pixel stream reads the same before and
    after. *)
Theorem pixels_kept st x y :
  reachable RGBA st → 1 <= depth st →
  -1 <= x < width st → 0 <= y < height st →
  (∀ red green blue alpha res st' log,
     color RGBA st red green blue alpha = (res, st', log) →
     pixel_byte st' x y = pixel_byte st x y) ∧
  (∀ b st', getBuffer st = (b, st') → pixel_byte st' x y = pixel_byte st x y).
Proof.
  intros Hr Hd Hx Hy.
  pose proof (reachable_inv RGBA st Hr) as Hinv.
  split.
  - intros red green blue alpha res st' log Hc.
    pose proof (color_lay _ _ _ _ _ _ _ _ _ Hc) as Hlay.
    unfold pixel_byte. rewrite (index_lay st st' x y Hlay), (lay_view _ _ Hlay).
    apply (color_get_idat st _ _ _ _ _ _ _ _ Hinv Hd Hc).
    pose proof (index_from_idat st x y Hx (proj1 Hy)). lia.
  - intros b st' Hb. unfold getBuffer in Hb.
    pose proof (deflate_lay _ _ _ Hb) as Hlay.
    unfold pixel_byte. rewrite (index_lay st st' x y Hlay), (lay_view _ _ Hlay).
    assert (Hraw : raw st' = (deflate st).1)
      by (rewrite Hb; unfold deflate in Hb; now injection Hb as <- <-).
    rewrite Hraw. apply deflate_get_other.
    destruct Hinv as (Hw & _).
    exact (proj2 (index_not_checksum st x y Hw Hd Hx Hy)).
Qed.

End Pixels.

(** ** The constructor: when it returns *)

(** [i << 16] is a multiple of 65536 in the Int32 range. *)
Lemma shl_16_multiple a :
  ∃ c, JS.shl a 16 = c * 65536 ∧ -32768 <= c <= 32767.
Proof.
  unfold JS.shl. rewrite Z.shiftl_mul_pow2 by lia.
  set (t := JS.ToInt32 a). unfold JS.ToInt32.
  exists ((t + 32768) mod 65536 - 32768).
  pose proof (Z.mod_pos_bound (t + 32768) 65536 ltac:(lia)).
  split; [|lia].
  replace (t * 2 ^ 16 + 2 ^ 31) with ((t + 32768) * 65536) by lia.
  change (2 ^ 32) with (65536 * 65536).
  rewrite Z.mul_mod_distr_r by lia. lia.
Qed.

(** From [2^31 - 2^16] bytes on, the guard of the header loop is true for
    every [i]. *)
Lemma block_headers_never st fuel : ∀ m i,
  2 ^ 31 - 2 ^ 16 <= pix_size st → block_headers fuel st m i = None.
Proof.
  induction fuel as [|fuel IH]; intros m i Hp; simpl; [reflexivity|].
  destruct (shl_16_multiple i) as (c & -> & Hc).
  destruct (Z.ltb_spec (c * 65536 - 1) (pix_size st)); [auto | lia].
Qed.

(** Below that, a loop that ends has run [floor(p / 65536) + 1] times. *)
Lemma block_headers_count st fuel : ∀ m i m' n,
  0 <= pix_size st < 2 ^ 31 - 2 ^ 16 →
  0 <= i <= pix_size st / 65536 + 1 →
  block_headers fuel st m i = Some (m', n) → n = pix_size st / 65536 + 1.
Proof.
  induction fuel as [|fuel IH]; intros m i m' n Hp Hi; simpl; [discriminate|].
  assert (Hq : pix_size st / 65536 < 32767) by (apply Z.div_lt_upper_bound; lia).
  pose proof (Z.mul_div_le (pix_size st) 65536 ltac:(lia)) as Hlo.
  pose proof (Z.mul_succ_div_gt (pix_size st) 65536 ltac:(lia)) as Hhi.
  rewrite shl_16_small by lia.
  destruct (Z.ltb_spec (i * 65536 - 1) (pix_size st)) as [Hlt|Hge].
  - apply IH; [exact Hp | lia].
  - intros [= _ <-]. lia.
Qed.

Section Returns.

Variable RGBA : string → option (Z * Z * Z * Z).

(** X10: for dimensions that are not negative, a capacity of at least 1
    and a background that parses, the constructor returns an object
    exactly when the pixel region [h * (w + 1)] is below [2^31 - 2^16]
    bytes ([floor(p / 65536) + 2] units of fuel are enough); from there on
    the header loop of line 64 never ends, because [(i << 16) - 1] stays
    below [2^31 - 2^16] for every [i]. *)
Theorem constructor_returns_iff w h d bgc rgba :
  0 <= w → 0 <= h → 1 <= depth (fields w h d bgc) →
  bg_components RGBA bgc = Ok rgba →
  (h * (w + 1) < 2 ^ 31 - 2 ^ 16 →
   ∃ st, constructor RGBA (Z.to_nat (h * (w + 1) / 65536 + 2)) w h d bgc
         = Some (Ok st, [])) ∧
  (2 ^ 31 - 2 ^ 16 <= h * (w + 1) →
   ∀ fuel, constructor RGBA fuel w h d bgc = None).
Proof.
  intros Hw Hh Hd Hbg. destruct rgba as [[[r g] b] a].
  assert (Hp : 0 <= h * (w + 1)) by nia.
  split.
  - intros Hlt.
    pose proof (Z.div_pos (h * (w + 1)) 65536 Hp ltac:(lia)).
    apply (constructor_returns RGBA _ w h d bgc r g b a); try assumption. lia.
  - intros Hge fuel. unfold constructor, prime, BUF.alloc.
    pose proof (well_laid_fields w h d bgc) as Hwl.
    set (st0 := fields w h d bgc) in *.
    assert (Hpix : pix_size st0 = h * (w + 1)) by reflexivity.
    assert (Hnb : 0 <= (65534 + pix_size st0) / 65535)
      by (apply blocks_nonneg; lia).
    assert (Hbs : 0 <= buffer_size st0) by (geometry Hwl; lia).
    replace (_ + buffer_size st0 <? 0) with false
      by (symmetry; apply Z.ltb_ge; change (length BUF.PNG_HEAD) with 8%nat; lia).
    replace (buffer_size st0 <? 0) with false by (symmetry; apply Z.ltb_ge; lia).
    rewrite block_headers_never by lia. reflexivity.
Qed.

(** X11: for a pixel region [p] from 0 to below [2^31 - 2^16] bytes the
    header loop of the constructor ends within [floor(p / 65536) + 2]
    steps and has then written exactly [floor(p / 65536) + 1] block
    headers; no amount of fuel gives another count. *)
Theorem header_count_exact fuel w h d bgc :
  0 <= h * (w + 1) < 2 ^ 31 - 2 ^ 16 →
  0 <= buffer_size (fields w h d bgc) →
  (h * (w + 1) / 65536 + 1 < Z.of_nat fuel →
   header_count fuel w h d bgc = Some (h * (w + 1) / 65536 + 1)) ∧
  (∀ n, header_count fuel w h d bgc = Some n → n = h * (w + 1) / 65536 + 1).
Proof.
  intros Hp Hbs. split; [exact (header_count_loop fuel w h d bgc Hp Hbs)|].
  intros n. unfold header_count.
  destruct (prime fuel w h d bgc) as [[[st1 n']|e]|] eqn:Hprime; [|discriminate..].
  intros [= <-].
  destruct (prime_shape _ _ _ _ _ _ _ Hprime) as (m & Hbh & _).
  cbv zeta in Hbh.
  assert (Hpix : pix_size (fields w h d bgc) = h * (w + 1)) by reflexivity.
  pose proof (Z.div_pos (h * (w + 1)) 65536 (proj1 Hp) ltac:(lia)).
  rewrite <- Hpix.
  refine (block_headers_count (fields w h d bgc) fuel _ 0 _ _ _ _ Hbh);
    rewrite Hpix; lia.
Qed.

(** X12: a background given by a non-empty name the parser does not know
    makes the constructor throw the invalid-colour error - after the
    buffer has been laid out, so only when the header loop ends - and no
    object is returned. *)
Theorem constructor_rejects_background fuel w h d s :
  0 <= w → 0 <= h → 1 <= depth (fields w h d (Some (Name s))) →
  h * (w + 1) < 2 ^ 31 - 2 ^ 16 →
  h * (w + 1) / 65536 + 1 < Z.of_nat fuel →
  s ≠ EmptyString → RGBA s = None →
  constructor RGBA fuel w h d (Some (Name s)) = Some (Throw InvalidColor, []).
Proof.
  intros Hw Hh Hd Hp Hfuel Hs Hnone.
  pose proof (well_laid_fields w h d (Some (Name s))) as Hwl.
  assert (Hp0 : 0 <= h * (w + 1)) by nia.
  assert (Hpx : pix_size (fields w h d (Some (Name s))) = h * (w + 1))
    by reflexivity.
  assert (Hnb : 0 <= (65534 + pix_size (fields w h d (Some (Name s)))) / 65535)
    by (apply blocks_nonneg; rewrite Hpx; exact Hp0).
  assert (Hbs : 0 <= buffer_size (fields w h d (Some (Name s))))
    by (geometry Hwl; lia).
  destruct (prime_returns fuel w h d (Some (Name s)) Hbs ltac:(lia) Hfuel) as [m Hm].
  unfold constructor. rewrite Hm.
  destruct s as [|c s]; [congruence|].
  cbn [bg_call JS.truthy_string].
  rewrite (color_throw RGBA _ _ _ _ _ InvalidColor); [reflexivity|].
  simpl. now rewrite Hnone.
Qed.

End Returns.

(** ** What the methods leave alone *)

Lemma view_get_set_cross v v' m i x j :
  0 <= byteOffset v → 0 <= byteOffset v' →
  byteOffset v' + i ≠ byteOffset v + j →
  view_get v (view_set v' m i x) j = view_get v m j.
Proof.
  intros Hv Hv' Hne. unfold view_get, view_set.
  destruct ((0 <=? i) && (i <? byteLength v')) eqn:Hi; [|reflexivity].
  destruct ((0 <=? j) && (j <? byteLength v)) eqn:Hj; [|reflexivity].
  apply andb_true_iff in Hi as [Hi _]. apply andb_true_iff in Hj as [Hj _].
  apply Z.leb_le in Hi, Hj.
  apply list_lookup_insert_ne. lia.
Qed.

Lemma writeb_get_cross v v' bytes : ∀ m offs j,
  0 <= byteOffset v → 0 <= byteOffset v' →
  byteOffset v + j < byteOffset v' + offs ∨
  byteOffset v' + offs + Z.of_nat (length bytes) <= byteOffset v + j →
  view_get v (utils.writeb v' m offs bytes).1 j = view_get v m j.
Proof.
  induction bytes as [|b bytes IH]; intros m offs j Hv Hv' Hj; [reflexivity|].
  simpl utils.writeb. simpl length in Hj.
  rewrite IH by lia. apply view_get_set_cross; lia.
Qed.

Lemma lay_proj st st' :
  lay st' = lay st →
  width st' = width st ∧ height st' = height st ∧ depth st' = depth st ∧
  pix_size st' = pix_size st ∧
  ihdr_offs st' = ihdr_offs st ∧ ihdr_size st' = ihdr_size st ∧
  plte_offs st' = plte_offs st ∧ plte_size st' = plte_size st ∧
  trns_offs st' = trns_offs st ∧ trns_size st' = trns_size st ∧
  idat_offs st' = idat_offs st ∧ idat_size st' = idat_size st ∧
  iend_offs st' = iend_offs st ∧ iend_size st' = iend_size st ∧
  buffer_size st' = buffer_size st.
Proof.
  intros H.
  pose proof (f_equal width H). pose proof (f_equal height H).
  pose proof (f_equal depth H). pose proof (f_equal pix_size H).
  pose proof (f_equal ihdr_offs H). pose proof (f_equal ihdr_size H).
  pose proof (f_equal plte_offs H). pose proof (f_equal plte_size H).
  pose proof (f_equal trns_offs H). pose proof (f_equal trns_size H).
  pose proof (f_equal idat_offs H). pose proof (f_equal idat_size H).
  pose proof (f_equal iend_offs H). pose proof (f_equal iend_size H).
  pose proof (f_equal buffer_size H).
  repeat split; assumption.
Qed.

Lemma fixed_place_lay st st' j :
  lay st' = lay st → fixed_place st j → fixed_place st' j.
Proof.
  intros H (Hpal & Hpix & Hsum).
  pose proof (lay_proj _ _ H)
    as (Ew & Eh & Ed & Ep & E1 & E2 & E3 & E4 & E5 & E6 & E7 & E8 & E9 & E10 & E11).
  split; [|split].
  - unfold palette_place in *. rewrite E3, E5, Ed. exact Hpal.
  - intros (x & y & Hx & Hy & ->). apply Hpix. exists x, y.
    rewrite Ew in Hx. rewrite Eh in Hy.
    split; [exact Hx|]. split; [exact Hy|]. apply index_lay. exact H.
  - unfold checksum_field, adler_field in *.
    rewrite E1, E2, E3, E4, E5, E6, E7, E8, E9, E10. exact Hsum.
Qed.

Lemma register_signature st c r g b a :
  take 8 (raw (register st c r g b a)) = take 8 (raw st).
Proof. unfold register. simpl raw. now rewrite !view_set_signature. Qed.

Section Fixed.

Variable RGBA : string → option (Z * Z * Z * Z).

Lemma color_signature st red green blue alpha res st' log :
  color RGBA st red green blue alpha = (res, st', log) →
  take 8 (raw st') = take 8 (raw st).
Proof.
  intros Hcall.
  destruct (color_cases RGBA st red green blue alpha)
    as [(e & _ & E)|(r & g & b & a & _ & [(n & _ & E)|[(_ & _ & E)|(_ & Hne & E)]])];
    rewrite E in Hcall; injection Hcall as <- <- <-; try reflexivity.
  apply register_signature.
Qed.

Lemma color_fixed st red green blue alpha res st' log j :
  inv RGBA st → 1 <= depth st →
  color RGBA st red green blue alpha = (res, st', log) →
  ¬ palette_place st j →
  view_get (this_buffer st) (raw st') j = view_get (this_buffer st) (raw st) j.
Proof.
  intros (Hw & _ & _ & Hsz & _ & Hle & _) Hd Hcall Hj.
  specialize (Hle Hd). unfold palette_place in Hj.
  destruct (color_cases RGBA st red green blue alpha)
    as [(e & _ & E)|(r & g & b & a & _ & [(n & _ & E)|[(_ & _ & E)|(_ & Hne & E)]])];
    rewrite E in Hcall; injection Hcall as <- <- <-; try reflexivity.
  apply register_get_other; lia.
Qed.

Lemma setPixel_signature st x y rgba res st' log :
  setPixel RGBA st x y rgba = (res, st', log) →
  take 8 (raw st') = take 8 (raw st).
Proof.
  unfold setPixel. destruct (_ || _); [intros [= _ <- _]; reflexivity|].
  destruct (color RGBA st rgba None None None) as [[[ndx|e] st1] log1] eqn:Hc;
    intros [= _ <- _].
  - simpl raw. rewrite view_set_signature. exact (color_signature _ _ _ _ _ _ _ _ Hc).
  - exact (color_signature _ _ _ _ _ _ _ _ Hc).
Qed.

Lemma setPixel_fixed st x y rgba res st' log j :
  inv RGBA st → 1 <= depth st →
  setPixel RGBA st x y rgba = (res, st', log) →
  ¬ palette_place st j → ¬ pixel_place st j →
  view_get (this_buffer st) (raw st') j = view_get (this_buffer st) (raw st) j.
Proof.
  intros Hinv Hd Hset Hpal Hpix. revert Hset. unfold setPixel.
  destruct (_ || _) eqn:Hguard; [intros [= _ <- _]; reflexivity|].
  pose proof (setPixel_guard _ _ _ _ Hguard) as [Hx Hy].
  destruct (color RGBA st rgba None None None) as [[[ndx|e] st1] log1] eqn:Hc;
    intros [= _ <- _].
  - simpl raw. rewrite (lay_view _ _ (color_lay _ _ _ _ _ _ _ _ _ Hc)).
    rewrite view_get_set_ne.
    + exact (color_fixed _ _ _ _ _ _ _ _ _ Hinv Hd Hc Hpal).
    + rewrite this_buffer_offset. lia.
    + intros <-. apply Hpix. exists (Qfloor x), (Qfloor y). auto.
  - exact (color_fixed _ _ _ _ _ _ _ _ _ Hinv Hd Hc Hpal).
Qed.

Lemma deflate_signature st b st' :
  deflate st = (b, st') → take 8 (raw st') = take 8 (raw st).
Proof.
  rewrite deflate_finalize. intros [= _ <-]. simpl raw. apply finalize_signature.
Qed.

Lemma deflate_fixed st b st' j :
  deflate st = (b, st') → ¬ checksum_field st j →
  view_get (this_buffer st) (raw st') j = view_get (this_buffer st) (raw st) j.
Proof.
  intros H Hj. rewrite <- (deflate_get_other st j Hj).
  destruct (deflate st) as [b0 st0] eqn:E. injection H as <- <-.
  unfold deflate in E. injection E as <- <-. reflexivity.
Qed.

(** A reachable object still has, at every fixed place, the byte its
    constructor left there. *)
Lemma reachable_origin st :
  reachable RGBA st → 1 <= depth st →
  ∃ fuel w h d bgc st0 log,
    constructor RGBA fuel w h d bgc = Some (Ok st0, log) ∧
    lay st = lay st0 ∧
    take 8 (raw st) = take 8 (raw st0) ∧
    ∀ j, fixed_place st0 j →
         view_get (this_buffer st0) (raw st) j = view_get (this_buffer st0) (raw st0) j.
Proof.
  induction 1 as [fuel w h d bgc st log Hc
                 |st red green blue alpha r st' log Hr IH Hc
                 |st x y rgba r st' log Hr IH Hc
                 |st b st' Hr IH Hc]; intros Hd.
  - exists fuel, w, h, d, bgc, st, log. auto.
  - pose proof (color_lay _ _ _ _ _ _ _ _ _ Hc) as Hlay.
    pose proof (lay_proj _ _ Hlay) as (_ & _ & Ed & _).
    rewrite Ed in Hd.
    destruct (IH Hd) as (fuel & w & h & d & bgc & st0 & log0 & H0 & Hl & Hs & Hf).
    exists fuel, w, h, d, bgc, st0, log0.
    split; [exact H0|]. split; [congruence|].
    split; [rewrite (color_signature _ _ _ _ _ _ _ _ Hc); exact Hs|].
    intros j Hj. rewrite <- (Hf j Hj).
    pose proof (fixed_place_lay _ _ j Hl Hj) as (Hpal & _ & _).
    rewrite <- (lay_view _ _ Hl).
    exact (color_fixed _ _ _ _ _ _ _ _ _ (reachable_inv RGBA st Hr) Hd Hc Hpal).
  - pose proof (setPixel_lay _ _ _ _ _ _ _ _ Hc) as Hlay.
    pose proof (lay_proj _ _ Hlay) as (_ & _ & Ed & _).
    rewrite Ed in Hd.
    destruct (IH Hd) as (fuel & w & h & d & bgc & st0 & log0 & H0 & Hl & Hs & Hf).
    exists fuel, w, h, d, bgc, st0, log0.
    split; [exact H0|]. split; [congruence|].
    split; [rewrite (setPixel_signature _ _ _ _ _ _ _ Hc); exact Hs|].
    intros j Hj. rewrite <- (Hf j Hj).
    pose proof (fixed_place_lay _ _ j Hl Hj) as (Hpal & Hpix & _).
    rewrite <- (lay_view _ _ Hl).
    exact (setPixel_fixed _ _ _ _ _ _ _ _ (reachable_inv RGBA st Hr) Hd Hc Hpal Hpix).
  - pose proof (deflate_lay _ _ _ Hc) as Hlay.
    pose proof (lay_proj _ _ Hlay) as (_ & _ & Ed & _).
    rewrite Ed in Hd.
    destruct (IH Hd) as (fuel & w & h & d & bgc & st0 & log0 & H0 & Hl & Hs & Hf).
    exists fuel, w, h, d, bgc, st0, log0.
    split; [exact H0|]. split; [congruence|].
    split; [rewrite (deflate_signature _ _ _ Hc); exact Hs|].
    intros j Hj. rewrite <- (Hf j Hj).
    pose proof (fixed_place_lay _ _ j Hl Hj) as (_ & _ & Hsum).
    rewrite <- (lay_view _ _ Hl).
    exact (deflate_fixed _ _ _ _ Hc Hsum).
Qed.

(** X13: on a reachable object (capacity at least 1) a call of [color] or
    [setPixel] keeps the 8 signature bytes and every byte of the buffer
    outside the places it is meant to store to: [color] changes only
    palette and transparency entries, [setPixel] only those and the bytes
    of pixels - never a chunk head, a block header, a filter byte or a
    checksum field. *)
Theorem methods_store_only st :
  reachable RGBA st → 1 <= depth st →
  (∀ red green blue alpha res st' log j,
     color RGBA st red green blue alpha = (res, st', log) →
     take 8 (raw st') = take 8 (raw st) ∧
     (¬ palette_place st j →
      view_get (this_buffer st) (raw st') j = view_get (this_buffer st) (raw st) j)) ∧
  (∀ x y rgba res st' log j,
     setPixel RGBA st x y rgba = (res, st', log) →
     take 8 (raw st') = take 8 (raw st) ∧
     (¬ palette_place st j → ¬ pixel_place st j →
      view_get (this_buffer st) (raw st') j = view_get (this_buffer st) (raw st) j)).
Proof.
  intros Hr Hd. pose proof (reachable_inv RGBA st Hr) as Hinv.
  split.
  - intros red green blue alpha res st' log j Hc.
    split; [exact (color_signature _ _ _ _ _ _ _ _ Hc)|].
    exact (color_fixed _ _ _ _ _ _ _ _ _ Hinv Hd Hc).
  - intros x y rgba res st' log j Hc.
    split; [exact (setPixel_signature _ _ _ _ _ _ _ Hc)|].
    exact (setPixel_fixed _ _ _ _ _ _ _ _ Hinv Hd Hc).
Qed.

End Fixed.

(** ** What the constructor leaves in the buffer *)

Lemma block_header_get_other st m i j :
  ¬ (block_header_offs st i <= j < block_header_offs st i + 5) →
  view_get (this_buffer st) (block_header st m i) j = view_get (this_buffer st) m j.
Proof.
  intros Hj. unfold block_header.
  destruct (i + 65535 <? pix_size st).
  - change (view_get (this_buffer st)
              (view_set (this_buffer st)
                 (view_set (this_buffer st)
                    (view_set (this_buffer st)
                       (view_set (this_buffer st)
                          (view_set (this_buffer st) m (block_header_offs st i) 0)
                          (block_header_offs st i + 1) (Z.land 65535 255))
                       (block_header_offs st i + 1 + 1)
                       (Z.land (Z.shiftr 65535 8) 255))
                    (block_header_offs st i + 1 + 1 + 1)
                    (Z.land (JS.bnot 65535) 255))
                 (block_header_offs st i + 1 + 1 + 1 + 1)
                 (Z.land (Z.shiftr (JS.bnot 65535) 8) 255)) j
            = view_get (this_buffer st) m j).
    rewrite !view_get_set_ne by (rewrite ?this_buffer_offset; lia). reflexivity.
  - set (size := pix_size st - JS.shl i 16 - i).
    change (view_get (this_buffer st)
              (view_set (this_buffer st)
                 (view_set (this_buffer st)
                    (view_set (this_buffer st)
                       (view_set (this_buffer st)
                          (view_set (this_buffer st) m (block_header_offs st i) 1)
                          (block_header_offs st i + 1) (Z.land size 255))
                       (block_header_offs st i + 1 + 1)
                       (Z.land (Z.shiftr size 8) 255))
                    (block_header_offs st i + 1 + 1 + 1)
                    (Z.land (JS.bnot size) 255))
                 (block_header_offs st i + 1 + 1 + 1 + 1)
                 (Z.land (Z.shiftr (JS.bnot size) 8) 255)) j
            = view_get (this_buffer st) m j).
    rewrite !view_get_set_ne by (rewrite ?this_buffer_offset; lia). reflexivity.
Qed.

Lemma block_headers_ge fuel st : ∀ m i m' n,
  block_headers fuel st m i = Some (m', n) → i <= n.
Proof.
  induction fuel as [|fuel IH]; intros m i m' n; simpl; [discriminate|].
  destruct (_ <? _).
  - intros H. apply IH in H. lia.
  - intros [= _ <-]. lia.
Qed.

Lemma block_headers_get_other fuel st j : ∀ m i m' n,
  block_headers fuel st m i = Some (m', n) →
  (∀ k, i <= k < n →
        ¬ (block_header_offs st k <= j < block_header_offs st k + 5)) →
  view_get (this_buffer st) m' j = view_get (this_buffer st) m j.
Proof.
  induction fuel as [|fuel IH]; intros m i m' n; simpl; [discriminate|].
  destruct (_ <? _).
  - intros H Hk. pose proof (block_headers_ge _ _ _ _ _ _ H) as Hn.
    rewrite (IH _ _ _ _ H) by (intros k Hik; apply Hk; lia).
    apply block_header_get_other. apply Hk. lia.
  - intros [= <- _] _. reflexivity.
Qed.

Lemma block_header_signature st m i : take 8 (block_header st m i) = take 8 m.
Proof.
  unfold block_header.
  destruct (if i + 65535 <? pix_size st then _ else _) as [size bits].
  pose proof (writeb_signature st bits m (block_header_offs st i)) as E1.
  destruct (utils.writeb _ m _ _) as [m2 o2].
  pose proof (writeb_signature st
                [Z.land size 255; Z.land (Z.shiftr size 8) 255] m2 o2) as E2.
  unfold utils.write2lsb.
  destruct (utils.writeb _ m2 _ _) as [m3 o3].
  rewrite writeb_signature. simpl in E1, E2. congruence.
Qed.

Lemma block_headers_signature fuel st : ∀ m i m' n,
  block_headers fuel st m i = Some (m', n) → take 8 m' = take 8 m.
Proof.
  induction fuel as [|fuel IH]; intros m i m' n; simpl; [discriminate|].
  destruct (_ <? _).
  - intros H. rewrite (IH _ _ _ _ H). apply block_header_signature.
  - intros [= <- _]. reflexivity.
Qed.

(** Where the headers the loop writes lie: 65540 bytes apart from the
    start of the block data, and before the last three bytes of the IDAT
    chunk. *)
Lemma header_place st k :
  well_laid st → 0 <= pix_size st < 2 ^ 31 - 2 ^ 16 →
  0 <= k <= pix_size st / 65536 →
  block_header_offs st k = idat_offs st + 10 + 65540 * k ∧
  block_header_offs st k + 5 <= iend_offs st - 3 ∧
  (1 <= pix_size st → block_header_offs st k + 5 <= adler_field st).
Proof.
  intros Hw Hp Hk.
  assert (Hq : pix_size st / 65536 < 32767) by (apply Z.div_lt_upper_bound; lia).
  pose proof (Z.mul_div_le (pix_size st) 65536 ltac:(lia)) as Hlo.
  unfold block_header_offs, adler_field.
  rewrite shl_16_small, shl_2_small by lia.
  pose proof (blocks_nonneg (pix_size st) ltac:(lia)) as Hnb.
  assert (Hb : 1 <= pix_size st → k + 1 <= (65534 + pix_size st) / 65535)
    by (intros H1; apply Z.div_le_lower_bound; lia).
  geometry Hw.
  split; [lia|]. split; [|lia].
  destruct (Z_lt_ge_dec (pix_size st) 1) as [Hlt|Hge];
    [|specialize (Hb ltac:(lia)); lia].
  assert (pix_size st = 0) as E0 by lia. rewrite E0 in *.
  change (0 / 65536) with 0 in Hk. change ((65534 + 0) / 65535) with 0 in *. lia.
Qed.

(** Lines 39-61 store nothing past the zlib header and before the IEND
    chunk: the block area is as the allocation left it. *)
Lemma init_chunks_get_other st m j :
  well_laid st → 1 <= depth st → 0 <= pix_size st →
  idat_offs st + 10 <= j < iend_offs st →
  view_get (this_buffer st) (init_chunks st m) j = view_get (this_buffer st) m j.
Proof.
  intros Hw Hd Hp Hj.
  pose proof (blocks_nonneg (pix_size st) Hp) as Hnb.
  unfold init_chunks, utils.write4, utils.write2. cbv zeta.
  geometry Hw.
  rewrite (writeb_get_other (this_buffer st))
    by (rewrite ?this_buffer_offset; simpl length; lia).
  rewrite (writeb_get_cross (this_buffer st) (this_raw st))
    by (rewrite ?this_buffer_offset; simpl; lia).
  rewrite !(writeb_get_other (this_buffer st))
    by (rewrite ?this_buffer_offset; simpl length; lia).
  reflexivity.
Qed.

Lemma view_get_replicate v n i :
  0 <= i < byteLength v → 0 <= byteOffset v →
  byteOffset v + byteLength v <= Z.of_nat n →
  view_get v (replicate n 0) i = Some 0.
Proof.
  intros Hi Hv Hn. unfold view_get.
  replace ((0 <=? i) && (i <? byteLength v)) with true
    by (symmetry; apply andb_true_iff; split; [apply Z.leb_le | apply Z.ltb_lt]; lia).
  apply lookup_replicate_2. lia.
Qed.

Section Fresh.

Variable RGBA : string → option (Z * Z * Z * Z).

(** The store of a constructed object: the zeroed allocation, the chunk
    skeleton, the block headers, the background's palette entry. *)
Lemma constructor_store fuel w h d bgc st log :
  constructor RGBA fuel w h d bgc = Some (Ok st, log) →
  1 <= depth st → 0 <= pix_size st →
  let st0 := fields w h d bgc in
  let m0 := replicate (Z.to_nat (Z.of_nat (length BUF.PNG_HEAD) + buffer_size st0)) 0 in
  lay st = st0 ∧ well_laid st0 ∧ 0 <= buffer_size st0 ∧
  pix_size st0 < 2 ^ 31 - 2 ^ 16 ∧
  take 8 (raw st) = take 8 (init_chunks st0 m0) ∧
  (∀ j, ¬ palette_place st0 j →
        (idat_offs st0 + 10 <= j → iend_offs st0 - 3 <= j) →
        view_get (this_buffer st0) (raw st) j
        = view_get (this_buffer st0) (init_chunks st0 m0) j) ∧
  (∀ j, idat_offs st0 + 10 <= j < iend_offs st0 →
        (∀ k, 0 <= k <= pix_size st0 / 65536 →
              ¬ (block_header_offs st0 k <= j < block_header_offs st0 k + 5)) →
        view_get (this_buffer st0) (raw st) j = Some 0).
Proof.
  intros Hc Hd Hp st0 m0.
  destruct (constructor_inv RGBA _ _ _ _ _ _ _ Hc) as (Hlay & Hpi & Hinv).
  destruct (constructor_shape _ _ _ _ _ _ _ _ Hc)
    as (st1 & n & r & g & b & a & Hprime & _ & -> & _).
  destruct (prime_shape _ _ _ _ _ _ _ Hprime) as (m & Hbh & -> & Hlen & Hbs).
  fold st0 in Hbh, Hlen, Hbs, Hlay. fold m0 in Hbh. fold st0.
  assert (Hp0 : 0 <= pix_size st0) by exact Hp.
  assert (Hd0 : 1 <= depth st0) by exact Hd.
  clear Hp Hd.
  pose proof (well_laid_fields w h d bgc) as Hw. fold st0 in Hw.
  assert (Hlt : pix_size st0 < 2 ^ 31 - 2 ^ 16).
  { destruct (Z_lt_ge_dec (pix_size st0) (2 ^ 31 - 2 ^ 16)) as [H|H]; [exact H|].
    rewrite block_headers_never in Hbh by lia. discriminate. }
  pose proof (Z.div_pos (pix_size st0) 65536 Hp0 ltac:(lia)) as Hq.
  assert (Hn : n = pix_size st0 / 65536 + 1).
  { refine (block_headers_count st0 fuel _ 0 _ _ _ _ Hbh); lia. }
  split; [exact Hlay|]. split; [exact Hw|]. split; [exact Hbs|]. split; [exact Hlt|].
  assert (Hreg : ∀ j, ¬ palette_place st0 j →
            view_get (this_buffer st0)
              (raw (register (set_raw st0 m) (color_key r g b a) r g b a)) j
            = view_get (this_buffer st0) m j).
  { intros j Hj. unfold palette_place in Hj.
    change (this_buffer st0) with (this_buffer (set_raw st0 m)).
    rewrite register_get_other;
      try (change (pindex (set_raw st0 m)) with 0;
           change (plte_offs (set_raw st0 m)) with (plte_offs st0);
           change (trns_offs (set_raw st0 m)) with (trns_offs st0); lia).
    reflexivity. }
  split.
  { rewrite register_signature. change (raw (set_raw st0 m)) with m.
    exact (block_headers_signature _ _ _ _ _ _ Hbh). }
  split.
  { intros j Hj Hout.
    rewrite (Hreg j Hj).
    apply (block_headers_get_other _ _ _ _ _ _ _ Hbh).
    intros k Hk.
    destruct (header_place st0 k Hw ltac:(lia) ltac:(lia)) as (Hlo & Hhi & _).
    lia. }
  intros j Hj Hk.
  assert (Hpal : ¬ palette_place st0 j).
  { unfold palette_place. geometry Hw. lia. }
  rewrite (Hreg j Hpal).
  rewrite (block_headers_get_other _ _ _ _ _ _ _ Hbh)
    by (intros k Hik; apply Hk; lia).
  rewrite init_chunks_get_other by assumption.
  apply view_get_replicate.
  - rewrite this_buffer_length. geometry Hw. lia.
  - rewrite this_buffer_offset. lia.
  - rewrite this_buffer_offset, this_buffer_length.
    change (length BUF.PNG_HEAD) with 8%nat. lia.
Qed.

End Fresh.

(** ** The skeleton of the file *)

Lemma holds_app st offs xs ys :
  holds st offs xs → holds st (offs + Z.of_nat (length xs)) ys →
  holds st offs (xs ++ ys).
Proof.
  intros Hx Hy k b Hk. apply lookup_app_Some in Hk as [Hk|[Hlen Hk]].
  - exact (Hx k b Hk).
  - specialize (Hy _ _ Hk).
    replace (offs + Z.of_nat k)
      with (offs + Z.of_nat (length xs) + Z.of_nat (k - length xs)) by lia.
    exact Hy.
Qed.

Lemma holds_ext st st' offs bytes :
  this_buffer st' = this_buffer st →
  (∀ j, offs <= j < offs + Z.of_nat (length bytes) →
        view_get (this_buffer st) (raw st') j = view_get (this_buffer st) (raw st) j) →
  holds st offs bytes → holds st' offs bytes.
Proof.
  intros Hv Hsame H k b Hk. rewrite Hv.
  pose proof (lookup_lt_Some _ _ _ Hk) as Hlt.
  rewrite Hsame by lia. exact (H k b Hk).
Qed.

Lemma be32_bytes x : Forall (λ b, JS.ToUint8 b = b) (utils.be32 x).
Proof. unfold utils.be32. repeat constructor; apply ToUint8_byte. Qed.

(** What a [writeb] leaves at its own place. *)
Lemma writeb_holds v bytes m offs k b :
  0 <= byteOffset v → 0 <= offs →
  offs + Z.of_nat (length bytes) <= byteLength v →
  byteOffset v + byteLength v <= Z.of_nat (length m) →
  Forall (λ b, JS.ToUint8 b = b) bytes →
  bytes !! k = Some b →
  view_get v (utils.writeb v m offs bytes).1 (offs + Z.of_nat k) = Some b.
Proof.
  intros Hv Ho Hlen Hm Hall Hk.
  rewrite (writeb_get_in v bytes m offs k b) by assumption.
  rewrite Forall_lookup in Hall. now rewrite (Hall _ _ Hk).
Qed.

(** Line 58: the signature, written through [this.raw]. *)
Lemma writeb_raw_head st m :
  0 <= buffer_size st → 8 + buffer_size st <= Z.of_nat (length m) →
  take 8 (utils.writeb (this_raw st) m 0 BUF.PNG_HEAD).1 = BUF.PNG_HEAD.
Proof.
  intros Hbs Hm. apply list_eq. intros i.
  destruct (decide (i < 8)%nat) as [Hi|Hi].
  - rewrite lookup_take_lt by exact Hi.
    destruct (lookup_lt_is_Some_2 BUF.PNG_HEAD i Hi) as [b Hb]. rewrite Hb.
    assert (H : view_get (this_raw st)
                  (utils.writeb (this_raw st) m 0 BUF.PNG_HEAD).1 (0 + Z.of_nat i)
                = Some b).
    { apply writeb_holds; try (simpl; lia); [|exact Hb]. repeat constructor. }
    unfold view_get in H.
    replace ((0 <=? 0 + Z.of_nat i) && (0 + Z.of_nat i <? byteLength (this_raw st)))
      with true in H
      by (symmetry; apply andb_true_iff; split;
          [apply Z.leb_le | apply Z.ltb_lt]; simpl; lia).
    replace (Z.to_nat (byteOffset (this_raw st) + (0 + Z.of_nat i))) with i in H
      by (simpl; lia).
    exact H.
  - rewrite lookup_take_ge by lia. symmetry. apply lookup_ge_None_2. simpl. lia.
Qed.

Ltac chunk_piece :=
  let k := fresh "k" in
  let b := fresh "b" in
  let Hk := fresh "Hk" in
  let Hlt := fresh "Hlt" in
  intros k b Hk; pose proof (lookup_lt_Some _ _ _ Hk) as Hlt; simpl length in Hlt;
  unfold init_chunks, utils.write4, utils.write2; cbv zeta;
  rewrite ?writeb_get_cross by (simpl; lia);
  match goal with
  | |- view_get ?v (utils.writeb ?v' ?M ?o ?bs).1 ?j = _ =>
      replace j with (o + Z.of_nat k) by (simpl; lia);
      apply writeb_holds;
      [ simpl; lia | simpl; lia | simpl; lia
      | rewrite ?writeb_length; simpl; lia
      | try apply be32_bytes; repeat constructor
      | exact Hk ]
  end.

(** Lines 39-61 on a zeroed allocation. *)
Lemma init_chunks_skeleton st m :
  well_laid st → 1 <= depth st → 0 <= pix_size st →
  Z.of_nat (length m) = 8 + buffer_size st →
  (∀ j, 18 <= j < 21 → view_get (this_buffer st) m j = Some 0) →
  skeleton (set_raw st (init_chunks st m)).
Proof.
  intros Hw Hd Hp Hlen Hzero.
  pose proof (blocks_nonneg (pix_size st) Hp) as Hnb.
  unfold skeleton.
  change (ihdr_offs (set_raw st (init_chunks st m))) with (ihdr_offs st).
  change (ihdr_size (set_raw st (init_chunks st m))) with (ihdr_size st).
  change (plte_offs (set_raw st (init_chunks st m))) with (plte_offs st).
  change (plte_size (set_raw st (init_chunks st m))) with (plte_size st).
  change (trns_offs (set_raw st (init_chunks st m))) with (trns_offs st).
  change (trns_size (set_raw st (init_chunks st m))) with (trns_size st).
  change (idat_offs (set_raw st (init_chunks st m))) with (idat_offs st).
  change (idat_size (set_raw st (init_chunks st m))) with (idat_size st).
  change (iend_offs (set_raw st (init_chunks st m))) with (iend_offs st).
  change (iend_size (set_raw st (init_chunks st m))) with (iend_size st).
  change (width (set_raw st (init_chunks st m))) with (width st).
  change (height (set_raw st (init_chunks st m))) with (height st).
  assert (Hpiece : ∀ offs bytes,
            (∀ k b, bytes !! k = Some b →
                    view_get (this_buffer st) (init_chunks st m) (offs + Z.of_nat k)
                    = Some b) →
            holds (set_raw st (init_chunks st m)) offs bytes)
    by (intros offs bytes H; exact H).
  geometry Hw.
  split.
  { change (raw (set_raw st (init_chunks st m))) with (init_chunks st m).
    unfold init_chunks, utils.write2, utils.write4. cbv zeta.
    rewrite writeb_signature.
    apply writeb_raw_head; [lia|]. rewrite !writeb_length. lia. }
  split; [|split; [|split; [|split]]].
  - change [8; 3; 0; 0; 0] with ([8; 3] ++ [0; 0; 0]).
    repeat apply holds_app; apply Hpiece; try chunk_piece.
    intros k b Hk. pose proof (lookup_lt_Some _ _ _ Hk) as Hlt. simpl length in Hlt.
    unfold init_chunks, utils.write4, utils.write2; cbv zeta.
    rewrite ?writeb_get_cross by (simpl; lia).
    rewrite Hzero by (simpl; lia).
    destruct k as [|[|[|k]]]; [| | |simpl in Hlt; lia];
      inversion Hk; reflexivity.
  - repeat apply holds_app; apply Hpiece; chunk_piece.
  - repeat apply holds_app; apply Hpiece; chunk_piece.
  - repeat apply holds_app; apply Hpiece; chunk_piece.
  - repeat apply holds_app; apply Hpiece; chunk_piece.
Qed.

Lemma skeleton_ext st st' :
  well_laid st → 1 <= depth st → 0 <= pix_size st →
  lay st' = lay st → take 8 (raw st') = take 8 (raw st) →
  (∀ j, j < idat_offs st + 10 ∨ iend_offs st <= j →
        ¬ palette_place st j → ¬ checksum_field st j →
        view_get (this_buffer st) (raw st') j = view_get (this_buffer st) (raw st) j) →
  skeleton st → skeleton st'.
Proof.
  intros Hw Hd Hp Hlay Hsig Hsame (S0 & S1 & S2 & S3 & S4 & S5).
  pose proof (lay_proj _ _ Hlay)
    as (Ew & Eh & Ed & Ep & E1 & E2 & E3 & E4 & E5 & E6 & E7 & E8 & E9 & E10 & E11).
  pose proof (lay_view _ _ Hlay) as Hv.
  pose proof (blocks_nonneg (pix_size st) Hp) as Hnb.
  unfold skeleton. rewrite Ew, Eh, E1, E2, E3, E4, E5, E6, E7, E8, E9, E10, Hsig.
  assert (Hone : ∀ offs bytes,
            (∀ j, offs <= j < offs + Z.of_nat (length bytes) →
                  (j < idat_offs st + 10 ∨ iend_offs st <= j) ∧
                  ¬ palette_place st j ∧ ¬ checksum_field st j) →
            holds st offs bytes → holds st' offs bytes).
  { intros offs bytes Hin. apply holds_ext; [exact Hv|].
    intros j Hj. destruct (Hin j Hj) as (Ha & Hb & Hc). now apply Hsame. }
  unfold palette_place, checksum_field, in_field, adler_field, crc_field in Hone.
  geometry Hw.
  split; [exact S0|].
  split; [|split; [|split; [|split]]].
  - revert S1. apply Hone. intros j. simpl length. lia.
  - revert S2. apply Hone. intros j. simpl length. lia.
  - revert S3. apply Hone. intros j. simpl length. lia.
  - revert S4. apply Hone. intros j. simpl length. lia.
  - revert S5. apply Hone. intros j. simpl length. lia.
Qed.

Lemma fmap_seqZ_const {A} (f : Z → A) (c : A) m n :
  (∀ k, m <= k < m + n → f k = c) → f <$> seqZ m n = replicate (Z.to_nat n) c.
Proof.
  intros H. transitivity ((λ _, c) <$> seqZ m n).
  - apply list_fmap_ext. intros i k Hk%lookup_seqZ. apply H. lia.
  - rewrite <- (length_seqZ m n). apply const_fmap. reflexivity.
Qed.

Lemma concat_replicate_zero (n m : nat) :
  concat (replicate n (replicate m 0)) = replicate (n * m) 0.
Proof.
  induction n as [|n IH]; [reflexivity|].
  cbn [replicate concat]. rewrite IH, <- replicate_add. reflexivity.
Qed.

Section Skeleton.

Variable RGBA : string → option (Z * Z * Z * Z).

Lemma constructor_skeleton fuel w h d bgc st log :
  constructor RGBA fuel w h d bgc = Some (Ok st, log) →
  1 <= depth st → 0 <= pix_size st → skeleton st.
Proof.
  intros Hc Hd Hp.
  destruct (constructor_store RGBA _ _ _ _ _ _ _ Hc Hd Hp)
    as (Hlay & Hw & Hbs & Hlt & Hsig & Hsame & _).
  set (st0 := fields w h d bgc) in *.
  set (m0 := replicate _ 0) in *.
  pose proof (lay_proj _ _ (eq_trans Hlay (eq_sym (lay_fields w h d bgc))))
    as (_ & _ & Ed & Ep & _).
  fold st0 in Ed, Ep. rewrite Ed in Hd. rewrite Ep in Hp.
  pose proof (blocks_nonneg (pix_size st0) Hp) as Hnb.
  assert (Hm0 : Z.of_nat (length m0) = 8 + buffer_size st0).
  { unfold m0. rewrite length_replicate.
    change (length BUF.PNG_HEAD) with 8%nat. lia. }
  apply (skeleton_ext (set_raw st0 (init_chunks st0 m0))); try assumption.
  - intros j Hj Hpal _. apply Hsame; [exact Hpal|].
    change (idat_offs (set_raw st0 (init_chunks st0 m0))) with (idat_offs st0) in Hj.
    change (iend_offs (set_raw st0 (init_chunks st0 m0))) with (iend_offs st0) in Hj.
    lia.
  - apply init_chunks_skeleton; try assumption.
    intros j Hj. apply view_get_replicate.
    + rewrite this_buffer_length. pose proof Hw as Hw'. geometry Hw'. lia.
    + rewrite this_buffer_offset. lia.
    + rewrite this_buffer_offset, this_buffer_length.
      change (length BUF.PNG_HEAD) with 8%nat. lia.
Qed.

(** The pixel area of a constructed image is as the allocation left it. *)
Lemma constructor_blank fuel w h d bgc st log x y :
  constructor RGBA fuel w h d bgc = Some (Ok st, log) →
  1 <= depth st → -1 <= x < width st → 0 <= y < height st →
  pixel_byte st x y = Some 0.
Proof.
  intros Hc Hd Hx Hy.
  pose proof (constructor_inv RGBA _ _ _ _ _ _ _ Hc) as (_ & _ & (Hwl & _)).
  pose proof (position_range st x y ltac:(geometry Hwl; assumption) Hx Hy) as Hpos.
  destruct (constructor_store RGBA _ _ _ _ _ _ _ Hc Hd ltac:(lia))
    as (Hlay & Hw & Hbs & Hlt & _ & _ & Hzero).
  set (st0 := fields w h d bgc) in *.
  pose proof (eq_trans Hlay (eq_sym (lay_fields w h d bgc))) as Hl.
  fold st0 in Hl.
  pose proof (lay_proj _ _ Hl) as (Ew & Eh & _ & Ep & _).
  unfold pixel_byte. rewrite (lay_view _ _ Hl), (index_lay _ _ x y Hl).
  rewrite Ew in Hx. rewrite Eh in Hy.
  assert (Hpos0 : 0 <= position st0 x y < pix_size st0).
  { unfold position in *. rewrite <- Ew, <- Ep. exact Hpos. }
  pose proof (index_upper st0 x y Hw Hx Hy) as Hi.
  apply Hzero.
  - unfold adler_field in Hi. pose proof Hw as Hw'. geometry Hw'. lia.
  - intros k Hk. apply index_not_header; [lia|].
    assert (pix_size st0 / 65536 < 32767) by (apply Z.div_lt_upper_bound; lia).
    lia.
Qed.

(** X14: the pixel area of a freshly constructed image is blank: every
    pixel byte and every filter byte reads 0, the palette index of the
    background, so the pixel stream is [height * (width + 1)] zero
    bytes. *)
Theorem fresh_image_blank fuel w h d bgc st log :
  constructor RGBA fuel w h d bgc = Some (Ok st, log) →
  1 <= depth st → 0 <= width st → 0 <= height st →
  (∀ x y, -1 <= x < width st → 0 <= y < height st → pixel_byte st x y = Some 0) ∧
  pixel_stream st = replicate (Z.to_nat (pix_size st)) 0.
Proof.
  intros Hc Hd Hwd Hht.
  assert (Hall : ∀ x y, -1 <= x < width st → 0 <= y < height st →
                        pixel_byte st x y = Some 0)
    by (intros x y; exact (constructor_blank fuel w h d bgc st log x y Hc Hd)).
  split; [exact Hall|].
  pose proof (constructor_inv RGBA _ _ _ _ _ _ _ Hc) as (_ & _ & (Hwl & _)).
  rewrite (proj1 Hwl).
  assert (Hrow : ∀ y, 0 <= y < height st →
                      pixel_row st y = replicate (Z.to_nat (width st + 1)) 0).
  { intros y Hy. unfold pixel_row.
    apply fmap_seqZ_const. intros x Hx. rewrite Hall by lia. reflexivity. }
  unfold pixel_stream.
  assert (Hrows : pixel_row st <$> seqZ 0 (height st)
                  = replicate (Z.to_nat (height st))
                      (replicate (Z.to_nat (width st + 1)) 0)).
  { apply fmap_seqZ_const. intros y Hy. apply Hrow. lia. }
  rewrite Hrows, Z2Nat.inj_mul by lia.
  apply concat_replicate_zero.
Qed.

Lemma filter_place_fixed st y :
  well_laid st → 1 <= depth st → 0 <= width st → 0 <= y < height st →
  fixed_place st (index st (-1) y).
Proof.
  intros Hw Hd Hwd Hy.
  pose proof (index_upper st (-1) y Hw ltac:(lia) Hy) as Hi.
  assert (Hp : 0 <= pix_size st) by (geometry Hw; nia).
  pose proof (blocks_nonneg (pix_size st) Hp) as Hnb.
  split; [|split].
  - unfold palette_place. geometry Hw. lia.
  - intros (x' & y' & Hx' & Hy' & E).
    apply index_position_eq, position_inj in E; lia.
  - unfold checksum_field, in_field, adler_field, crc_field in *. geometry Hw. lia.
Qed.

(** X15: in every reachable object (capacity at least 1) the filter byte
    that starts each scanline is 0, the value the allocation gave it: no
    method stores to [index(-1, y)]. *)
Theorem filter_bytes_zero st y :
  reachable RGBA st → 1 <= depth st → 0 <= width st → 0 <= y < height st →
  pixel_byte st (-1) y = Some 0.
Proof.
  intros Hr Hd Hwd Hy.
  destruct (reachable_origin RGBA st Hr Hd)
    as (fuel & w & h & d & bgc & st0 & log0 & Hc & Hl & _ & Hsame).
  pose proof (lay_proj _ _ Hl) as (Ew & Eh & Ed & _).
  pose proof (constructor_inv RGBA _ _ _ _ _ _ _ Hc) as (_ & _ & (Hw0 & _)).
  rewrite Ew in Hwd. rewrite Eh in Hy. rewrite Ed in Hd.
  unfold pixel_byte. rewrite (lay_view _ _ Hl), (index_lay _ _ (-1) y Hl).
  rewrite (Hsame _ (filter_place_fixed st0 y Hw0 Hd Hwd Hy)).
  apply (constructor_blank fuel w h d bgc st0 log0 (-1) y Hc Hd); lia.
Qed.

Lemma reachable_skeleton st :
  reachable RGBA st → 1 <= depth st → 0 <= pix_size st → skeleton st.
Proof.
  intros Hr Hd Hp.
  destruct (reachable_origin RGBA st Hr Hd)
    as (fuel & w & h & d & bgc & st0 & log0 & Hc & Hl & Hsig & Hsame).
  pose proof (lay_proj _ _ Hl) as (_ & _ & Ed & Ep & _).
  pose proof (constructor_inv RGBA _ _ _ _ _ _ _ Hc) as (_ & _ & (Hw0 & _)).
  rewrite Ed in Hd. rewrite Ep in Hp.
  apply (skeleton_ext st0 st Hw0 Hd Hp Hl Hsig).
  - intros j Hj Hpal Hsum. apply Hsame. split; [exact Hpal|]. split; [|exact Hsum].
    intros (x & y & Hx & Hy & ->).
    pose proof (index_upper st0 x y Hw0 ltac:(lia) Hy) as Hi.
    unfold adler_field in Hi. geometry Hw0. lia.
  - exact (constructor_skeleton _ _ _ _ _ _ _ Hc Hd Hp).
Qed.

(** X16: every reachable object (capacity at least 1, pixel region not
    negative) keeps the skeleton the constructor laid down: the 8-byte
    signature, the length and type tag at the head of each of the five
    chunks, the IHDR body (width and height big-endian, bit depth 8,
    colour type 3, compression, filter and interlace 0) and the zlib
    header 0x78 0xda; so does the file [getBuffer] returns, which starts
    with the signature. *)
Theorem skeleton_kept st :
  reachable RGBA st → 1 <= depth st → 0 <= pix_size st →
  skeleton st ∧
  ∀ b st', getBuffer st = (b, st') → skeleton st' ∧ take 8 b = BUF.PNG_HEAD.
Proof.
  intros Hr Hd Hp. split; [exact (reachable_skeleton st Hr Hd Hp)|].
  intros b st' Hb. unfold getBuffer in Hb.
  pose proof (lay_proj _ _ (deflate_lay _ _ _ Hb)) as (_ & _ & Ed & Ep & _).
  assert (Hs : skeleton st').
  { apply reachable_skeleton; [exact (reach_deflate RGBA st b st' Hr Hb)|lia..]. }
  split; [exact Hs|].
  assert (Hraw : raw st' = b) by (unfold deflate in Hb; now injection Hb as <- <-).
  rewrite <- Hraw. exact (proj1 Hs).
Qed.

(** X17: an image whose pixel region fits one stored block (1 to 65535
    bytes) has, in every reachable state, its only block header in place:
    the flag byte 1 (final block), the length of the pixel region
    little-endian, and its one's complement little-endian. *)
Theorem single_block_header_kept st :
  reachable RGBA st → 1 <= depth st → 1 <= pix_size st <= 65535 →
  read_block_header st 0
  = [Some 1;
     Some (Z.land (pix_size st) 255);
     Some (Z.land (Z.shiftr (pix_size st) 8) 255);
     Some (Z.land (Z.lnot (pix_size st)) 255);
     Some (Z.land (Z.shiftr (Z.lnot (pix_size st)) 8) 255)].
Proof.
  intros Hr Hd Hp.
  destruct (reachable_origin RGBA st Hr Hd)
    as (fuel & w & h & d & bgc & st0 & log0 & Hc & Hl & _ & Hsame).
  pose proof (lay_proj _ _ Hl)
    as (_ & _ & Ed & Ep & _ & _ & _ & _ & _ & _ & Ei & _).
  pose proof (constructor_inv RGBA _ _ _ _ _ _ _ Hc) as (_ & _ & (Hw0 & _)).
  rewrite Ed in Hd. rewrite Ep in *.
  destruct (single_block_header RGBA _ _ _ _ _ _ _ Hc Hd Hp) as (_ & Hcount & Hread).
  unfold spec_block_header in Hread. rewrite Hcount in Hread.
  change (0 =? 1 - 1) with true in Hread. cbv iota zeta in Hread.
  replace (pix_size st0 - 65535 * 0) with (pix_size st0) in Hread by lia.
  transitivity (read_block_header st0 0); [|rewrite Hread; reflexivity].
  clear Hread. unfold read_block_header, block_header_offs.
  rewrite Ei, (lay_view _ _ Hl).
  change (JS.shl 0 16) with 0. change (JS.shl 0 2) with 0.
  pose proof (blocks_nonneg (pix_size st0) ltac:(lia)) as Hnb.
  assert (HB : 1 <= (65534 + pix_size st0) / 65535)
    by (apply Z.div_le_lower_bound; lia).
  assert (Hfix : ∀ k, 0 <= k < 5 → fixed_place st0 (idat_offs st0 + 8 + 2 + 0 + 0 + k)).
  { intros k Hk. split; [|split].
    - unfold palette_place. geometry Hw0. lia.
    - intros (x & y & Hx & Hy & E).
      pose proof (index_upper st0 x y Hw0 ltac:(lia) Hy) as Hi. lia.
    - unfold checksum_field, in_field, adler_field, crc_field. geometry Hw0. lia. }
  cbn [map].
  rewrite !Hsame by (apply Hfix; lia). reflexivity.
Qed.

End Skeleton.

(** ** The checksums of the finished file *)

(** After the six stores every checksum field holds what was computed for
    it, and the CRC-32 fields agree with the bytes of the final buffer:
    the Adler-32 trailer is stored before the CRC-32 of IDAT is taken, and
    no chunk's checksummed bytes contain a field stored later. *)
Lemma finalize_fields st a m :
  well_laid st → 1 <= depth st → 0 <= pix_size st →
  Z.of_nat (length m) = 8 + buffer_size st →
  let st' := set_raw st (finalize st a m) in
  holds4 (this_buffer st) (raw st') (adler_field st) a ∧
  crc_valid st' (ihdr_offs st) (ihdr_size st) ∧
  crc_valid st' (plte_offs st) (plte_size st) ∧
  crc_valid st' (trns_offs st) (trns_size st) ∧
  crc_valid st' (idat_offs st) (idat_size st) ∧
  crc_valid st' (iend_offs st) (iend_size st).
Proof.
  intros Hw Hd Hp Hlen.
  pose proof (blocks_nonneg _ Hp) as Hnb.
  destruct Hw as (Hpix & Hdata & G1 & G2 & G3 & G4 & G5 & G6 & G7 & G8 & G9 & G10 & G11 & _).
  unfold crc_valid, crc_field, adler_field.
  change (this_buffer (set_raw st (finalize st a m))) with (this_buffer st).
  change (raw (set_raw st (finalize st a m))) with (finalize st a m).
  cbv zeta.
  set (v := this_buffer st).
  assert (Hv : 0 <= byteOffset v) by (simpl; lia).
  assert (Hbl : byteLength v = buffer_size st) by reflexivity.
  assert (Hbo : byteOffset v = 8) by reflexivity.
  pose (m1 := (utils.write4 v m (idat_offs st + idat_size st - 8) a).1).
  pose (c1 := utils.crc32_sum (utils.region v m1 (ihdr_offs st + 4) (Z.to_nat (ihdr_size st - 8)))).
  pose (m2 := (utils.write4 v m1 (ihdr_offs st + ihdr_size st - 4) c1).1).
  pose (c2 := utils.crc32_sum (utils.region v m2 (plte_offs st + 4) (Z.to_nat (plte_size st - 8)))).
  pose (m3 := (utils.write4 v m2 (plte_offs st + plte_size st - 4) c2).1).
  pose (c3 := utils.crc32_sum (utils.region v m3 (trns_offs st + 4) (Z.to_nat (trns_size st - 8)))).
  pose (m4 := (utils.write4 v m3 (trns_offs st + trns_size st - 4) c3).1).
  pose (c4 := utils.crc32_sum (utils.region v m4 (idat_offs st + 4) (Z.to_nat (idat_size st - 8)))).
  pose (m5 := (utils.write4 v m4 (idat_offs st + idat_size st - 4) c4).1).
  pose (c5 := utils.crc32_sum (utils.region v m5 (iend_offs st + 4) (Z.to_nat (iend_size st - 8)))).
  pose (m6 := (utils.write4 v m5 (iend_offs st + iend_size st - 4) c5).1).
  assert (L1 : length m1 = length m) by apply write4_length.
  assert (L2 : length m2 = length m) by (unfold m2; now rewrite write4_length).
  assert (L3 : length m3 = length m) by (unfold m3; now rewrite write4_length).
  assert (L4 : length m4 = length m) by (unfold m4; now rewrite write4_length).
  assert (L5 : length m5 = length m) by (unfold m5; now rewrite write4_length).
  change (finalize st a m) with m6.
  assert (Ha : holds4 v m6 (idat_offs st + idat_size st - 8) a).
  { unfold m6, m5, m4, m3, m2.
    do 5 (apply holds4_other; [exact Hv | lia |]).
    apply holds4_write; lia. }
  assert (H1 : holds4 v m6 (ihdr_offs st + ihdr_size st - 4) c1).
  { unfold m6, m5, m4, m3.
    do 4 (apply holds4_other; [exact Hv | lia |]).
    apply holds4_write; lia. }
  assert (H2 : holds4 v m6 (plte_offs st + plte_size st - 4) c2).
  { unfold m6, m5, m4.
    do 3 (apply holds4_other; [exact Hv | lia |]).
    apply holds4_write; lia. }
  assert (H3 : holds4 v m6 (trns_offs st + trns_size st - 4) c3).
  { unfold m6, m5.
    do 2 (apply holds4_other; [exact Hv | lia |]).
    apply holds4_write; lia. }
  assert (H4 : holds4 v m6 (idat_offs st + idat_size st - 4) c4).
  { unfold m6.
    apply holds4_other; [exact Hv | lia |].
    apply holds4_write; lia. }
  assert (H5 : holds4 v m6 (iend_offs st + iend_size st - 4) c5).
  { apply holds4_write; lia. }
  assert (R1 : utils.region v m6 (ihdr_offs st + 4) (Z.to_nat (ihdr_size st - 8))
               = utils.region v m1 (ihdr_offs st + 4) (Z.to_nat (ihdr_size st - 8))).
  { unfold m6, m5, m4, m3, m2. rewrite !region_write4 by (try exact Hv; lia). reflexivity. }
  assert (R2 : utils.region v m6 (plte_offs st + 4) (Z.to_nat (plte_size st - 8))
               = utils.region v m2 (plte_offs st + 4) (Z.to_nat (plte_size st - 8))).
  { unfold m6, m5, m4, m3. rewrite !region_write4 by (try exact Hv; lia). reflexivity. }
  assert (R3 : utils.region v m6 (trns_offs st + 4) (Z.to_nat (trns_size st - 8))
               = utils.region v m3 (trns_offs st + 4) (Z.to_nat (trns_size st - 8))).
  { unfold m6, m5, m4. rewrite !region_write4 by (try exact Hv; lia). reflexivity. }
  assert (R4 : utils.region v m6 (idat_offs st + 4) (Z.to_nat (idat_size st - 8))
               = utils.region v m4 (idat_offs st + 4) (Z.to_nat (idat_size st - 8))).
  { unfold m6, m5. rewrite !region_write4 by (try exact Hv; lia). reflexivity. }
  assert (R5 : utils.region v m6 (iend_offs st + 4) (Z.to_nat (iend_size st - 8))
               = utils.region v m5 (iend_offs st + 4) (Z.to_nat (iend_size st - 8))).
  { unfold m6. rewrite !region_write4 by (try exact Hv; lia). reflexivity. }
  rewrite R1, R2, R3, R4, R5.
  split; [exact Ha|]. split; [exact H1|]. split; [exact H2|].
  split; [exact H3|]. split; [exact H4|exact H5].
Qed.

Section Sums.

Variable RGBA : string → option (Z * Z * Z * Z).

(** X18: in the buffer [getBuffer] returns for a reachable image
    (capacity at least 1, pixel region not negative) each of the five
    chunks ends in the CRC-32 of its own type tag and body as they stand
    in that buffer, and the Adler-32 field holds the checksum the walk
    computed. *)
Theorem getBuffer_checksums st b st' :
  reachable RGBA st → 1 <= depth st → 0 <= pix_size st →
  getBuffer st = (b, st') →
  raw st' = b ∧
  holds4 (this_buffer st') b (adler_field st') (adler32 st) ∧
  crc_valid st' (ihdr_offs st') (ihdr_size st') ∧
  crc_valid st' (plte_offs st') (plte_size st') ∧
  crc_valid st' (trns_offs st') (trns_size st') ∧
  crc_valid st' (idat_offs st') (idat_size st') ∧
  crc_valid st' (iend_offs st') (iend_size st').
Proof.
  intros Hr Hd Hp Hb.
  destruct (reachable_inv RGBA st Hr) as (Hw & Hlen & _).
  unfold getBuffer in Hb. rewrite deflate_finalize in Hb. injection Hb as <- <-.
  split; [reflexivity|].
  exact (finalize_fields st (adler32 st) (raw st) Hw Hd Hp Hlen).
Qed.

End Sums.

(** ** The Adler-32 trailer of a single-block image *)

(** Every store into the buffer goes through [ToUint8]. *)
Lemma view_set_bytes v m i x :
  Forall (λ b, 0 <= b < 256) m → Forall (λ b, 0 <= b < 256) (view_set v m i x).
Proof.
  intros H. unfold view_set. destruct (_ && _); [|exact H].
  apply Forall_insert; [exact H|]. unfold JS.ToUint8. apply Z.mod_pos_bound. lia.
Qed.

Lemma writeb_bytes v bytes : ∀ m offs,
  Forall (λ b, 0 <= b < 256) m →
  Forall (λ b, 0 <= b < 256) (utils.writeb v m offs bytes).1.
Proof.
  induction bytes as [|b bytes IH]; intros m offs H; simpl; [exact H|].
  apply IH, view_set_bytes, H.
Qed.

Lemma finalize_bytes st a m :
  Forall (λ b, 0 <= b < 256) m → Forall (λ b, 0 <= b < 256) (finalize st a m).
Proof.
  intros H. unfold finalize, utils.crc32, utils.write4. cbv zeta.
  repeat apply writeb_bytes. exact H.
Qed.

Lemma init_chunks_bytes st m :
  Forall (λ b, 0 <= b < 256) m → Forall (λ b, 0 <= b < 256) (init_chunks st m).
Proof.
  intros H. unfold init_chunks, utils.write4, utils.write2. cbv zeta.
  repeat apply writeb_bytes. exact H.
Qed.

Lemma block_header_bytes st m i :
  Forall (λ b, 0 <= b < 256) m → Forall (λ b, 0 <= b < 256) (block_header st m i).
Proof.
  intros H. unfold block_header.
  destruct (if i + 65535 <? pix_size st then _ else _) as [size bits].
  pose proof (writeb_bytes (this_buffer st) bits m (block_header_offs st i) H) as E1.
  destruct (utils.writeb _ m _ _) as [m2 o2].
  pose proof (writeb_bytes (this_buffer st)
                [Z.land size 255; Z.land (Z.shiftr size 8) 255] m2 o2 E1) as E2.
  unfold utils.write2lsb.
  destruct (utils.writeb _ m2 _ _) as [m3 o3].
  apply writeb_bytes. exact E2.
Qed.

Lemma block_headers_bytes fuel st : ∀ m i m' n,
  block_headers fuel st m i = Some (m', n) →
  Forall (λ b, 0 <= b < 256) m → Forall (λ b, 0 <= b < 256) m'.
Proof.
  induction fuel as [|fuel IH]; intros m i m' n; simpl; [discriminate|].
  destruct (_ <? _).
  - intros H Hm. apply (IH _ _ _ _ H), block_header_bytes, Hm.
  - intros [= <- _] Hm. exact Hm.
Qed.

Lemma register_bytes st c r g b a :
  Forall (λ b, 0 <= b < 256) (raw st) →
  Forall (λ b, 0 <= b < 256) (raw (register st c r g b a)).
Proof.
  intros H. unfold register. simpl raw. repeat apply view_set_bytes. exact H.
Qed.

Lemma pack_sums a b :
  0 <= a < 65536 → 0 <= b < 65536 →
  JS.bor (JS.shl b 16) a = JS.ToInt32 (b * 65536 + a).
Proof.
  intros Ha Hb. unfold JS.bor, JS.shl.
  rewrite ToInt32_idem, (ToInt32_small b), (ToInt32_small a) by lia.
  rewrite Z.shiftl_mul_pow2 by lia. change (2 ^ 16) with 65536.
  destruct (Z_lt_ge_dec (b * 65536) (2 ^ 31)) as [Hlo|Hhi].
  - rewrite (ToInt32_small (b * 65536)) by lia.
    change 65536 with (2 ^ 16). rewrite lor_low by lia.
    symmetry. apply ToInt32_small. lia.
  - rewrite (ToInt32_high (b * 65536)) by lia.
    replace (b * 65536 - 2 ^ 32) with ((b - 65536) * 2 ^ 16) by lia.
    rewrite lor_low by lia.
    rewrite (ToInt32_high (b * 65536 + a)) by lia. lia.
Qed.

(** The four bytes [write4] stores depend on the value modulo [2^32]. *)
Lemma be32_ToInt32 z : utils.be32 (JS.ToInt32 z) = utils.be32 z.
Proof.
  assert (H : ∀ k, 0 <= k <= 24 →
            Z.land (Z.shiftr (JS.ToInt32 z) k) 255 = Z.land (Z.shiftr z k) 255).
  { intros k Hk. unfold JS.ToInt32.
    rewrite (Z.mod_eq (z + 2 ^ 31) (2 ^ 32)) by lia.
    set (c := (z + 2 ^ 31) / 2 ^ 32).
    replace (z + 2 ^ 31 - 2 ^ 32 * c - 2 ^ 31)
      with (z + (- c * 2 ^ (32 - k)) * 2 ^ k)
      by (replace (2 ^ 32) with (2 ^ (32 - k) * 2 ^ k)
            by (rewrite <- Z.pow_add_r by lia; f_equal; lia); lia).
    rewrite !Z.shiftr_div_pow2 by lia.
    rewrite Z.div_add by (apply Z.pow_nonzero; lia).
    change 255 with (Z.ones 8). rewrite !Z.land_ones by lia.
    replace (- c * 2 ^ (32 - k)) with ((- c * 2 ^ (24 - k)) * 2 ^ 8)
      by (replace (2 ^ (32 - k)) with (2 ^ (24 - k) * 2 ^ 8)
            by (rewrite <- Z.pow_add_r by lia; f_equal; lia); lia).
    apply Z.mod_add. lia. }
  unfold utils.be32.
  rewrite (H 24), (H 16), (H 8) by lia.
  pose proof (H 0 ltac:(lia)) as H0. rewrite !Z.shiftr_0_r in H0. now rewrite H0.
Qed.

Lemma adler_step_rfc st s1 s2 n ab x y v :
  0 <= s1 → 0 <= s2 → s1 mod 65521 = ab.1 → s2 mod 65521 = ab.2 →
  view_get (this_buffer st) (raw st) (deflate_addr st x y) = Some v → 0 <= v →
  ∃ s1' s2' n',
    adler_step st (Some s1, Some s2, n) x y = (Some s1', Some s2', n') ∧
    0 <= s1' ∧ 0 <= s2' ∧
    s1' mod 65521 = (adler_next ab v).1 ∧ s2' mod 65521 = (adler_next ab v).2.
Proof.
  intros H1 H2 E1 E2 Hget Hv. unfold adler_step. rewrite Hget.
  unfold adler_next. cbn [JS.add fst snd]. rewrite <- E1, <- E2.
  assert (Ea : (s1 mod 65521 + v) mod 65521 = (s1 + v) mod 65521)
    by (now rewrite Zplus_mod_idemp_l).
  assert (Eb : (s2 mod 65521 + (s1 + v) mod 65521) mod 65521 = (s2 + (s1 + v)) mod 65521)
    by (now rewrite <- Zplus_mod).
  rewrite Ea, Eb.
  destruct (n - 1 =? 0).
  - unfold JS.rem, BASE. rewrite !Z.rem_mod_nonneg by lia.
    exists ((s1 + v) mod 65521), ((s2 + (s1 + v)) mod 65521), NMAX.
    pose proof (Z.mod_pos_bound (s1 + v) 65521 ltac:(lia)).
    pose proof (Z.mod_pos_bound (s2 + (s1 + v)) 65521 ltac:(lia)).
    rewrite !Z.mod_mod by lia.
    repeat split; lia.
  - exists (s1 + v), (s2 + (s1 + v)), (n - 1). repeat split; lia.
Qed.

Lemma adler_row_rfc st y count : ∀ x s1 s2 n ab,
  0 <= s1 → 0 <= s2 → s1 mod 65521 = ab.1 → s2 mod 65521 = ab.2 →
  (∀ x', x <= x' < x + Z.of_nat count →
         ∃ v, view_get (this_buffer st) (raw st) (deflate_addr st x' y) = Some v ∧
              0 <= v ∧ default 0 (pixel_byte st x' y) = v) →
  ∃ s1' s2' n',
    adler_row st count x y (Some s1, Some s2, n) = (Some s1', Some s2', n') ∧
    0 <= s1' ∧ 0 <= s2' ∧
    let ab' := fold_left adler_next
                 ((λ x, default 0 (pixel_byte st x y)) <$> seqZ x (Z.of_nat count)) ab in
    s1' mod 65521 = ab'.1 ∧ s2' mod 65521 = ab'.2.
Proof.
  induction count as [|count IH]; intros x s1 s2 n ab H1 H2 E1 E2 Hrow.
  - exists s1, s2, n. simpl. auto.
  - destruct (Hrow x ltac:(lia)) as (v & Hget & Hv & Hpb).
    destruct (adler_step_rfc st s1 s2 n ab x y v H1 H2 E1 E2 Hget Hv)
      as (t1 & t2 & n1 & Hstep & T1 & T2 & F1 & F2).
    destruct (IH (x + 1) t1 t2 n1 (adler_next ab v) T1 T2 F1 F2) as
      (u1 & u2 & n2 & Hrest & U1 & U2 & G).
    { intros x' Hx'. apply Hrow. lia. }
    exists u1, u2, n2.
    split.
    { change (adler_row st (S count) x y (Some s1, Some s2, n))
        with (adler_row st count (x + 1) y (adler_step st (Some s1, Some s2, n) x y)).
      rewrite Hstep. exact Hrest. }
    split; [exact U1|]. split; [exact U2|].
    rewrite seqZ_cons by lia.
    replace (Z.succ x) with (x + 1) by lia.
    replace (Z.pred (Z.of_nat (S count))) with (Z.of_nat count) by lia.
    rewrite fmap_cons. cbn [fold_left]. rewrite Hpb. exact G.
Qed.

Lemma adler_rows_rfc st count : ∀ y s1 s2 n ab,
  0 <= s1 → 0 <= s2 → s1 mod 65521 = ab.1 → s2 mod 65521 = ab.2 →
  0 <= width st + 1 →
  (∀ x' y', y <= y' < y + Z.of_nat count → -1 <= x' < width st →
         ∃ v, view_get (this_buffer st) (raw st) (deflate_addr st x' y') = Some v ∧
              0 <= v ∧ default 0 (pixel_byte st x' y') = v) →
  ∃ s1' s2' n',
    adler_rows st count y (Some s1, Some s2, n) = (Some s1', Some s2', n') ∧
    0 <= s1' ∧ 0 <= s2' ∧
    let ab' := fold_left adler_next
                 (concat (pixel_row st <$> seqZ y (Z.of_nat count))) ab in
    s1' mod 65521 = ab'.1 ∧ s2' mod 65521 = ab'.2.
Proof.
  induction count as [|count IH]; intros y s1 s2 n ab H1 H2 E1 E2 Hwd Hrows.
  - exists s1, s2, n. simpl. auto.
  - destruct (adler_row_rfc st y (Z.to_nat (width st + 1)) (-1) s1 s2 n ab H1 H2 E1 E2)
      as (t1 & t2 & n1 & Hrow & T1 & T2 & F).
    { intros x' Hx'. apply Hrows; lia. }
    cbv zeta in F. destruct F as [F1 F2].
    destruct (IH (y + 1) t1 t2 n1 _ T1 T2 F1 F2 Hwd) as
      (u1 & u2 & n2 & Hrest & U1 & U2 & G).
    { intros x' y' Hy' Hx'. apply Hrows; lia. }
    exists u1, u2, n2.
    split.
    { change (adler_rows st (S count) y (Some s1, Some s2, n))
        with (adler_rows st count (y + 1)
                (adler_row st (Z.to_nat (width st + 1)) (-1) y (Some s1, Some s2, n))).
      rewrite Hrow. exact Hrest. }
    split; [exact U1|]. split; [exact U2|].
    rewrite seqZ_cons by lia.
    replace (Z.succ y) with (y + 1) by lia.
    replace (Z.pred (Z.of_nat (S count))) with (Z.of_nat count) by lia.
    rewrite fmap_cons. cbn [concat]. rewrite fold_left_app.
    unfold pixel_row at 1.
    rewrite Z2Nat.id in G by lia. exact G.
Qed.

Section Adler.

Variable RGBA : string → option (Z * Z * Z * Z).

Lemma color_bytes st red green blue alpha res st' log :
  color RGBA st red green blue alpha = (res, st', log) →
  Forall (λ b, 0 <= b < 256) (raw st) → Forall (λ b, 0 <= b < 256) (raw st').
Proof.
  intros Hc H.
  destruct (color_cases RGBA st red green blue alpha)
    as [(e & _ & E)|(r0 & g & b & a & _ & [(n & _ & E)|[(_ & _ & E)|(_ & Hne & E)]])];
    rewrite E in Hc; injection Hc as <- <- <-; try exact H.
  apply register_bytes, H.
Qed.

Lemma reachable_bytes st :
  reachable RGBA st → Forall (λ b, 0 <= b < 256) (raw st).
Proof.
  induction 1 as [fuel w h d bgc st log Hc
                 |st red green blue alpha r st' log Hr IH Hc
                 |st x y rgba r st' log Hr IH Hc
                 |st b st' Hr IH Hc].
  - destruct (constructor_shape _ _ _ _ _ _ _ _ Hc)
      as (st1 & n & r & g & b & a & Hprime & _ & -> & _).
    destruct (prime_shape _ _ _ _ _ _ _ Hprime) as (m & Hbh & -> & _).
    apply register_bytes. change (raw (set_raw (fields w h d bgc) m)) with m.
    apply (block_headers_bytes _ _ _ _ _ _ Hbh), init_chunks_bytes.
    apply Forall_replicate. lia.
  - exact (color_bytes _ _ _ _ _ _ _ _ Hc IH).
  - revert Hc. unfold setPixel. destruct (_ || _); [intros [= _ <- _]; exact IH|].
    destruct (color RGBA st rgba None None None) as [[[ndx|e] st1] log1] eqn:Hcol;
      intros [= _ <- _].
    + simpl raw. apply view_set_bytes. exact (color_bytes _ _ _ _ _ _ _ _ Hcol IH).
    + exact (color_bytes _ _ _ _ _ _ _ _ Hcol IH).
  - rewrite deflate_finalize in Hc. injection Hc as <- <-.
    apply finalize_bytes, IH.
Qed.

(** The walk of a single-block image computes the Adler-32 of RFC 1950
    over the pixel stream. *)
Lemma adler32_single_block st :
  reachable RGBA st → 1 <= depth st → 0 <= width st → 0 <= height st →
  pix_size st <= 65535 →
  adler32 st = JS.ToInt32 (adler32_rfc (pixel_stream st)).
Proof.
  intros Hr Hd Hwd Hht Hp.
  pose proof (reachable_bytes st Hr) as Hbytes.
  destruct (reachable_inv RGBA st Hr) as (Hw & Hlen & Hbs & _).
  destruct (adler_rows_rfc st (Z.to_nat (height st)) 0 1 0 NMAX (1, 0))
    as (s1 & s2 & n & Hrows & S1 & S2 & F); try (simpl; lia); try reflexivity.
  { intros x y Hy Hx.
    pose proof (walk_position st x y (proj1 Hw) ltac:(lia) Hx) as Hpos.
    rewrite deflate_addr_first_block by lia.
    destruct (index_not_checksum st x y Hw Hd Hx ltac:(lia)) as [Hin _].
    pose proof (index_upper st x y Hw Hx ltac:(lia)) as Hlo.
    assert (Hidat : 0 <= idat_offs st) by (geometry Hw; lia).
    destruct (view_get_inside (this_buffer st) (raw st) (index st x y)) as [v Hv];
      rewrite ?this_buffer_offset, ?this_buffer_length; try lia.
    exists v. unfold pixel_byte. rewrite Hv.
    split; [reflexivity|]. split; [|reflexivity].
    unfold view_get in Hv. destruct (_ && _); [|discriminate].
    rewrite Forall_lookup in Hbytes. specialize (Hbytes _ _ Hv). lia. }
  cbv zeta in F. rewrite Z2Nat.id in F by lia. destruct F as [F1 F2].
  unfold adler32. rewrite Hrows. unfold JS.rem, BASE, JS.ToInt32_num.
  rewrite !Z.rem_mod_nonneg by lia.
  pose proof (Z.mod_pos_bound s1 65521 ltac:(lia)).
  pose proof (Z.mod_pos_bound s2 65521 ltac:(lia)).
  rewrite (ToInt32_small (s1 mod 65521)), (ToInt32_small (s2 mod 65521)) by lia.
  rewrite pack_sums by lia.
  unfold adler32_rfc, pixel_stream. cbv zeta. now rewrite F1, F2.
Qed.

(** X19: for a reachable image whose pixel stream fits one stored block
    (at most 65535 bytes; capacity at least 1), [getBuffer] stores as the
    trailer of the zlib stream the big-endian Adler-32 (RFC 1950) of the
    pixel stream - the filter byte and the pixels of each row, as the
    returned buffer holds them. *)
Theorem getBuffer_adler_single_block st b st' :
  reachable RGBA st → 1 <= depth st → 0 <= width st → 0 <= height st →
  pix_size st <= 65535 →
  getBuffer st = (b, st') →
  adler32 st = JS.ToInt32 (adler32_rfc (pixel_stream st)) ∧
  pixel_stream st' = pixel_stream st ∧
  holds4 (this_buffer st') (raw st') (adler_field st')
    (adler32_rfc (pixel_stream st')).
Proof.
  intros Hr Hd Hwd Hht Hp Hb.
  pose proof (adler32_single_block st Hr Hd Hwd Hht Hp) as Ha.
  destruct (reachable_inv RGBA st Hr) as (Hw & Hlen & _).
  assert (Hp0 : 0 <= pix_size st) by (geometry Hw; nia).
  unfold getBuffer in Hb.
  pose proof (deflate_lay _ _ _ Hb) as Hlay.
  pose proof (lay_proj _ _ Hlay) as (Ew & Eh & _).
  assert (Hstream : pixel_stream st' = pixel_stream st).
  { unfold pixel_stream, pixel_row. rewrite Ew, Eh.
    f_equal. apply list_fmap_ext. intros iy y Hy%lookup_seqZ.
    apply list_fmap_ext. intros ix x Hx%lookup_seqZ.
    f_equal. unfold pixel_byte.
    rewrite (index_lay st st' x y Hlay), (lay_view _ _ Hlay).
    apply (deflate_fixed _ _ _ _ Hb).
    apply index_not_checksum; try assumption; lia. }
  split; [exact Ha|]. split; [exact Hstream|].
  rewrite Hstream.
  rewrite deflate_finalize in Hb. injection Hb as <- <-.
  destruct (finalize_fields st (adler32 st) (raw st) Hw Hd Hp0 Hlen) as (Hf & _).
  intros k x Hk. apply Hf. rewrite Ha, be32_ToInt32. exact Hk.
Qed.

(** X20: for a reachable image whose pixel region is larger than one
    stored block (more than 65535 bytes) the walk reads past the end of
    the buffer, the sums become [NaN], and the trailer [getBuffer] stores
    is four zero bytes, whatever the pixels are. *)
Theorem getBuffer_adler_multi_block st b st' :
  reachable RGBA st → 1 <= depth st → 0 <= width st → 1 <= height st →
  65535 < pix_size st →
  getBuffer st = (b, st') →
  adler32 st = 0 ∧
  ∀ k, 0 <= k < 4 →
       view_get (this_buffer st') (raw st') (adler_field st' + k) = Some 0.
Proof.
  intros Hr Hd Hwd Hht Hp Hb.
  destruct (reachable_inv RGBA st Hr) as (Hw & Hlen & _).
  pose proof (adler32_multi_block st Hw Hwd Hht Hd Hp) as Ha.
  split; [exact Ha|].
  unfold getBuffer in Hb. rewrite deflate_finalize in Hb. injection Hb as <- <-.
  destruct (finalize_fields st (adler32 st) (raw st) Hw Hd ltac:(lia) Hlen) as (Hf & _).
  intros k Hk. rewrite Ha in *.
  change (view_get (this_buffer st) (raw (set_raw st (finalize st 0 (raw st))))
            (adler_field st + k) = Some (JS.ToUint8 0)).
  replace k with (Z.of_nat (Z.to_nat k)) by lia.
  apply (Hf (Z.to_nat k) 0).
  destruct (Z.to_nat k) as [|[|[|[|n]]]] eqn:E; try reflexivity. lia.
Qed.

End Adler.

(** ** More on [setPixel] and on the size of the file *)

Section More.

Variable RGBA : string → option (Z * Z * Z * Z).

(** X21: the buffer of a reachable image never changes its length, and
    [getBuffer] returns a file of 87 + 4 * depth + p + 5 * floor((65534 +
    p) / 65535) bytes, [p = height * (width + 1)] being the pixel
    region. *)
Theorem getBuffer_length st b st' :
  reachable RGBA st → getBuffer st = (b, st') →
  Z.of_nat (length b)
  = 87 + 4 * depth st + pix_size st + 5 * ((65534 + pix_size st) / 65535) ∧
  pix_size st = height st * (width st + 1) ∧
  length b = length (raw st) ∧ length (raw st') = length (raw st).
Proof.
  intros Hr Hb. destruct (reachable_inv RGBA st Hr) as (Hw & Hlen & _).
  unfold getBuffer in Hb.
  pose proof (deflate_length st) as Hl. rewrite Hb in Hl. cbn [fst] in Hl.
  assert (Hraw : raw st' = b) by (unfold deflate in Hb; now injection Hb as <- <-).
  rewrite Hraw, Hl. split; [|split; [exact (proj1 Hw)|split; reflexivity]].
  geometry Hw. lia.
Qed.

(** X22: when the palette is full, an in-bounds [setPixel] with a colour
    that is not registered throws nothing, warns once, and stores 0 - the
    byte that the store makes of what [color] returned, and the
    background's index - at the pixel; the palette stays as it was. *)
Theorem setPixel_at_capacity st (x y : Q) rgba r g b a :
  reachable RGBA st → 1 <= depth st →
  (0 <= x ∧ x < inject_Z (width st) ∧ 0 <= y ∧ y < inject_Z (height st))%Q →
  pindex st = depth st →
  components RGBA rgba None None None = Ok (r, g, b, a) →
  palette st !! color_key r g b a = None →
  ∃ st',
    setPixel RGBA st x y rgba = (Ok tt, st', [depth_warning]) ∧
    pixel_byte st' (Qfloor x) (Qfloor y) = Some 0 ∧
    palette st' = palette st ∧ pindex st' = pindex st.
Proof.
  intros Hr Hd Hin Hfull Hc Hnew.
  destruct (reachable_inv RGBA st Hr) as (Hw & Hlen & _).
  pose proof (setPixel_inside _ _ _ _ Hin) as Hguard.
  pose proof (setPixel_guard _ _ _ _ Hguard) as [Hx Hy].
  unfold setPixel. rewrite Hguard.
  rewrite (color_full RGBA st rgba None None None r g b a Hc Hnew Hfull).
  eexists. split; [reflexivity|].
  split; [|split; reflexivity].
  unfold pixel_byte.
  change (this_buffer (set_raw st _)) with (this_buffer st).
  change (index (set_raw st ?m) ?u ?v) with (index st u v).
  cbn [raw set_raw].
  pose proof (index_upper st (Qfloor x) (Qfloor y) Hw ltac:(lia) Hy) as Hlo.
  destruct (index_not_checksum st (Qfloor x) (Qfloor y) Hw Hd ltac:(lia) Hy)
    as (Hhi & _).
  assert (Hidat : 0 <= idat_offs st) by (geometry Hw; lia).
  apply view_get_set_eq; rewrite ?this_buffer_offset, ?this_buffer_length; lia.
Qed.

(** X23: an in-bounds [setPixel] with a colour name the parser does not
    know throws the invalid-colour error of [color] before anything is
    stored: the object is as it was. *)
Theorem setPixel_invalid_name st (x y : Q) s :
  (0 <= x ∧ x < inject_Z (width st) ∧ 0 <= y ∧ y < inject_Z (height st))%Q →
  RGBA s = None →
  setPixel RGBA st x y (Name s) = (Throw InvalidColor, st, []).
Proof.
  intros Hin Hs. unfold setPixel. rewrite (setPixel_inside _ _ _ _ Hin).
  rewrite (color_throw RGBA st (Name s) None None None InvalidColor);
    [reflexivity|].
  simpl. now rewrite Hs.
Qed.

(** X24: an image of height 0 (width not negative, capacity at least 1)
    has room for no stored block: its IDAT body is 6 bytes long and, once
    [getBuffer] has run, reads 78 da 00 00 00 01 - the zlib header and the
    Adler-32 of the empty stream - the block header that the constructor
    wrote at [idat_offs + 10] having been overwritten by the checksums. *)
Theorem empty_image_idat st b st' :
  reachable RGBA st → 1 <= depth st → 0 <= width st → height st = 0 →
  getBuffer st = (b, st') →
  data_size st' = 6 ∧
  holds st' (idat_offs st' + 8) [0x78; 0xda; 0; 0; 0; 1].
Proof.
  intros Hr Hd Hwd Hht Hb. unfold getBuffer in Hb.
  destruct (reachable_inv RGBA st Hr) as (Hw & Hlen & _).
  assert (Hp : pix_size st = 0) by (rewrite (proj1 Hw), Hht; lia).
  pose proof (lay_proj _ _ (deflate_lay _ _ _ Hb))
    as (_ & _ & Ed & Ep & _ & _ & _ & _ & _ & _ & Ei & Es & _).
  assert (Hs : skeleton st').
  { apply (reachable_skeleton RGBA); [exact (reach_deflate RGBA st b st' Hr Hb)|lia..]. }
  destruct Hs as (_ & _ & _ & _ & Hidat & _).
  assert (Hdata : data_size st = 6).
  { destruct Hw as (_ & Hdt & _). rewrite Hdt, Hp. reflexivity. }
  assert (Ha : adler32 st = 1).
  { unfold adler32. rewrite Hht. reflexivity. }
  rewrite deflate_finalize in Hb. injection Hb as <- <-.
  split; [exact Hdata|].
  destruct (finalize_fields st (adler32 st) (raw st) Hw Hd ltac:(lia) Hlen) as (Hf & _).
  rewrite Ha in Hf. unfold adler_field in Hf.
  change [120; 218; 0; 0; 0; 1] with ([120; 218] ++ [0; 0; 0; 1]).
  apply holds_app.
  - intros k x Hk.
    pose proof (Hidat (8 + k)%nat x) as H8.
    replace (idat_offs (set_raw st (finalize st (adler32 st) (raw st))) + Z.of_nat (8 + k))
      with (idat_offs (set_raw st (finalize st (adler32 st) (raw st))) + 8 + Z.of_nat k)
      in H8 by lia.
    apply H8. exact Hk.
  - intros k x Hk.
    change (idat_offs (set_raw st (finalize st (adler32 st) (raw st)))) with (idat_offs st).
    change (this_buffer (set_raw st (finalize st (adler32 st) (raw st))))
      with (this_buffer st).
    rewrite Ha.
    replace (idat_offs st + 8 + Z.of_nat (length [120; 218]))
      with (idat_offs st + idat_size st - 8)
      by (simpl length; geometry Hw; lia).
    pose proof (Hf k x Hk) as Hx.
    assert (Hbyte : JS.ToUint8 x = x).
    { destruct k as [|[|[|[|k]]]]; inversion Hk; reflexivity. }
    rewrite Hbyte in Hx. exact Hx.
Qed.

(** X25: when there is room in the palette (capacity at least 1), [color]
    for a colour that is not registered returns the old [pindex] as its
    index, adds exactly that entry to the palette, moves [pindex] up by
    one, logs nothing, and stores the low bytes of the four components in
    the PLTE and tRNS slots of that index. *)
Theorem color_registers_new st red green blue alpha r g b a :
  reachable RGBA st → 1 <= depth st → 0 <= pix_size st →
  components RGBA red green blue alpha = Ok (r, g, b, a) →
  palette st !! color_key r g b a = None →
  pindex st < depth st →
  ∃ st',
    color RGBA st red green blue alpha = (Ok (JS.Number (pindex st)), st', []) ∧
    palette st' = <[color_key r g b a := pindex st]> (palette st) ∧
    pindex st' = pindex st + 1 ∧
    palette_entry st' (pindex st) r g b a.
Proof.
  intros Hr Hd Hp Hc Hnew Hroom.
  destruct (reachable_inv RGBA st Hr) as (Hw & Hlen & _ & Hsz & _).
  exists (register st (color_key r g b a) r g b a).
  split; [apply (color_fresh RGBA st _ _ _ _ r g b a Hc Hnew); lia|].
  split; [apply palette_register|]. split; [apply pindex_register|].
  destruct (register_get_entry st (color_key r g b a) r g b a Hw Hd Hp
              ltac:(lia) Hlen) as (H1 & H2 & H3 & H4).
  unfold palette_entry.
  change (this_buffer (register st (color_key r g b a) r g b a)) with (this_buffer st).
  change (plte_offs (register st (color_key r g b a) r g b a)) with (plte_offs st).
  change (trns_offs (register st (color_key r g b a) r g b a)) with (trns_offs st).
  auto.
Qed.

End More.

(** ** These properties on the sample images *)

(** X5 at the painted 2x2 image. *)
Lemma palette_numbering_witness :
  reachable demo_RGBA painted ∧ pindex painted = Z.of_nat (size (palette painted)).
Proof.
  split; [exact painted_reachable|].
  exact (proj1 (proj2 (proj2 (proj2
           (palette_numbering demo_RGBA painted painted_reachable))))).
Defined.

(** X6 at white, the second colour of the painted image. *)
Lemma palette_slots_witness :
  reachable demo_RGBA painted ∧ 1 <= depth painted ∧ 0 <= pix_size painted ∧
  palette painted !! color_key 255 255 255 255 = Some 1 ∧
  ∃ r g b a, color_key 255 255 255 255 = color_key r g b a ∧
             palette_entry painted 1 r g b a.
Proof.
  assert (Hd : 1 <= depth painted) by (vm_compute; discriminate).
  assert (Hp : 0 <= pix_size painted) by (vm_compute; discriminate).
  assert (Hk : palette painted !! color_key 255 255 255 255 = Some 1)
    by (vm_compute; reflexivity).
  split; [exact painted_reachable|]. split; [exact Hd|].
  split; [exact Hp|]. split; [exact Hk|].
  exact (palette_slots demo_RGBA painted (color_key 255 255 255 255) 1
           painted_reachable Hd Hp Hk).
Defined.

(** X7 at red, a third colour for the full palette of the painted image. *)
Lemma color_index_in_palette_witness :
  reachable demo_RGBA painted ∧ 1 <= depth painted ∧
  color demo_RGBA painted (Name "red") None None None
  = (Ok (JS.Bytes BUF.CODE_NUL), painted, [depth_warning]) ∧
  ∃ r g b a,
    components demo_RGBA (Name "red") None None None = Ok (r, g, b, a) ∧
    0 <= JS.ToUint8 (JS.ToElement (JS.Bytes BUF.CODE_NUL)) < depth painted.
Proof.
  assert (Hd : 1 <= depth painted) by (vm_compute; discriminate).
  assert (Hc : color demo_RGBA painted (Name "red") None None None
               = (Ok (JS.Bytes BUF.CODE_NUL), painted, [depth_warning]))
    by (vm_compute; reflexivity).
  split; [exact painted_reachable|]. split; [exact Hd|]. split; [exact Hc|].
  destruct (color_index_in_palette demo_RGBA painted (Name "red") None None None
              (JS.Bytes BUF.CODE_NUL) painted [depth_warning]
              painted_reachable Hd Hc) as (r & g & b & a & Hcomp & _ & Hbyte).
  exists r, g, b, a. split; [exact Hcomp | exact Hbyte].
Defined.

(** X8 at the first pixel of the 2x2 image, painted white. *)
Lemma setPixel_writes_pixel_witness :
  reachable demo_RGBA two_by_two ∧ 1 <= depth two_by_two ∧
  setPixel demo_RGBA two_by_two 0 0 (Name "white") = (Ok tt, painted, []) ∧
  ∃ v st1,
    color demo_RGBA two_by_two (Name "white") None None None = (Ok v, st1, []) ∧
    pixel_byte painted (Qfloor 0) (Qfloor 0) = Some (JS.ToUint8 (JS.ToElement v)).
Proof.
  assert (Hd : 1 <= depth two_by_two) by (vm_compute; discriminate).
  assert (Hin : (0 <= 0 ∧ 0 < inject_Z (width two_by_two) ∧
                 0 <= 0 ∧ 0 < inject_Z (height two_by_two))%Q)
    by (repeat split; vm_compute; first [reflexivity | discriminate]).
  assert (Hset : setPixel demo_RGBA two_by_two 0 0 (Name "white")
                 = (Ok tt, painted, [])) by (vm_compute; reflexivity).
  split; [exact two_by_two_reachable|]. split; [exact Hd|]. split; [exact Hset|].
  destruct (setPixel_writes_pixel demo_RGBA two_by_two 0 0 (Name "white") painted []
              two_by_two_reachable Hd Hin Hset) as (ndx & st1 & Hc & Hpix & _).
  exists ndx, st1. split; [exact Hc | exact Hpix].
Defined.

(** X9 at the painted pixel. *)
Lemma pixels_kept_witness :
  reachable demo_RGBA painted ∧ 1 <= depth painted ∧
  -1 <= 0 < width painted ∧ 0 <= 0 < height painted ∧
  ∀ b st', getBuffer painted = (b, st') → pixel_byte st' 0 0 = pixel_byte painted 0 0.
Proof.
  assert (Hd : 1 <= depth painted) by (vm_compute; discriminate).
  assert (Hx : -1 <= 0 < width painted)
    by (vm_compute; split; first [reflexivity | discriminate]).
  assert (Hy : 0 <= 0 < height painted)
    by (vm_compute; split; first [reflexivity | discriminate]).
  split; [exact painted_reachable|]. split; [exact Hd|].
  split; [exact Hx|]. split; [exact Hy|].
  exact (proj2 (pixels_kept demo_RGBA painted 0 0 painted_reachable Hd Hx Hy)).
Defined.

(** X10 at the arguments of the 2x2 image. *)
Lemma constructor_returns_iff_witness :
  0 <= 2 ∧ 1 <= depth (fields 2 2 (Some 2) (Some (Name "black"))) ∧
  bg_components demo_RGBA (Some (Name "black")) = Ok (0, 0, 0, 255) ∧
  2 * (2 + 1) < 2 ^ 31 - 2 ^ 16 ∧
  ∃ st, constructor demo_RGBA (Z.to_nat (2 * (2 + 1) / 65536 + 2)) 2 2 (Some 2)
          (Some (Name "black")) = Some (Ok st, []).
Proof.
  assert (H0 : 0 <= 2) by lia.
  assert (Hd : 1 <= depth (fields 2 2 (Some 2) (Some (Name "black"))))
    by (vm_compute; discriminate).
  assert (Hbg : bg_components demo_RGBA (Some (Name "black")) = Ok (0, 0, 0, 255))
    by reflexivity.
  assert (Hp : 2 * (2 + 1) < 2 ^ 31 - 2 ^ 16) by lia.
  split; [exact H0|]. split; [exact Hd|]. split; [exact Hbg|]. split; [exact Hp|].
  exact (proj1 (constructor_returns_iff demo_RGBA 2 2 (Some 2) (Some (Name "black"))
                  (0, 0, 0, 255) H0 H0 Hd Hbg) Hp).
Defined.

(** X11 at the arguments of the 2x2 image. *)
Lemma header_count_exact_witness :
  0 <= 2 * (2 + 1) < 2 ^ 31 - 2 ^ 16 ∧
  0 <= buffer_size (fields 2 2 (Some 2) (Some (Name "black"))) ∧
  2 * (2 + 1) / 65536 + 1 < Z.of_nat 2 ∧
  header_count 2 2 2 (Some 2) (Some (Name "black")) = Some (2 * (2 + 1) / 65536 + 1).
Proof.
  assert (Hp : 0 <= 2 * (2 + 1) < 2 ^ 31 - 2 ^ 16) by lia.
  assert (Hbs : 0 <= buffer_size (fields 2 2 (Some 2) (Some (Name "black"))))
    by (vm_compute; discriminate).
  assert (Hf : 2 * (2 + 1) / 65536 + 1 < Z.of_nat 2) by (vm_compute; reflexivity).
  split; [exact Hp|]. split; [exact Hbs|]. split; [exact Hf|].
  exact (proj1 (header_count_exact 2 2 2 (Some 2) (Some (Name "black")) Hp Hbs) Hf).
Defined.

(** X12 at a 1x1 image on a background the parser does not know. *)
Lemma constructor_rejects_background_witness :
  0 <= 1 ∧ 1 <= depth (fields 1 1 (Some 1) (Some (Name "plaid"))) ∧
  1 * (1 + 1) < 2 ^ 31 - 2 ^ 16 ∧ 1 * (1 + 1) / 65536 + 1 < Z.of_nat 2 ∧
  "plaid" ≠ EmptyString ∧ demo_RGBA "plaid" = None ∧
  constructor demo_RGBA 2 1 1 (Some 1) (Some (Name "plaid"))
  = Some (Throw InvalidColor, []).
Proof.
  assert (H0 : 0 <= 1) by lia.
  assert (Hd : 1 <= depth (fields 1 1 (Some 1) (Some (Name "plaid"))))
    by (vm_compute; discriminate).
  assert (Hp : 1 * (1 + 1) < 2 ^ 31 - 2 ^ 16) by lia.
  assert (Hf : 1 * (1 + 1) / 65536 + 1 < Z.of_nat 2) by (vm_compute; reflexivity).
  assert (Hs : "plaid" ≠ EmptyString) by discriminate.
  assert (Hn : demo_RGBA "plaid" = None) by reflexivity.
  split; [exact H0|]. split; [exact Hd|]. split; [exact Hp|]. split; [exact Hf|].
  split; [exact Hs|]. split; [exact Hn|].
  exact (constructor_rejects_background demo_RGBA 2 1 1 (Some 1) "plaid"
           H0 H0 Hd Hp Hf Hs Hn).
Defined.

(** X13 at the 2x2 image and the call that paints it. *)
Lemma methods_store_only_witness :
  reachable demo_RGBA two_by_two ∧ 1 <= depth two_by_two ∧
  setPixel demo_RGBA two_by_two 0 0 (Name "white") = (Ok tt, painted, []) ∧
  take 8 (raw painted) = take 8 (raw two_by_two).
Proof.
  assert (Hd : 1 <= depth two_by_two) by (vm_compute; discriminate).
  assert (Hset : setPixel demo_RGBA two_by_two 0 0 (Name "white")
                 = (Ok tt, painted, [])) by (vm_compute; reflexivity).
  split; [exact two_by_two_reachable|]. split; [exact Hd|]. split; [exact Hset|].
  exact (proj1 (proj2 (methods_store_only demo_RGBA two_by_two two_by_two_reachable Hd)
                  0%Q 0%Q (Name "white") (Ok tt) painted [] 0 Hset)).
Defined.

(** X14 at the fresh 2x2 image. *)
Lemma fresh_image_blank_witness :
  constructor demo_RGBA 2 2 2 (Some 2) (Some (Name "black")) = Some (Ok two_by_two, []) ∧
  1 <= depth two_by_two ∧ 0 <= width two_by_two ∧ 0 <= height two_by_two ∧
  pixel_stream two_by_two = replicate (Z.to_nat (pix_size two_by_two)) 0.
Proof.
  assert (Hc : constructor demo_RGBA 2 2 2 (Some 2) (Some (Name "black"))
               = Some (Ok two_by_two, [])) by (vm_compute; reflexivity).
  assert (Hd : 1 <= depth two_by_two) by (vm_compute; discriminate).
  assert (Hw : 0 <= width two_by_two) by (vm_compute; discriminate).
  assert (Hh : 0 <= height two_by_two) by (vm_compute; discriminate).
  split; [exact Hc|]. split; [exact Hd|]. split; [exact Hw|]. split; [exact Hh|].
  exact (proj2 (fresh_image_blank demo_RGBA 2 2 2 (Some 2) (Some (Name "black"))
                  two_by_two [] Hc Hd Hw Hh)).
Defined.

(** X15 at the second row of the painted image. *)
Lemma filter_bytes_zero_witness :
  reachable demo_RGBA painted ∧ 1 <= depth painted ∧ 0 <= width painted ∧
  0 <= 1 < height painted ∧ pixel_byte painted (-1) 1 = Some 0.
Proof.
  assert (Hd : 1 <= depth painted) by (vm_compute; discriminate).
  assert (Hw : 0 <= width painted) by (vm_compute; discriminate).
  assert (Hy : 0 <= 1 < height painted)
    by (vm_compute; split; first [reflexivity | discriminate]).
  split; [exact painted_reachable|]. split; [exact Hd|].
  split; [exact Hw|]. split; [exact Hy|].
  exact (filter_bytes_zero demo_RGBA painted 1 painted_reachable Hd Hw Hy).
Defined.

(** X16 at the painted 2x2 image. *)
Lemma skeleton_kept_witness :
  reachable demo_RGBA painted ∧ 1 <= depth painted ∧ 0 <= pix_size painted ∧
  skeleton painted.
Proof.
  assert (Hd : 1 <= depth painted) by (vm_compute; discriminate).
  assert (Hp : 0 <= pix_size painted) by (vm_compute; discriminate).
  split; [exact painted_reachable|]. split; [exact Hd|]. split; [exact Hp|].
  exact (proj1 (skeleton_kept demo_RGBA painted painted_reachable Hd Hp)).
Defined.

(** X17 at the painted 2x2 image, whose pixel region has 6 bytes. *)
Lemma single_block_header_kept_witness :
  reachable demo_RGBA painted ∧ 1 <= depth painted ∧ 1 <= pix_size painted <= 65535 ∧
  read_block_header painted 0
  = [Some 1;
     Some (Z.land (pix_size painted) 255);
     Some (Z.land (Z.shiftr (pix_size painted) 8) 255);
     Some (Z.land (Z.lnot (pix_size painted)) 255);
     Some (Z.land (Z.shiftr (Z.lnot (pix_size painted)) 8) 255)].
Proof.
  assert (Hd : 1 <= depth painted) by (vm_compute; discriminate).
  assert (Hp : 1 <= pix_size painted <= 65535) by (vm_compute; split; discriminate).
  split; [exact painted_reachable|]. split; [exact Hd|]. split; [exact Hp|].
  exact (single_block_header_kept demo_RGBA painted painted_reachable Hd Hp).
Defined.

(** X18 at the painted 2x2 image. *)
Lemma getBuffer_checksums_witness :
  reachable demo_RGBA painted ∧ 1 <= depth painted ∧ 0 <= pix_size painted ∧
  ∃ b st',
    getBuffer painted = (b, st') ∧
    crc_valid st' (idat_offs st') (idat_size st') ∧
    crc_valid st' (iend_offs st') (iend_size st').
Proof.
  assert (Hd : 1 <= depth painted) by (vm_compute; discriminate).
  assert (Hp : 0 <= pix_size painted) by (vm_compute; discriminate).
  split; [exact painted_reachable|]. split; [exact Hd|]. split; [exact Hp|].
  exists (getBuffer painted).1, (getBuffer painted).2.
  assert (Hb : getBuffer painted = ((getBuffer painted).1, (getBuffer painted).2))
    by apply surjective_pairing.
  split; [exact Hb|].
  destruct (getBuffer_checksums demo_RGBA painted _ _ painted_reachable Hd Hp Hb)
    as (_ & _ & _ & _ & _ & H4 & H5).
  split; [exact H4 | exact H5].
Defined.

(** X19 at the painted 2x2 image. *)
Lemma getBuffer_adler_single_block_witness :
  reachable demo_RGBA painted ∧ 1 <= depth painted ∧
  0 <= width painted ∧ 0 <= height painted ∧ pix_size painted <= 65535 ∧
  adler32 painted = JS.ToInt32 (adler32_rfc (pixel_stream painted)).
Proof.
  assert (Hd : 1 <= depth painted) by (vm_compute; discriminate).
  assert (Hw : 0 <= width painted) by (vm_compute; discriminate).
  assert (Hh : 0 <= height painted) by (vm_compute; discriminate).
  assert (Hp : pix_size painted <= 65535) by (vm_compute; discriminate).
  split; [exact painted_reachable|]. split; [exact Hd|]. split; [exact Hw|].
  split; [exact Hh|]. split; [exact Hp|].
  exact (proj1 (getBuffer_adler_single_block demo_RGBA painted _ _
                  painted_reachable Hd Hw Hh Hp
                  (surjective_pairing (getBuffer painted)))).
Defined.

(** X20 at the image of width 65535 and height 1, a pixel region of 65536
    bytes. *)
Lemma getBuffer_adler_multi_block_witness :
  ∃ st,
    constructor demo_RGBA 3 65535 1 (Some 8) None = Some (Ok st, []) ∧
    65535 < pix_size st ∧ adler32 st = 0.
Proof.
  destruct (constructor_returns demo_RGBA 3 65535 1 (Some 8) None 0 0 0 0)
    as [st Hst];
    [lia | lia | vm_compute; discriminate | lia | vm_compute; reflexivity
    | reflexivity |].
  exists st. split; [exact Hst|].
  pose proof (reach_new demo_RGBA _ _ _ _ _ _ _ Hst) as Hr.
  destruct (constructor_inv demo_RGBA _ _ _ _ _ _ _ Hst) as (Hlay & _).
  pose proof (lay_proj (fields 65535 1 (Some 8) None) st Hlay)
    as (Ew & Eh & Ed & Ep & _).
  assert (Hd : 1 <= depth st) by (rewrite Ed; vm_compute; discriminate).
  assert (Hw : 0 <= width st) by (rewrite Ew; vm_compute; discriminate).
  assert (Hh : 1 <= height st) by (rewrite Eh; vm_compute; discriminate).
  assert (Hp : 65535 < pix_size st) by (rewrite Ep; vm_compute; reflexivity).
  split; [exact Hp|].
  exact (proj1 (getBuffer_adler_multi_block demo_RGBA st _ _ Hr Hd Hw Hh Hp
                  (surjective_pairing (getBuffer st)))).
Defined.

(** X21 at the painted 2x2 image: a file of 106 bytes. *)
Lemma getBuffer_length_witness :
  reachable demo_RGBA painted ∧
  ∃ b st',
    getBuffer painted = (b, st') ∧
    Z.of_nat (length b)
    = 87 + 4 * depth painted + pix_size painted
      + 5 * ((65534 + pix_size painted) / 65535).
Proof.
  split; [exact painted_reachable|].
  exists (getBuffer painted).1, (getBuffer painted).2.
  assert (Hb : getBuffer painted = ((getBuffer painted).1, (getBuffer painted).2))
    by apply surjective_pairing.
  split; [exact Hb|].
  exact (proj1 (getBuffer_length demo_RGBA painted _ _ painted_reachable Hb)).
Defined.

(** X22 at white on the 1x1 image, whose palette of one colour is full. *)
Lemma setPixel_at_capacity_witness :
  reachable demo_RGBA tiny ∧ 1 <= depth tiny ∧ pindex tiny = depth tiny ∧
  components demo_RGBA (Name "white") None None None = Ok (255, 255, 255, 255) ∧
  palette tiny !! color_key 255 255 255 255 = None ∧
  ∃ st',
    setPixel demo_RGBA tiny 0 0 (Name "white") = (Ok tt, st', [depth_warning]) ∧
    pixel_byte st' (Qfloor 0) (Qfloor 0) = Some 0.
Proof.
  assert (Hd : 1 <= depth tiny) by (vm_compute; discriminate).
  assert (Hin : (0 <= 0 ∧ 0 < inject_Z (width tiny) ∧
                 0 <= 0 ∧ 0 < inject_Z (height tiny))%Q)
    by (repeat split; vm_compute; first [reflexivity | discriminate]).
  assert (Hfull : pindex tiny = depth tiny) by (vm_compute; reflexivity).
  assert (Hc : components demo_RGBA (Name "white") None None None
               = Ok (255, 255, 255, 255)) by reflexivity.
  assert (Hnew : palette tiny !! color_key 255 255 255 255 = None)
    by (vm_compute; reflexivity).
  split; [exact tiny_reachable|]. split; [exact Hd|]. split; [exact Hfull|].
  split; [exact Hc|]. split; [exact Hnew|].
  destruct (setPixel_at_capacity demo_RGBA tiny 0 0 (Name "white") 255 255 255 255
              tiny_reachable Hd Hin Hfull Hc Hnew) as (st' & Hset & Hpix & _).
  exists st'. split; [exact Hset | exact Hpix].
Defined.

(** X23 at an unknown colour name on the 2x2 image. *)
Lemma setPixel_invalid_name_witness :
  demo_RGBA "plaid" = None ∧
  setPixel demo_RGBA two_by_two 0 0 (Name "plaid")
  = (Throw InvalidColor, two_by_two, []).
Proof.
  assert (Hin : (0 <= 0 ∧ 0 < inject_Z (width two_by_two) ∧
                 0 <= 0 ∧ 0 < inject_Z (height two_by_two))%Q)
    by (repeat split; vm_compute; first [reflexivity | discriminate]).
  assert (Hn : demo_RGBA "plaid" = None) by reflexivity.
  split; [exact Hn|].
  exact (setPixel_invalid_name demo_RGBA two_by_two 0 0 "plaid" Hin Hn).
Defined.

(** X24 at the image of width 2 and height 0. *)
Lemma empty_image_idat_witness :
  ∃ st,
    constructor demo_RGBA 2 2 0 (Some 1) None = Some (Ok st, []) ∧
    height st = 0 ∧
    ∃ b st', getBuffer st = (b, st') ∧
             holds st' (idat_offs st' + 8) [0x78; 0xda; 0; 0; 0; 1].
Proof.
  destruct (constructor_returns demo_RGBA 2 2 0 (Some 1) None 0 0 0 0)
    as [st Hst];
    [lia | lia | vm_compute; discriminate | lia | vm_compute; reflexivity
    | reflexivity |].
  exists st. split; [exact Hst|].
  pose proof (reach_new demo_RGBA _ _ _ _ _ _ _ Hst) as Hr.
  destruct (constructor_inv demo_RGBA _ _ _ _ _ _ _ Hst) as (Hlay & _).
  pose proof (lay_proj (fields 2 0 (Some 1) None) st Hlay) as (Ew & Eh & Ed & _).
  assert (Hd : 1 <= depth st) by (rewrite Ed; vm_compute; discriminate).
  assert (Hw : 0 <= width st) by (rewrite Ew; vm_compute; discriminate).
  assert (Hh : height st = 0) by (rewrite Eh; reflexivity).
  split; [exact Hh|].
  exists (getBuffer st).1, (getBuffer st).2.
  assert (Hb : getBuffer st = ((getBuffer st).1, (getBuffer st).2))
    by apply surjective_pairing.
  split; [exact Hb|].
  exact (proj2 (empty_image_idat demo_RGBA st _ _ Hr Hd Hw Hh Hb)).
Defined.

(** X25 at white, the second colour of the 2x2 image. *)
Lemma color_registers_new_witness :
  reachable demo_RGBA two_by_two ∧ 1 <= depth two_by_two ∧ 0 <= pix_size two_by_two ∧
  components demo_RGBA (Name "white") None None None = Ok (255, 255, 255, 255) ∧
  palette two_by_two !! color_key 255 255 255 255 = None ∧
  pindex two_by_two < depth two_by_two ∧
  ∃ st',
    color demo_RGBA two_by_two (Name "white") None None None
    = (Ok (JS.Number (pindex two_by_two)), st', []) ∧
    pindex st' = pindex two_by_two + 1.
Proof.
  assert (Hd : 1 <= depth two_by_two) by (vm_compute; discriminate).
  assert (Hp : 0 <= pix_size two_by_two) by (vm_compute; discriminate).
  assert (Hc : components demo_RGBA (Name "white") None None None
               = Ok (255, 255, 255, 255)) by reflexivity.
  assert (Hnew : palette two_by_two !! color_key 255 255 255 255 = None)
    by (vm_compute; reflexivity).
  assert (Hroom : pindex two_by_two < depth two_by_two) by (vm_compute; reflexivity).
  split; [exact two_by_two_reachable|]. split; [exact Hd|]. split; [exact Hp|].
  split; [exact Hc|]. split; [exact Hnew|]. split; [exact Hroom|].
  destruct (color_registers_new demo_RGBA two_by_two (Name "white") None None None
              255 255 255 255 two_by_two_reachable Hd Hp Hc Hnew Hroom)
    as (st' & H1 & _ & H3 & _).
  exists st'. split; [exact H1 | exact H3].
Defined.
